(** * String analyzer service (server.js): a shallow embedding

    The service keeps an in-memory array of analysed strings and offers
    insertion, exact lookup, structured filtering, natural-language
    filtering and deletion.  JavaScript strings are sequences of UTF-16
    code units; they are modelled as lists of code units ([N]).  JavaScript
    numbers that occur here are integers (lengths, counts, parsed numerals)
    and are modelled in [Z]; the source's doubles agree with [Z] on every
    integer of magnitude at most 2^53. *)

From stdpp Require Import base gmap list strings.
From Stdlib Require Import ZArith Ascii Lia Btauto.

Local Open Scope Z_scope.

(** ** JavaScript strings *)

Abbreviation jsstring := (list N).

(** A source string literal (all literals of server.js are ASCII). *)
Definition js (s : string) : jsstring :=
  map N_of_ascii (String.list_ascii_of_string s).

Definition in_range (lo hi c : N) : bool := ((lo <=? c) && (c <=? hi))%N.

(** ECMAScript WhiteSpace and LineTerminator code units: what [trim],
    [parseInt] and the regular-expression class [\s] skip or match. *)
Definition isWhiteSpace (c : N) : bool :=
  in_range 9 13 c || (c =? 32)%N || (c =? 160)%N || (c =? 5760)%N
  || in_range 8192 8202 c || (c =? 8232)%N || (c =? 8233)%N
  || (c =? 8239)%N || (c =? 8287)%N || (c =? 12288)%N || (c =? 65279)%N.

(** [\d] *)
Definition isDigit (c : N) : bool := in_range 48 57 c.

(** [[a-zA-Z]] *)
Definition isLetter (c : N) : bool := in_range 97 122 c || in_range 65 90 c.

(** [\w] *)
Definition isWordChar (c : N) : bool :=
  isLetter c || isDigit c || (c =? 95)%N.

(** [.] matches everything but the four line terminators. *)
Definition isLineTerminator (c : N) : bool :=
  (c =? 10)%N || (c =? 13)%N || (c =? 8232)%N || (c =? 8233)%N.

Definition isHighSurrogate (c : N) : bool := in_range 55296 56319 c.
Definition isLowSurrogate (c : N) : bool := in_range 56320 57343 c.

Definition isAscii (c : N) : bool := (c <? 128)%N.

(** Lower-casing of one ASCII code unit. *)
Definition lower_unit (c : N) : N :=
  if in_range 65 90 c then (c + 32)%N else c.

(** A string between double quotes, as the messages of the source have
    them. *)
Definition quoted (s : jsstring) : jsstring := [34%N] ++ s ++ [34%N].

(** [a === b] on strings. *)
Definition str_eqb (a b : jsstring) : bool := bool_decide (a = b).

(** The runtime services the source calls and this development does not
    unfold: [String.prototype.toLowerCase] (full Unicode case mapping, of
    which only the behaviour on ASCII-only strings is fixed here) and the
    hex SHA-256 digest of [crypto]. *)
Class Host := {
  toLowerCase : jsstring -> jsstring;
  toLowerCase_ascii :
    forall s, forallb isAscii s = true -> toLowerCase s = map lower_unit s;
  sha256_hex : jsstring -> jsstring
}.

(** ** Built-in string operations used by the source *)

Fixpoint trimStart (s : jsstring) : jsstring :=
  match s with
  | c :: rest => if isWhiteSpace c then trimStart rest else s
  | [] => []
  end.

Definition trimEnd (s : jsstring) : jsstring := rev (trimStart (rev s)).

(** [s.trim()] *)
Definition trim (s : jsstring) : jsstring := trimEnd (trimStart s).

(** [s.split('')]: one single-unit string per code unit. *)
Definition split_units (s : jsstring) : list jsstring := map (fun c => [c]) s.

(** [a.join('')] *)
Definition join (a : list jsstring) : jsstring := concat a.

(** [s.split(/\s+/)]: the pieces between maximal whitespace runs.  [cur]
    is the piece being read (reversed) and [in_sep] tells that the previous
    code unit belonged to a separator.  A separator at either end yields an
    empty piece there, and the empty string yields one empty piece. *)
Fixpoint split_ws_from (in_sep : bool) (cur : jsstring) (s : jsstring)
  : list jsstring :=
  match s with
  | [] => [rev cur]
  | c :: rest =>
      if isWhiteSpace c then
        if in_sep then split_ws_from true cur rest
        else rev cur :: split_ws_from true [] rest
      else split_ws_from false (c :: cur) rest
  end.

Definition split_ws (s : jsstring) : list jsstring := split_ws_from false [] s.

(** [Boolean] on a string: the empty string is the only falsy one. *)
Definition Boolean_str (s : jsstring) : bool :=
  match s with [] => false | _ => true end.

(** The string iterator ([for (const ch of value)], [new Set(value)]):
    a high surrogate followed by a low surrogate is one element of two code
    units, every other code unit is an element on its own. *)
Fixpoint string_iter (s : jsstring) : list jsstring :=
  match s with
  | [] => []
  | c :: rest =>
      match rest with
      | d :: rest' =>
          if isHighSurrogate c && isLowSurrogate d
          then [c; d] :: string_iter rest'
          else [c] :: string_iter rest
      | [] => [[c]]
      end
  end.

(** [s.includes(t)] *)
Fixpoint starts_with (t s : jsstring) : bool :=
  match t, s with
  | [], _ => true
  | a :: t', b :: s' => (a =? b)%N && starts_with t' s'
  | _ :: _, [] => false
  end.

Fixpoint includes (s t : jsstring) : bool :=
  starts_with t s ||
  match s with
  | [] => false
  | _ :: s' => includes s' t
  end.

(** ** The data model *)

Module Properties.
Record t := {
  length : Z;
  is_palindrome : bool;
  unique_characters : Z;
  word_count : Z;
  sha256_hash : jsstring;
  character_frequency_map : gmap jsstring Z
}.
End Properties.
Import Properties(is_palindrome, unique_characters, word_count, sha256_hash,
                  character_frequency_map).

Module StringRecord.
Record t := {
  id : jsstring;
  value : jsstring;
  properties : Properties.t;
  created_at : jsstring
}.
End StringRecord.
Import StringRecord(value, properties, created_at).

(** [x || 0] on the result of a property read. *)
Definition or_zero (o : option Z) : Z :=
  match o with
  | Some n => if n =? 0 then 0 else n
  | None => 0
  end.

(** The [for ... of] loop that fills [character_frequency_map]. *)
Definition count_chars (s : jsstring) : gmap jsstring Z :=
  foldl (fun m ch => <[ch := or_zero (m !! ch) + 1]> m) ∅ (string_iter s).

Section Analyzer.
Context `{Host}.

(** [analyzeString(value)]; [now] is what [new Date().toISOString()]
    returns when the record is built. *)
Definition analyzeString (now : jsstring) (value : jsstring) : StringRecord.t :=
  let length := Z.of_nat (List.length value) in
  let is_palindrome :=
    str_eqb (toLowerCase value)
            (join (rev (split_units (toLowerCase value)))) in
  let unique_characters :=
    Z.of_nat (size (list_to_set (string_iter value) : gset jsstring)) in
  let word_count :=
    if (Z.of_nat (List.length (trim value)) =? 0) then 0
    else Z.of_nat (List.length (List.filter Boolean_str (split_ws (trim value)))) in
  let sha256_hash := sha256_hex value in
  let character_frequency_map := count_chars value in
  {| StringRecord.id := sha256_hash;
     value := value;
     properties :=
       {| Properties.length := length;
          is_palindrome := is_palindrome;
          unique_characters := unique_characters;
          word_count := word_count;
          sha256_hash := sha256_hash;
          character_frequency_map := character_frequency_map |};
     created_at := now |}.
End Analyzer.

(** ** Requests and responses *)

(** The value of a JSON body field, as far as the handlers tell values
    apart. *)
Inductive JsonValue :=
| JUndefined
| JString (s : jsstring)
| JOther.

(** A filter predicate set: [filters_applied] of the structured handler
    and [parsed_filters] of the natural-language one.  An absent key is
    [None]. *)
Module Filters.
Record t := {
  is_palindrome : option bool;
  min_length : option Z;
  max_length : option Z;
  word_count : option Z;
  contains_character : option jsstring
}.
Definition empty : t := Build_t None None None None None.
Definition set_is_palindrome (v : bool) (f : t) : t :=
  Build_t (Some v) (min_length f) (max_length f) (word_count f)
          (contains_character f).
Definition set_min_length (v : Z) (f : t) : t :=
  Build_t (is_palindrome f) (Some v) (max_length f) (word_count f)
          (contains_character f).
Definition set_max_length (v : Z) (f : t) : t :=
  Build_t (is_palindrome f) (min_length f) (Some v) (word_count f)
          (contains_character f).
Definition set_word_count (v : Z) (f : t) : t :=
  Build_t (is_palindrome f) (min_length f) (max_length f) (Some v)
          (contains_character f).
Definition set_contains_character (v : jsstring) (f : t) : t :=
  Build_t (is_palindrome f) (min_length f) (max_length f) (word_count f)
          (Some v).
Definition count_if {A} (o : option A) : nat :=
  match o with Some _ => 1%nat | None => 0%nat end.
(** [Object.keys(f).length] *)
Definition keys_length (f : t) : nat :=
  (count_if (is_palindrome f) + count_if (min_length f)
   + count_if (max_length f) + count_if (word_count f)
   + count_if (contains_character f))%nat.
End Filters.

(** [req.query] of [GET /strings]: each recognised parameter is absent or a
    string. *)
Module Query.
Record t := {
  is_palindrome : option jsstring;
  min_length : option jsstring;
  max_length : option jsstring;
  word_count : option jsstring;
  contains_character : option jsstring
}.
Definition empty : t := Build_t None None None None None.
End Query.

Inductive Body :=
| ErrorBody (error : jsstring)
| RecordBody (r : StringRecord.t)
| CollectionBody (data : list StringRecord.t) (count : Z)
                 (filters_applied : Filters.t)
| ConflictBody (error : jsstring) (original : jsstring)
               (parsed_filters : Filters.t)
| InterpretedBody (data : list StringRecord.t) (count : Z)
                  (original : jsstring) (parsed_filters : Filters.t)
| EmptyBody.

Record Response := { status : Z; body : Body }.

(** The in-memory store [strings], in insertion order. *)
Abbreviation Store := (list StringRecord.t).

(** ** Array helpers *)

(** [a.find(p)] *)
Fixpoint find {A} (p : A -> bool) (a : list A) : option A :=
  match a with
  | [] => None
  | x :: a' => if p x then Some x else find p a'
  end.

(** [a.findIndex(p)], with [None] for [-1]. *)
Fixpoint findIndex {A} (p : A -> bool) (a : list A) : option nat :=
  match a with
  | [] => None
  | x :: a' => if p x then Some 0%nat else S <$> findIndex p a'
  end.

(** [a.splice(idx, 1)] for an index inside the array. *)
Definition splice1 {A} (idx : nat) (a : list A) : list A := delete idx a.

(** ** [parseInt(v, 10)] and [parseIntOrNull] *)

(** The numeral read from a run of decimal digits, most significant first. *)
Definition digits_value (ds : jsstring) : Z :=
  foldl (fun acc c => acc * 10 + (Z.of_N c - 48)) 0 ds.

Fixpoint take_digits (s : jsstring) : jsstring :=
  match s with
  | c :: rest => if isDigit c then c :: take_digits rest else []
  | [] => []
  end.

(** [parseInt(v, 10)]: skip leading white space, read an optional sign,
    then the longest run of decimal digits; what follows is ignored.
    [None] stands for [NaN].  The value is exact here; the source's double
    is this value up to 2^53 in magnitude and the nearest double beyond,
    which compares with every string length in the same way. *)
Definition parseInt10 (v : jsstring) : option Z :=
  let trimmed := trimStart v in
  let '(sign, unsigned) :=
    match trimmed with
    | c :: rest =>
        if (c =? 45)%N then (-1, rest)
        else if (c =? 43)%N then (1, rest)
        else (1, trimmed)
    | [] => (1, trimmed)
    end in
  match take_digits unsigned with
  | [] => None
  | ds => Some (sign * digits_value ds)
  end.

Inductive IntOrNull :=
| Undefined
| Null
| Num (n : Z).

Definition parseIntOrNull (v : option jsstring) : IntOrNull :=
  match v with
  | None => Undefined
  | Some v =>
      match parseInt10 v with
      | None => Null
      | Some n => Num n
      end
  end.

Definition is_null (x : IntOrNull) : bool :=
  match x with Null => true | _ => false end.

Definition defined {A} (o : option A) : bool :=
  match o with Some _ => true | None => false end.

(** ** The handlers of server.js

    Every handler takes the store and returns the store it leaves behind
    together with the response. *)

Section Handlers.
Context `{Host}.

(** [findByValue(value)] *)
Definition findByValue (strings : Store) (v : jsstring)
  : option StringRecord.t :=
  find (fun item => str_eqb (value item) v) strings.

(** [app.post('/strings')] *)
Definition post_strings (now : jsstring) (strings : Store) (v : JsonValue)
  : Store * Response :=
  match v with
  | JUndefined =>
      (strings, {| status := 400;
                   body := ErrorBody (js "Missing " ++ quoted (js "value") ++ js " field") |})
  | JOther =>
      (strings, {| status := 422;
                   body := ErrorBody (quoted (js "value") ++ js " must be a string") |})
  | JString v =>
      if defined (findByValue strings v) then
        (strings, {| status := 409;
                     body := ErrorBody (js "String already exists in the system") |})
      else
        let entry := analyzeString now v in
        (strings ++ [entry], {| status := 201; body := RecordBody entry |})
  end.

(** [app.get('/strings/:string_value')] *)
Definition get_string (strings : Store) (stringValue : jsstring)
  : Store * Response :=
  match findByValue strings stringValue with
  | None =>
      (strings, {| status := 404;
                   body := ErrorBody (js "String does not exist in the system") |})
  | Some found => (strings, {| status := 200; body := RecordBody found |})
  end.

(** The filtering part of [app.get('/strings')] (from
    [let results = strings.slice()] on), on the values the validation
    part hands over.  [minLen], [maxLen] and [wc] are never [Null] here:
    the handler has answered 400 before. *)
Definition apply_filters (strings : Store)
    (is_palindrome : option jsstring) (minLen maxLen wc : IntOrNull)
    (contains_character : option jsstring) : list StringRecord.t * Filters.t :=
  let results := strings in
  let filters_applied := Filters.empty in
  let '(results, filters_applied) :=
    match is_palindrome with
    | Some v =>
        let boolVal := str_eqb v (js "true") in
        (List.filter (fun item =>
                        Bool.eqb (Properties.is_palindrome (properties item)) boolVal)
                     results,
         Filters.set_is_palindrome boolVal filters_applied)
    | None => (results, filters_applied)
    end in
  let '(results, filters_applied) :=
    match minLen with
    | Num minLen =>
        (List.filter (fun item => Properties.length (properties item) >=? minLen)
                     results,
         Filters.set_min_length minLen filters_applied)
    | _ => (results, filters_applied)
    end in
  let '(results, filters_applied) :=
    match maxLen with
    | Num maxLen =>
        (List.filter (fun item => Properties.length (properties item) <=? maxLen)
                     results,
         Filters.set_max_length maxLen filters_applied)
    | _ => (results, filters_applied)
    end in
  let '(results, filters_applied) :=
    match wc with
    | Num wc =>
        (List.filter (fun item => Properties.word_count (properties item) =? wc)
                     results,
         Filters.set_word_count wc filters_applied)
    | _ => (results, filters_applied)
    end in
  match contains_character with
  | Some c =>
      let ch := toLowerCase c in
      (List.filter (fun item => includes (toLowerCase (value item)) ch) results,
       Filters.set_contains_character ch filters_applied)
  | None => (results, filters_applied)
  end.

Definition bad_request (strings : Store) (msg : jsstring) : Store * Response :=
  (strings, {| status := 400; body := ErrorBody msg |}).

(** [app.get('/strings')].  The parameters of [Query.t] are strings, so
    the handler's check [typeof contains_character !== 'string'] never
    fires and is left out. *)
Definition get_strings (strings : Store) (query : Query.t)
  : Store * Response :=
  let is_palindrome := Query.is_palindrome query in
  let min_length := Query.min_length query in
  let max_length := Query.max_length query in
  let word_count := Query.word_count query in
  let contains_character := Query.contains_character query in
  if match is_palindrome with
     | Some v => negb (str_eqb v (js "true") || str_eqb v (js "false"))
     | None => false
     end
  then bad_request strings (js "is_palindrome must be " ++ quoted (js "true")
                           ++ js " or " ++ quoted (js "false"))
  else
  let minLen := parseIntOrNull min_length in
  if defined min_length && is_null minLen
  then bad_request strings (js "min_length must be an integer")
  else
  let maxLen := parseIntOrNull max_length in
  if defined max_length && is_null maxLen
  then bad_request strings (js "max_length must be an integer")
  else
  let wc := parseIntOrNull word_count in
  if defined word_count && is_null wc
  then bad_request strings (js "word_count must be an integer")
  else
  if match contains_character with
     | Some c => negb (length c =? 1)%nat
     | None => false
     end
  then bad_request strings (js "contains_character must be a single character")
  else
  let '(results, filters_applied) :=
    apply_filters strings is_palindrome minLen maxLen wc contains_character in
  (strings, {| status := 200;
               body := CollectionBody results (Z.of_nat (length results))
                                      filters_applied |}).

(** [app.delete('/strings/:string_value')] *)
Definition delete_string (strings : Store) (stringValue : jsstring)
  : Store * Response :=
  match findIndex (fun item => str_eqb (value item) stringValue) strings with
  | None =>
      (strings, {| status := 404;
                   body := ErrorBody (js "String does not exist in the system") |})
  | Some idx => (splice1 idx strings, {| status := 204; body := EmptyBody |})
  end.
End Handlers.

(** ** Regular expressions

    The fragment of ECMAScript regular expressions that server.js uses, with
    the backtracking semantics of the language: no flags, matching by code
    unit, greedy quantifiers, alternatives tried left to right, the leftmost
    start position wins. *)

Inductive cls :=
| CDigit        (* \d *)
| CSpace        (* \s *)
| CWord         (* \w *)
| CDot          (* . *)
| CLetter.      (* [a-zA-Z] *)

Definition cls_match (k : cls) (c : N) : bool :=
  match k with
  | CDigit => isDigit c
  | CSpace => isWhiteSpace c
  | CWord => isWordChar c
  | CDot => negb (isLineTerminator c)
  | CLetter => isLetter c
  end.

Inductive regex :=
| RStr (s : jsstring)            (* a literal *)
| RCls (k : cls)                 (* one code unit of a class *)
| RStar (k : cls)                (* k* *)
| RPlus (k : cls)                (* k+ *)
| ROpt (r : regex)               (* r? *)
| RSeq (r1 r2 : regex)           (* r1 r2 *)
| RAlt (r1 r2 : regex)           (* r1|r2 *)
| RGroup (n : nat) (r : regex)   (* the n-th capturing group *)
| RWordB.                        (* \b *)

Declare Scope regex_scope.
Delimit Scope regex_scope with re.
Bind Scope regex_scope with regex.
Notation "r1 ;; r2" := (RSeq r1 r2) (at level 100, r2 at level 200) : regex_scope.
Infix "||" := RAlt : regex_scope.

(** The captures of a match: group number and captured text, the most
    recent first. *)
Abbreviation Captures := (list (nat * jsstring)).

Fixpoint group (n : nat) (m : Captures) : option jsstring :=
  match m with
  | [] => None
  | (i, s) :: m' => if (i =? n)%nat then Some s else group n m'
  end.

(** A position in the input is the reversed text before it ([prev]) and
    the text after it ([rest]). *)
Definition Cont := jsstring -> jsstring -> Captures -> option Captures.

Fixpoint strip_prefix (t s : jsstring) : option jsstring :=
  match t, s with
  | [], _ => Some s
  | a :: t', b :: s' => if (a =? b)%N then strip_prefix t' s' else None
  | _ :: _, [] => None
  end.

(** [\b]: exactly one of the code units around the position is a word
    character. *)
Definition word_boundary (prev rest : jsstring) : bool :=
  xorb (match prev with c :: _ => isWordChar c | [] => false end)
       (match rest with c :: _ => isWordChar c | [] => false end).

(** Greedy [k*]: take as many code units as possible, give one back at a
    time while the continuation fails. *)
Fixpoint star_cls (p : N -> bool) (k : Cont) (prev rest : jsstring)
    (caps : Captures) : option Captures :=
  match rest with
  | c :: rest' =>
      if p c then
        match star_cls p k (c :: prev) rest' caps with
        | Some m => Some m
        | None => k prev rest caps
        end
      else k prev rest caps
  | [] => k prev rest caps
  end.

(** The text consumed between two positions. *)
Definition consumed (prev prev' : jsstring) : jsstring :=
  rev (take (length prev' - length prev) prev').

Fixpoint rmatch (r : regex) (k : Cont) (prev rest : jsstring)
    (caps : Captures) : option Captures :=
  match r with
  | RStr s =>
      match strip_prefix s rest with
      | Some rest' => k (rev s ++ prev) rest' caps
      | None => None
      end
  | RCls c =>
      match rest with
      | x :: rest' => if cls_match c x then k (x :: prev) rest' caps else None
      | [] => None
      end
  | RStar c => star_cls (cls_match c) k prev rest caps
  | RPlus c =>
      match rest with
      | x :: rest' =>
          if cls_match c x then star_cls (cls_match c) k (x :: prev) rest' caps
          else None
      | [] => None
      end
  | ROpt r' =>
      match rmatch r' k prev rest caps with
      | Some m => Some m
      | None => k prev rest caps
      end
  | RSeq r1 r2 => rmatch r1 (rmatch r2 k) prev rest caps
  | RAlt r1 r2 =>
      match rmatch r1 k prev rest caps with
      | Some m => Some m
      | None => rmatch r2 k prev rest caps
      end
  | RGroup n r' =>
      rmatch r' (fun prev' rest' caps' =>
                   k prev' rest' ((n, consumed prev prev') :: caps'))
             prev rest caps
  | RWordB => if word_boundary prev rest then k prev rest caps else None
  end.

(** The continuation of a whole match that started at [start]: group 0 is
    the matched text. *)
Definition accept (start : jsstring) : Cont :=
  fun prev' _ caps => Some ((0%nat, consumed start prev') :: caps).

(** Try the start positions from left to right. *)
Fixpoint search (r : regex) (prev rest : jsstring) : option Captures :=
  match rmatch r (accept prev) prev rest [] with
  | Some m => Some m
  | None =>
      match rest with
      | [] => None
      | c :: rest' => search r (c :: prev) rest'
      end
  end.

(** [s.match(r)] for a regular expression without the [g] flag; [None] is
    [null]. *)
Definition str_match (s : jsstring) (r : regex) : option Captures :=
  search r [] s.

(** [r.test(s)] *)
Definition test (r : regex) (s : jsstring) : bool := defined (str_match s r).

(** [Number(m[n])] for a group that captured decimal digits.  The value
    is exact here; the source's double is this value below 2^53 and the
    nearest double from there on. *)
Definition Number_group (n : nat) (m : Captures) : Z :=
  digits_value (default [] (group n m)).

(** ** The natural-language translator *)

Module Re.
Local Open Scope regex_scope.

(** [/\b(single|one)\b.*\bword\b/] *)
Definition single_word : regex :=
  RWordB ;; RGroup 1 (RStr (js "single") || RStr (js "one")) ;; RWordB
  ;; RStar CDot ;; RWordB ;; RStr (js "word") ;; RWordB.

(** [/\bword count is 1\b/] *)
Definition word_count_is_1 : regex :=
  RWordB ;; RStr (js "word count is 1") ;; RWordB.

(** [/\b(\d+)\s+word(s)?\b/] *)
Definition n_words : regex :=
  RWordB ;; RGroup 1 (RPlus CDigit) ;; RPlus CSpace ;; RStr (js "word")
  ;; ROpt (RGroup 2 (RStr (js "s"))) ;; RWordB.

(** [/\bpalindrom\w*\b/] *)
Definition palindrome : regex :=
  RWordB ;; RStr (js "palindrom") ;; RStar CWord ;; RWordB.

(** [/\blonger than (\d+)/] *)
Definition longer : regex :=
  RWordB ;; RStr (js "longer than ") ;; RGroup 1 (RPlus CDigit).

(** [/\b(shorter than|less than) (\d+)/] *)
Definition shorter : regex :=
  RWordB ;; RGroup 1 (RStr (js "shorter than") || RStr (js "less than"))
  ;; RStr (js " ") ;; RGroup 2 (RPlus CDigit).

(** [/\b(?:contain(?:ing|s)?(?: the)?(?: letter)?|containing)\s+([a-zA-Z])\b/] *)
Definition letter : regex :=
  RWordB
  ;; ((RStr (js "contain") ;; ROpt (RStr (js "ing") || RStr (js "s"))
       ;; ROpt (RStr (js " the")) ;; ROpt (RStr (js " letter")))
      || RStr (js "containing"))
  ;; RPlus CSpace ;; RGroup 1 (RCls CLetter) ;; RWordB.
End Re.

Section Translator.
Context `{Host}.

(** [parseNaturalLanguageQuery(q)]; [None] is [null]. *)
Definition parseNaturalLanguageQuery (q : jsstring) : option Filters.t :=
  let parsed := Filters.empty in
  let s := toLowerCase q in
  let parsed :=
    if test Re.single_word s || test Re.word_count_is_1 s
    then Filters.set_word_count 1 parsed else parsed in
  let wcMatch := str_match s Re.n_words in
  let parsed :=
    match wcMatch with
    | Some m => Filters.set_word_count (Number_group 1 m) parsed
    | None => parsed
    end in
  let parsed :=
    if test Re.palindrome s
    then Filters.set_is_palindrome true parsed else parsed in
  let longer := str_match s Re.longer in
  let parsed :=
    match longer with
    | Some m => Filters.set_min_length (Number_group 1 m + 1) parsed
    | None => parsed
    end in
  let shorter := str_match s Re.shorter in
  let parsed :=
    match shorter with
    | Some m => Filters.set_max_length (Number_group 2 m - 1) parsed
    | None => parsed
    end in
  let letterMatch := str_match s Re.letter in
  let parsed :=
    match letterMatch with
    | Some m =>
        Filters.set_contains_character (toLowerCase (default [] (group 1 m)))
                                       parsed
    | None => parsed
    end in
  if (Filters.keys_length parsed =? 0)%nat then None else Some parsed.

(** [a !== undefined && b !== undefined && a > b] on the two bounds. *)
Definition conflicting (parsed_filters : Filters.t) : bool :=
  match Filters.min_length parsed_filters, Filters.max_length parsed_filters with
  | Some lo, Some hi => lo >? hi
  | _, _ => false
  end.

(** [app.get('/strings/filter-by-natural-language')]; [query] is
    [req.query.query]. *)
Definition get_filter_by_natural_language (strings : Store)
    (query : option jsstring) : Store * Response :=
  match query with
  | None | Some [] =>
      (strings, {| status := 400;
                   body := ErrorBody (js "Missing " ++ quoted (js "query")
                                      ++ js " parameter") |})
  | Some query =>
      match parseNaturalLanguageQuery query with
      | None =>
          (strings, {| status := 400;
                       body := ErrorBody (js "Unable to parse natural language query") |})
      | Some parsed_filters =>
          if conflicting parsed_filters then
            (strings,
             {| status := 422;
                body := ConflictBody
                          (js "Query parsed but resulted in conflicting filters")
                          query parsed_filters |})
          else
            let results := strings in
            let results :=
              match Filters.is_palindrome parsed_filters with
              | Some true =>
                  List.filter (fun item =>
                                 Bool.eqb (Properties.is_palindrome (properties item)) true)
                              results
              | _ => results
              end in
            let results :=
              match Filters.word_count parsed_filters with
              | Some wc =>
                  List.filter (fun item =>
                                 Properties.word_count (properties item) =? wc)
                              results
              | None => results
              end in
            let results :=
              match Filters.min_length parsed_filters with
              | Some lo =>
                  List.filter (fun item =>
                                 Properties.length (properties item) >=? lo)
                              results
              | None => results
              end in
            let results :=
              match Filters.max_length parsed_filters with
              | Some hi =>
                  List.filter (fun item =>
                                 Properties.length (properties item) <=? hi)
                              results
              | None => results
              end in
            let results :=
              match Filters.contains_character parsed_filters with
              | Some c =>
                  let ch := toLowerCase c in
                  List.filter (fun item =>
                                 includes (toLowerCase (value item)) ch)
                              results
              | None => results
              end in
            (strings,
             {| status := 200;
                body := InterpretedBody results (Z.of_nat (length results))
                                        query parsed_filters |})
      end
  end.
End Translator.

(** ** The earlier variant of the service (second unnamed source file)

    Its [DELETE] handler compares lower-cased values. *)
Module Variant1.
Section Handlers.
Context `{Host}.

(** [analyzeString(value)] of the variant: the words are counted without
    looking at the trimmed length first. *)
Definition analyzeString (now : jsstring) (value : jsstring) : StringRecord.t :=
  let length := Z.of_nat (List.length value) in
  let is_palindrome :=
    str_eqb (toLowerCase value)
            (join (rev (split_units (toLowerCase value)))) in
  let unique_characters :=
    Z.of_nat (size (list_to_set (string_iter value) : gset jsstring)) in
  let word_count :=
    Z.of_nat (List.length (List.filter Boolean_str (split_ws (trim value)))) in
  let sha256_hash := sha256_hex value in
  let character_frequency_map := count_chars value in
  {| StringRecord.id := sha256_hash;
     value := value;
     properties :=
       {| Properties.length := length;
          is_palindrome := is_palindrome;
          unique_characters := unique_characters;
          word_count := word_count;
          sha256_hash := sha256_hash;
          character_frequency_map := character_frequency_map |};
     created_at := now |}.

(** [app.post('/strings')] of the variant. *)
Definition post_strings (now : jsstring) (strings : Store) (v : JsonValue)
  : Store * Response :=
  match v with
  | JUndefined =>
      (strings, {| status := 400;
                   body := ErrorBody (js "Missing " ++ quoted (js "value") ++ js " field") |})
  | JOther =>
      (strings, {| status := 422;
                   body := ErrorBody (quoted (js "value") ++ js " must be a string") |})
  | JString value =>
      let exists_ := find (fun item => str_eqb (StringRecord.value item) value)
                          strings in
      if defined exists_ then
        (strings, {| status := 409;
                     body := ErrorBody (js "String already exists in the system") |})
      else
        let analyzed := analyzeString now value in
        (strings ++ [analyzed], {| status := 201; body := RecordBody analyzed |})
  end.

(** [app.delete('/strings/:string_value')] *)
Definition delete_string (strings : Store) (string_value : jsstring)
  : Store * Response :=
  match findIndex (fun item => str_eqb (toLowerCase (value item))
                                       (toLowerCase string_value))
                  strings with
  | None =>
      (strings, {| status := 404;
                   body := ErrorBody (js "String does not exist in the system") |})
  | Some index => (splice1 index strings, {| status := 204; body := EmptyBody |})
  end.

(** [/single word|one word/] *)
Definition single_word : regex :=
  RAlt (RStr (js "single word")) (RStr (js "one word")).

(** [/longer than (\d+)/] *)
Definition longer : regex :=
  RSeq (RStr (js "longer than ")) (RGroup 1 (RPlus CDigit)).

(** [/contain(?:s)?(?: the letter)? (\w)/] *)
Definition contains : regex :=
  RSeq (RStr (js "contain"))
    (RSeq (ROpt (RStr (js "s")))
       (RSeq (ROpt (RStr (js " the letter")))
          (RSeq (RStr (js " ")) (RGroup 1 (RCls CWord))))).

(** [app.get('/strings/filter-by-natural-language')] of the variant: the
    recognizers filter as they fire, and an empty result is answered 422.
    [parseInt] is applied to a run of decimal digits only. *)
Definition get_filter_by_natural_language (strings : Store)
    (query : option jsstring) : Store * Response :=
  match query with
  | None | Some [] =>
      (strings, {| status := 400;
                   body := ErrorBody (js "Missing " ++ quoted (js "query")
                                      ++ js " parameter") |})
  | Some query =>
      let results := strings in
      let lowerQuery := toLowerCase query in
      let parsed_filters := Filters.empty in
      let '(results, parsed_filters) :=
        if includes lowerQuery (js "palindrome") then
          (List.filter (fun item => Properties.is_palindrome (properties item))
                       results,
           Filters.set_is_palindrome true parsed_filters)
        else (results, parsed_filters) in
      let singleWordMatch := str_match lowerQuery single_word in
      let '(results, parsed_filters) :=
        match singleWordMatch with
        | Some _ =>
            (List.filter (fun item =>
                            Properties.word_count (properties item) =? 1)
                         results,
             Filters.set_word_count 1 parsed_filters)
        | None => (results, parsed_filters)
        end in
      let longerMatch := str_match lowerQuery longer in
      let '(results, parsed_filters) :=
        match longerMatch with
        | Some m =>
            let min := Number_group 1 m in
            (List.filter (fun item =>
                            Properties.length (properties item) >? min)
                         results,
             Filters.set_min_length (min + 1) parsed_filters)
        | None => (results, parsed_filters)
        end in
      let containsMatch := str_match lowerQuery contains in
      let '(results, parsed_filters) :=
        match containsMatch with
        | Some m =>
            let target := default [] (group 1 m) in
            (List.filter (fun item =>
                            includes (toLowerCase (value item))
                                     (toLowerCase target))
                         results,
             Filters.set_contains_character (toLowerCase target) parsed_filters)
        | None => (results, parsed_filters)
        end in
      if (length results =? 0)%nat then
        (strings,
         {| status := 422;
            body := ConflictBody
                      (js "Query parsed but resulted in no matching data")
                      query parsed_filters |})
      else
        (strings,
         {| status := 200;
            body := InterpretedBody results (Z.of_nat (length results))
                                    query parsed_filters |})
  end.

(** [parseInt(v)] without a radix: as [parseInt(v, 10)], but a [0x] or
    [0X] after the sign makes the digits hexadecimal.  The value is exact
    here; the source's double is this value below 2^53 in magnitude and
    the nearest double from there on. *)
Definition isHexDigit (c : N) : bool :=
  isDigit c || in_range 97 102 c || in_range 65 70 c.

Definition hex_digit (c : N) : Z :=
  if isDigit c then Z.of_N c - 48
  else if in_range 97 102 c then Z.of_N c - 87
  else Z.of_N c - 55.

Definition hex_value (ds : jsstring) : Z :=
  foldl (fun acc c => acc * 16 + hex_digit c) 0 ds.

Fixpoint take_hex_digits (s : jsstring) : jsstring :=
  match s with
  | c :: rest => if isHexDigit c then c :: take_hex_digits rest else []
  | [] => []
  end.

(** What follows a [0x] or [0X] prefix, if there is one. *)
Definition strip_hex_prefix (s : jsstring) : option jsstring :=
  match s with
  | c :: x :: rest =>
      if (c =? 48)%N && ((x =? 120)%N || (x =? 88)%N) then Some rest else None
  | _ => None
  end.

(** The text after the white space and the sign that [parseInt] skips. *)
Definition unsigned_part (v : jsstring) : jsstring :=
  match trimStart v with
  | c :: rest =>
      if (c =? 45)%N then rest
      else if (c =? 43)%N then rest
      else c :: rest
  | [] => []
  end.

Definition sign_of (v : jsstring) : Z :=
  match trimStart v with
  | c :: _ => if (c =? 45)%N then -1 else 1
  | [] => 1
  end.

Definition parseInt (v : jsstring) : option Z :=
  let sign := sign_of v in
  let unsigned := unsigned_part v in
  match strip_hex_prefix unsigned with
  | Some hex =>
      match take_hex_digits hex with
      | [] => None
      | ds => Some (sign * hex_value ds)
      end
  | None =>
      match take_digits unsigned with
      | [] => None
      | ds => Some (sign * digits_value ds)
      end
  end.

(** [param && !ok(param)]: the parameter is present, is not the empty
    string, and fails the test. *)
Definition rejects (param : option jsstring) (ok : jsstring -> bool) : bool :=
  match param with
  | Some (c :: v) => negb (ok (c :: v))
  | _ => false
  end.

(** [filters_applied] of the variant: a numeric filter may hold [NaN],
    written [Some None]. *)
Record AppliedFilters := {
  applied_is_palindrome : option bool;
  applied_min_length : option (option Z);
  applied_max_length : option (option Z);
  applied_word_count : option (option Z);
  applied_contains_character : option jsstring
}.

Inductive ListingBody :=
| ListingError (error : jsstring)
| Listing (data : list StringRecord.t) (count : Z)
          (filters_applied : AppliedFilters) (message : option jsstring).

Record ListingResponse := { listing_status : Z; listing_body : ListingBody }.

(** [n >= m], [n <= m] and [n === m] for a number [m] that may be [NaN]. *)
Definition ge_number (n : Z) (m : option Z) : bool :=
  match m with Some m => n >=? m | None => false end.

Definition le_number (n : Z) (m : option Z) : bool :=
  match m with Some m => n <=? m | None => false end.

Definition eq_number (n : Z) (m : option Z) : bool :=
  match m with Some m => n =? m | None => false end.

Definition listing_error (strings : Store) (msg : jsstring)
  : Store * ListingResponse :=
  (strings, {| listing_status := 400; listing_body := ListingError msg |}).

(** [app.get('/strings')] of the variant. *)
Definition get_strings (strings : Store) (query : Query.t)
  : Store * ListingResponse :=
  if (length strings =? 0)%nat then
    (strings,
     {| listing_status := 200;
        listing_body := Listing [] 0
                          (Build_AppliedFilters None None None None None)
                          (Some (js "No records yet")) |})
  else
  let results := strings in
  let is_palindrome := Query.is_palindrome query in
  let min_length := Query.min_length query in
  let max_length := Query.max_length query in
  let word_count := Query.word_count query in
  let contains_character := Query.contains_character query in
  if rejects is_palindrome
       (fun v => str_eqb v (js "true") || str_eqb v (js "false"))
  then listing_error strings
         (js "Invalid query parameter: is_palindrome must be true or false")
  else
  if rejects min_length (fun v => defined (parseInt v))
  then listing_error strings
         (js "Invalid query parameter: min_length must be an integer")
  else
  if rejects max_length (fun v => defined (parseInt v))
  then listing_error strings
         (js "Invalid query parameter: max_length must be an integer")
  else
  if rejects word_count (fun v => defined (parseInt v))
  then listing_error strings
         (js "Invalid query parameter: word_count must be an integer")
  else
  let '(results, applied_ip) :=
    match is_palindrome with
    | Some v =>
        let boolValue := str_eqb v (js "true") in
        (List.filter (fun item =>
                        Bool.eqb (Properties.is_palindrome (properties item))
                                 boolValue)
                     results,
         Some boolValue)
    | None => (results, None)
    end in
  let '(results, applied_min) :=
    match min_length with
    | Some v =>
        let min := parseInt v in
        (List.filter (fun item =>
                        ge_number (Properties.length (properties item)) min)
                     results,
         Some min)
    | None => (results, None)
    end in
  let '(results, applied_max) :=
    match max_length with
    | Some v =>
        let max := parseInt v in
        (List.filter (fun item =>
                        le_number (Properties.length (properties item)) max)
                     results,
         Some max)
    | None => (results, None)
    end in
  let '(results, applied_wc) :=
    match word_count with
    | Some v =>
        let wc := parseInt v in
        (List.filter (fun item =>
                        eq_number (Properties.word_count (properties item)) wc)
                     results,
         Some wc)
    | None => (results, None)
    end in
  match contains_character with
  | Some c =>
      if negb (length c =? 1)%nat then
        listing_error strings
          (js "contains_character must be a single character")
      else
        let char := toLowerCase c in
        let results :=
          List.filter (fun item => includes (toLowerCase (value item)) char)
                      results in
        (strings,
         {| listing_status := 200;
            listing_body :=
              Listing results (Z.of_nat (length results))
                (Build_AppliedFilters applied_ip applied_min applied_max
                                      applied_wc (Some char))
                None |})
  | None =>
      (strings,
       {| listing_status := 200;
          listing_body :=
            Listing results (Z.of_nat (length results))
              (Build_AppliedFilters applied_ip applied_min applied_max
                                    applied_wc None)
              None |})
  end.
End Handlers.
End Variant1.

(** ** The first variant of the service

    The oldest version of the handlers.  The records it builds and the
    parameters it reads have names of their own ([isPalindrome],
    [unique-characters], [contains_char]); they get types of their own
    below.  The handlers that only read stored records are stated over the
    record type of server.js, whose field [is_palindrome] then stands for
    the key [isPalindrome]. *)

Module Variant0.

(** [properties] of a record as [analyzeString] builds it;
    [unique_characters] is the key [unique-characters]. *)
Module Props.
Record t := {
  length : Z;
  isPalindrome : bool;
  unique_characters : Z;
  word_count : Z;
  sha256_hash : jsstring;
  character_frequency_map : gmap jsstring Z
}.
End Props.

(** A record as [analyzeString] builds it and [app.post] stores it. *)
Module Rec.
Record t := {
  id : jsstring;
  value : jsstring;
  properties : Props.t;
  created_at : jsstring
}.
End Rec.

Inductive PostBody :=
| PostError (error : jsstring)
| PostRecord (analyzed : Rec.t).

Record PostResponse := { post_status : Z; post_body : PostBody }.

(** [req.query] of [GET /strings], under the names the handler reads. *)
Module RawQuery.
Record t := {
  isPalindrome : option jsstring;
  min_length : option jsstring;
  max_length : option jsstring;
  word_count : option jsstring;
  contains_char : option jsstring
}.
End RawQuery.

(** [parsed_filters] of [GET /strings]; a numeric filter may hold [NaN],
    written [Some None]. *)
Module Parsed.
Record t := {
  isPalindrome : option bool;
  min_length : option (option Z);
  max_length : option (option Z);
  word_count : option (option Z);
  contains_char : option jsstring
}.
End Parsed.

(** The [value] field of a request body, as far as the insertion handler
    tells values apart: [!value] holds for [undefined], for the empty
    string and for the other falsy values ([null], [false], [0]). *)
Inductive BodyValue :=
| VUndefined
| VString (s : jsstring)
| VFalsy
| VTruthy.

Definition to_json (v : BodyValue) : JsonValue :=
  match v with
  | VUndefined => JUndefined
  | VString s => JString s
  | VFalsy | VTruthy => JOther
  end.

(** The loop that fills [character_map]. *)
Definition count_chars (s : jsstring) : gmap jsstring Z :=
  foldl (fun m char =>
           match m !! char with
           | Some n => if n =? 0 then <[char := 1]> m else <[char := n + 1]> m
           | None => <[char := 1]> m
           end) ∅ (string_iter s).

Inductive NaturalBody :=
| NaturalError (error : jsstring)
| NaturalData (data : list StringRecord.t) (count : Z) (original : jsstring).

Record NaturalResponse := { natural_status : Z; natural_body : NaturalBody }.

Inductive ListingBody :=
| NoRecords (message : jsstring) (data : list StringRecord.t) (count : Z)
| ListingError (error : jsstring)
| Listing (data : list StringRecord.t) (count : Z) (filters : RawQuery.t)
          (parsed_filters : Parsed.t).

Record ListingResponse := { listing_status : Z; listing_body : ListingBody }.

Definition listing_error (strings : Store) (msg : jsstring)
  : Store * ListingResponse :=
  (strings, {| listing_status := 400; listing_body := ListingError msg |}).

Inductive DeleteBody :=
| DeleteError (error : jsstring)
| Deleted (message : jsstring) (remaining : Z).

Record DeleteResponse := { delete_status : Z; delete_body : DeleteBody }.

(** [/longer than (\d+)/] *)
Definition longer : regex :=
  RSeq (RStr (js "longer than ")) (RGroup 1 (RPlus CDigit)).

(** [/shorter than (\d+)/] *)
Definition shorter : regex :=
  RSeq (RStr (js "shorter than ")) (RGroup 1 (RPlus CDigit)).

(** [/contains (\w+)/] *)
Definition contains : regex :=
  RSeq (RStr (js "contains ")) (RGroup 1 (RPlus CWord)).

Section Handlers.
Context `{Host}.

(** [analyzeString(value)] *)
Definition analyzeString (now : jsstring) (value : jsstring) : Rec.t :=
  let length := Z.of_nat (List.length value) in
  let isPalindrome :=
    str_eqb (toLowerCase value)
            (join (rev (split_units (toLowerCase value)))) in
  let unqiue_characters :=
    Z.of_nat (size (list_to_set (string_iter value) : gset jsstring)) in
  let word_count :=
    Z.of_nat (List.length (List.filter Boolean_str (split_ws (trim value)))) in
  let sha256_hash := sha256_hex value in
  let character_map := count_chars value in
  {| Rec.id := sha256_hash;
     Rec.value := value;
     Rec.properties :=
       {| Props.length := length;
          Props.isPalindrome := isPalindrome;
          Props.unique_characters := unqiue_characters;
          Props.word_count := word_count;
          Props.sha256_hash := sha256_hash;
          Props.character_frequency_map := character_map |};
     Rec.created_at := now |}.

(** [app.post('/strings')]: the duplicate check comes first; a stored
    value is a string, so only a string can be found. *)
Definition post_strings (now : jsstring) (strings : list Rec.t)
    (v : BodyValue) : list Rec.t * PostResponse :=
  let existing :=
    match v with
    | VString s => find (fun item => str_eqb (Rec.value item) s) strings
    | _ => None
    end in
  if defined existing then
    (strings, {| post_status := 409;
                 post_body := PostError (js "string already exists") |})
  else
    match v with
    | VUndefined | VFalsy | VString [] =>
        (strings, {| post_status := 400;
                     post_body := PostError (js "string field is required") |})
    | VTruthy =>
        (strings, {| post_status := 422;
                     post_body := PostError (js "Invalid data type: "
                                             ++ quoted (js "value")
                                             ++ js " must be a string") |})
    | VString s =>
        let analyzed := analyzeString now s in
        (strings ++ [analyzed],
         {| post_status := 201; post_body := PostRecord analyzed |})
    end.

(** [app.get('/strings/filter-by-natural-language')]; [parseInt] is
    applied to a run of decimal digits only. *)
Definition get_filter_by_natural_language (strings : Store)
    (query : option jsstring) : Store * NaturalResponse :=
  match query with
  | None | Some [] =>
      (strings, {| natural_status := 400;
                   natural_body := NaturalError (js "Missing query parameter") |})
  | Some query =>
      let results := strings in
      let lower_query := toLowerCase query in
      let results :=
        if includes lower_query (js "palindrome") then
          List.filter (fun item => Properties.is_palindrome (properties item))
                      results
        else results in
      let longerMatch := str_match lower_query longer in
      let results :=
        match longerMatch with
        | Some m =>
            let min := Number_group 1 m in
            List.filter (fun item => Z.of_nat (length (value item)) >? min)
                        results
        | None => results
        end in
      let shorterMatch := str_match lower_query shorter in
      let results :=
        match shorterMatch with
        | Some m =>
            let max := Number_group 1 m in
            List.filter (fun item => Z.of_nat (length (value item)) <? max)
                        results
        | None => results
        end in
      let containsMatch := str_match lower_query contains in
      let results :=
        match containsMatch with
        | Some m =>
            let target := default [] (group 1 m) in
            List.filter (fun item => includes (value item) target) results
        | None => results
        end in
      (strings,
       {| natural_status := 200;
          natural_body := NaturalData results (Z.of_nat (length results))
                                      query |})
  end.

(** [app.get('/strings')] *)
Definition get_strings (strings : Store) (query : RawQuery.t)
  : Store * ListingResponse :=
  if (length strings =? 0)%nat then
    (strings,
     {| listing_status := 200;
        listing_body := NoRecords (js "no records yet") []
                                  (Z.of_nat (length strings)) |})
  else
  let results := strings in
  let isPalindrome := RawQuery.isPalindrome query in
  let min_length := RawQuery.min_length query in
  let max_length := RawQuery.max_length query in
  let word_count := RawQuery.word_count query in
  let contains_char := RawQuery.contains_char query in
  if match isPalindrome with
     | Some v => negb (str_eqb v (js "true") || str_eqb v (js "false"))
     | None => false
     end
  then listing_error strings
         (js "Invalid query parameter: is_palidrome must be true or false")
  else
  if match min_length with
     | Some v => negb (defined (Variant1.parseInt v))
     | None => false
     end
  then listing_error strings
         (js "Invalid query parameter: min_length must be a number")
  else
  if match max_length with
     | Some v => negb (defined (Variant1.parseInt v))
     | None => false
     end
  then listing_error strings
         (js "Invalid query parameter: max_length must be a number")
  else
  if match word_count with
     | Some v => negb (defined (Variant1.parseInt v))
     | None => false
     end
  then listing_error strings
         (js "Invalid query parameter: word_count must be a number")
  else
  let '(results, parsed_ip) :=
    match isPalindrome with
    | Some v =>
        let boolValue := str_eqb v (js "true") in
        (List.filter (fun item =>
                        Bool.eqb (Properties.is_palindrome (properties item))
                                 boolValue)
                     results,
         Some boolValue)
    | None => (results, None)
    end in
  let '(results, parsed_min) :=
    match min_length with
    | Some v =>
        let min := Variant1.parseInt v in
        (List.filter (fun item =>
                        Variant1.ge_number (Properties.length (properties item))
                                           min)
                     results,
         Some min)
    | None => (results, None)
    end in
  let '(results, parsed_max) :=
    match max_length with
    | Some v =>
        let max := Variant1.parseInt v in
        (List.filter (fun item =>
                        Variant1.le_number (Properties.length (properties item))
                                           max)
                     results,
         Some max)
    | None => (results, None)
    end in
  let '(results, parsed_wc) :=
    match word_count with
    | Some v =>
        let wc := Variant1.parseInt v in
        (List.filter (fun item =>
                        Variant1.eq_number
                          (Properties.word_count (properties item)) wc)
                     results,
         Some wc)
    | None => (results, None)
    end in
  let '(results, parsed_char) :=
    match contains_char with
    | Some v =>
        let char := toLowerCase v in
        (List.filter (fun item => includes (value item) char) results,
         Some char)
    | None => (results, None)
    end in
  (strings,
   {| listing_status := 200;
      listing_body :=
        Listing results (Z.of_nat (length results)) query
          {| Parsed.isPalindrome := parsed_ip;
             Parsed.min_length := parsed_min;
             Parsed.max_length := parsed_max;
             Parsed.word_count := parsed_wc;
             Parsed.contains_char := parsed_char |} |}).

(** [app.delete('/strings/:string_value')] *)
Definition delete_string (strings : Store) (string_value : jsstring)
  : Store * DeleteResponse :=
  let stringValue := toLowerCase string_value in
  match findIndex (fun item => str_eqb (toLowerCase (value item)) stringValue)
                  strings with
  | None =>
      (strings, {| delete_status := 404;
                   delete_body := DeleteError (js "String not found") |})
  | Some index =>
      let strings := splice1 index strings in
      (strings,
       {| delete_status := 200;
          delete_body :=
            Deleted (js "String '" ++ stringValue ++ js "' deleted successfully")
                    (Z.of_nat (length strings)) |})
  end.
End Handlers.
End Variant0.

(** ** The application: routes in registration order

    Express tries the routes in the order of the [app.METHOD(path, ...)]
    calls and runs the handler of the first one whose method and path
    match; no handler of the service passes the request on.  A path is
    given by its segments (split at the slashes, decoded, the optional
    trailing slash dropped).  A literal segment matches up to ASCII case
    (routing is not case sensitive by default), a parameter matches any
    non-empty segment.  [HEAD] and [OPTIONS], which Express answers on its
    own, are not modelled. *)

Inductive Method :=
| GET
| POST
| DELETE.

Inductive Seg :=
| Lit (name : jsstring)
| Param.

Inductive Handler :=
| HPost
| HGetOne
| HList
| HNatural
| HDelete
| HHealth.

Definition Route : Type := Method * list Seg * Handler.

Definition method_eqb (a b : Method) : bool :=
  match a, b with
  | GET, GET | POST, POST | DELETE, DELETE => true
  | _, _ => false
  end.

(** The values of the parameters when the path matches the pattern. *)
Fixpoint path_match (pattern : list Seg) (path : list jsstring)
  : option (list jsstring) :=
  match pattern, path with
  | [], [] => Some []
  | Lit name :: pattern', seg :: path' =>
      if str_eqb (map lower_unit seg) (map lower_unit name)
      then path_match pattern' path' else None
  | Param :: pattern', seg :: path' =>
      match seg with
      | [] => None
      | _ => cons seg <$> path_match pattern' path'
      end
  | _, _ => None
  end.

(** The first route that matches, with the values of its parameters. *)
Fixpoint resolve (routes : list Route) (m : Method) (path : list jsstring)
  : option (Handler * list jsstring) :=
  match routes with
  | [] => None
  | (m', pattern, h) :: routes' =>
      if method_eqb m' m then
        match path_match pattern path with
        | Some params => Some (h, params)
        | None => resolve routes' m path
        end
      else resolve routes' m path
  end.

(** The routes of server.js. *)
Definition routes : list Route :=
  [ (POST, [Lit (js "strings")], HPost);
    (GET, [Lit (js "strings"); Param], HGetOne);
    (GET, [Lit (js "strings")], HList);
    (GET, [Lit (js "strings"); Lit (js "filter-by-natural-language")], HNatural);
    (DELETE, [Lit (js "strings"); Param], HDelete);
    (GET, [], HHealth) ].

(** The routes of the two earlier variants (first and second unnamed source
    file); they have no health route. *)
Definition routes_variant0 : list Route :=
  [ (GET, [Lit (js "strings")], HList);
    (GET, [Lit (js "strings"); Lit (js "filter-by-natural-language")], HNatural);
    (GET, [Lit (js "strings"); Param], HGetOne);
    (POST, [Lit (js "strings")], HPost);
    (DELETE, [Lit (js "strings"); Param], HDelete) ].

Definition routes_variant1 : list Route :=
  [ (POST, [Lit (js "strings")], HPost);
    (GET, [Lit (js "strings"); Param], HGetOne);
    (GET, [Lit (js "strings")], HList);
    (GET, [Lit (js "strings"); Lit (js "filter-by-natural-language")], HNatural);
    (DELETE, [Lit (js "strings"); Param], HDelete) ].

(** What a handler reads of a request: [req.query] (the filter parameters
    and [query]), [req.body.value], and the clock. *)
Record Request := {
  req_method : Method;
  req_path : list jsstring;
  req_params : Query.t;
  req_query : option jsstring;
  req_value : JsonValue;
  req_now : jsstring
}.

(** What the client gets: the answer of a handler, the health answer
    [{status: 'ok'}], or the 404 of Express when no route matches. *)
Inductive Outcome :=
| Answered (r : Response)
| HealthOk
| NoRoute.

Section Application.
Context `{Host}.

Definition answered (result : Store * Response) : Store * Outcome :=
  (result.1, Answered result.2).

(** The application [app] of server.js on one request. *)
Definition application (strings : Store) (req : Request) : Store * Outcome :=
  match resolve routes (req_method req) (req_path req) with
  | Some (HPost, _) =>
      answered (post_strings (req_now req) strings (req_value req))
  | Some (HGetOne, params) =>
      answered (get_string strings (default [] (head params)))
  | Some (HList, _) => answered (get_strings strings (req_params req))
  | Some (HNatural, _) =>
      answered (get_filter_by_natural_language strings (req_query req))
  | Some (HDelete, params) =>
      answered (delete_string strings (default [] (head params)))
  | Some (HHealth, _) => (strings, HealthOk)
  | None => (strings, NoRoute)
  end.

(** The store after a sequence of requests. *)
Definition run (strings : Store) (reqs : list Request) : Store :=
  foldl (fun s req => (application s req).1) strings reqs.
End Application.

(** ** A host to run the handlers on ASCII input

    Lower-casing is the ASCII mapping on every code unit, which is what the
    runtime does on ASCII-only strings.  The digest is left symbolic (the
    hashed text itself): no handler inspects it. *)
#[global] Instance ascii_host : Host :=
  {| toLowerCase := map lower_unit;
     toLowerCase_ascii := fun s _ => eq_refl;
     sha256_hex := fun s => s |}.

(** * Notions of the specification

    What the properties below are stated with: the spec's notions, the
    responses they name, and the inputs of the concrete runs. *)

Definition stored (v : jsstring) (strings : Store) : Prop :=
  exists r, r ∈ strings /\ value r = v.

Definition duplicate_response : Response :=
  {| status := 409;
     body := ErrorBody (js "String already exists in the system") |}.

(** [strings'] is [strings] without the first record that [matches]; the
    records before and after it stay as they are, in order. *)
Definition removes_first_match (matches : StringRecord.t -> bool)
    (strings strings' : Store) : Prop :=
  exists before r after,
    strings = before ++ r :: after /\ strings' = before ++ after
    /\ matches r = true /\ Forall (fun x => matches x = false) before.

(** A record satisfies a predicate set when it passes every field that is
    present (the conjunctive reading of the specification). *)
Definition satisfies `{Host} (f : Filters.t) (item : StringRecord.t) : bool :=
  match Filters.is_palindrome f with
  | Some b => Bool.eqb (Properties.is_palindrome (properties item)) b
  | None => true
  end
  && match Filters.min_length f with
     | Some n => Properties.length (properties item) >=? n
     | None => true
     end
  && match Filters.max_length f with
     | Some n => Properties.length (properties item) <=? n
     | None => true
     end
  && match Filters.word_count f with
     | Some n => Properties.word_count (properties item) =? n
     | None => true
     end
  && match Filters.contains_character f with
     | Some ch => includes (toLowerCase (value item)) ch
     | None => true
     end.

(** The whitespace-delimited tokens of a string: its maximal runs of code
    units that are not white space, in order.  [cur] is the run being read,
    reversed. *)
Fixpoint words_from (cur : jsstring) (s : jsstring) : list jsstring :=
  match s with
  | [] => match cur with [] => [] | _ => [rev cur] end
  | c :: rest =>
      if isWhiteSpace c then
        match cur with
        | [] => words_from [] rest
        | _ => rev cur :: words_from [] rest
        end
      else words_from (c :: cur) rest
  end.

Definition words (s : jsstring) : list jsstring := words_from [] s.

Definition no_whitespace (t : jsstring) : Prop :=
  Forall (fun c => isWhiteSpace c = false) t.

Definition all_whitespace (t : jsstring) : Prop :=
  Forall (fun c => isWhiteSpace c = true) t.

(** The number of (high surrogate, low surrogate) pairs the string iterator
    joins into one element. *)
Fixpoint surrogate_pairs (s : jsstring) : nat :=
  match s with
  | [] => 0
  | c :: rest =>
      match rest with
      | d :: rest' =>
          if isHighSurrogate c && isLowSurrogate d
          then S (surrogate_pairs rest')
          else surrogate_pairs rest
      | [] => 0
      end
  end.

(** The sum of the counts of a frequency map. *)
Definition sum_counts (m : gmap jsstring Z) : Z :=
  map_fold (fun _ v acc => v + acc) 0 m.

(** How many elements of [l] are the string [k]. *)
Definition occurrences (k : jsstring) (l : list jsstring) : nat :=
  length (List.filter (str_eqb k) l).

(** What the claim of code-unit counting asks of the properties [p] of a
    string [s]: distinct code units, single-unit keys, counts that add up to
    [length]. *)
Definition counts_code_units (p : Properties.t) (s : jsstring) : Prop :=
  unique_characters p = Z.of_nat (length (remove_dups s))
  /\ (forall k, is_Some (character_frequency_map p !! k) -> length k = 1%nat)
  /\ sum_counts (character_frequency_map p) = Properties.length p.

Definition starts_with_digit (s : jsstring) : bool :=
  match s with c :: _ => isDigit c | [] => false end.

(** The sign strings of [parseInt] and their values. *)
Definition sign_value (sign : jsstring) : Z :=
  if str_eqb sign [45%N] then -1 else 1.

(** The strings [parseInt(v, 10)] reads as an integer: white space, an
    optional sign, a non-empty run of decimal digits, then anything that
    does not start with a digit. *)
Inductive integer_like : jsstring -> Z -> Prop :=
| integer_like_intro (ws sign ds rest : jsstring) :
    all_whitespace ws ->
    sign = [] \/ sign = [43%N] \/ sign = [45%N] ->
    ds <> [] -> Forall (fun c => isDigit c = true) ds ->
    starts_with_digit rest = false ->
    integer_like (ws ++ sign ++ ds ++ rest) (sign_value sign * digits_value ds).

(** A numeric parameter that is provided and does not read as an integer. *)
Definition malformed (param : option jsstring) : bool :=
  match param with
  | Some v => negb (defined (parseInt10 v))
  | None => false
  end.

Definition not_found_response : Response :=
  {| status := 404;
     body := ErrorBody (js "String does not exist in the system") |}.

(** The five recognizers of the translator, on the lower-cased phrase. *)
Definition rec_palindrome (s : jsstring) : bool := test Re.palindrome s.

Definition rec_word_count (s : jsstring) : bool :=
  test Re.single_word s || test Re.word_count_is_1 s
  || defined (str_match s Re.n_words).

Definition rec_longer (s : jsstring) : bool := defined (str_match s Re.longer).

Definition rec_shorter (s : jsstring) : bool := defined (str_match s Re.shorter).

Definition rec_letter (s : jsstring) : bool := defined (str_match s Re.letter).

Definition any_recognizer (s : jsstring) : bool :=
  rec_palindrome s || rec_word_count s || rec_longer s || rec_shorter s
  || rec_letter s.

Definition conflict_phrase : jsstring := js "longer than 10 and shorter than 5".

Definition conflict_filters : Filters.t :=
  {| Filters.is_palindrome := None;
     Filters.min_length := Some 11;
     Filters.max_length := Some 4;
     Filters.word_count := None;
     Filters.contains_character := None |}.

(** What it takes for [r] to match the text [w] that stands between the
    (reversed) text [prev] and the text [rest]: the reading of the
    expression as a set of texts in a context, without the order in which
    the matcher tries them. *)
Fixpoint matches (r : regex) (prev w rest : jsstring) : Prop :=
  match r with
  | RStr s => w = s
  | RCls k => exists c, w = [c] /\ cls_match k c = true
  | RStar k => Forall (fun c => cls_match k c = true) w
  | RPlus k => w <> [] /\ Forall (fun c => cls_match k c = true) w
  | ROpt r' => w = [] \/ matches r' prev w rest
  | RSeq r1 r2 =>
      exists w1 w2,
        w = w1 ++ w2 /\ matches r1 prev w1 (w2 ++ rest)
        /\ matches r2 (rev w1 ++ prev) w2 rest
  | RAlt r1 r2 => matches r1 prev w rest \/ matches r2 prev w rest
  | RGroup _ r' => matches r' prev w rest
  | RWordB => w = [] /\ word_boundary prev rest = true
  end.

(** A continuation whose success does not depend on the captures. *)
Definition caps_blind (k : Cont) : Prop :=
  forall prev rest c1 c2, is_Some (k prev rest c1) -> is_Some (k prev rest c2).

(** [pre] is empty or ends in a code unit that is not a word character, so
    that a word starting right after it starts at a word boundary. *)
Definition word_start (pre : jsstring) : bool :=
  match last pre with
  | Some c => negb (isWordChar c)
  | None => true
  end.

(** [post] is empty or starts with a code unit that is not a word
    character, so that a word ending right before it ends at a word
    boundary. *)
Definition word_end (post : jsstring) : bool :=
  match post with c :: _ => negb (isWordChar c) | [] => true end.

(** The recognizers as they read in the lower-cased phrase [s].

    Palindrome mention: "palindrom" at a word start. *)
Definition mentions_palindrome (s : jsstring) : Prop :=
  exists pre post, s = pre ++ js "palindrom" ++ post /\ word_start pre = true.

(** Word-count mention, first form: the whole word "single" or "one" and,
    further on the same line, the whole word "word". *)
Definition mentions_single_word (s : jsstring) : Prop :=
  exists pre kw mid post,
    (kw = js "single" \/ kw = js "one")
    /\ s = pre ++ kw ++ mid ++ js "word" ++ post
    /\ word_start pre = true
    /\ mid <> [] /\ word_end mid = true /\ word_start mid = true
    /\ Forall (fun c => isLineTerminator c = false) mid
    /\ word_end post = true.

(** Word-count mention, second form: "word count is 1" as whole words. *)
Definition mentions_word_count_is_1 (s : jsstring) : Prop :=
  exists pre post,
    s = pre ++ js "word count is 1" ++ post
    /\ word_start pre = true /\ word_end post = true.

(** Word-count mention, third form: a whole number, white space, then
    "word" or "words" ending at a word boundary. *)
Definition mentions_n_words (s : jsstring) : Prop :=
  exists pre ds ws post,
    s = pre ++ ds ++ ws ++ js "word" ++ post
    /\ word_start pre = true
    /\ ds <> [] /\ Forall (fun c => isDigit c = true) ds
    /\ ws <> [] /\ Forall (fun c => isWhiteSpace c = true) ws
    /\ (word_end post = true
        \/ exists post', post = js "s" ++ post' /\ word_end post' = true).

(** "longer than " at a word start, followed by a digit. *)
Definition mentions_longer (s : jsstring) : Prop :=
  exists pre d post,
    s = pre ++ js "longer than " ++ d :: post
    /\ word_start pre = true /\ isDigit d = true.

(** "shorter than " or "less than " at a word start, followed by a
    digit. *)
Definition mentions_shorter (s : jsstring) : Prop :=
  exists pre kw d post,
    (kw = js "shorter than " \/ kw = js "less than ")
    /\ s = pre ++ kw ++ d :: post
    /\ word_start pre = true /\ isDigit d = true.

(** "contain", "contains" or "containing" at a word start, optionally
    " the", optionally " letter", white space, then one letter that stands
    alone as a word. *)
Definition mentions_letter (s : jsstring) : Prop :=
  exists pre a b c ws x post,
    (a = [] \/ a = js "ing" \/ a = js "s")
    /\ (b = [] \/ b = js " the") /\ (c = [] \/ c = js " letter")
    /\ s = pre ++ js "contain" ++ a ++ b ++ c ++ ws ++ x :: post
    /\ word_start pre = true
    /\ ws <> [] /\ Forall (fun c => isWhiteSpace c = true) ws
    /\ isLetter x = true /\ word_end post = true.

(** Word-count mention, in any of its three forms. *)
Definition mentions_word_count (s : jsstring) : Prop :=
  mentions_single_word s \/ mentions_word_count_is_1 s \/ mentions_n_words s.

(** One of the five recognizers fires. *)
Definition any_mention (s : jsstring) : Prop :=
  mentions_palindrome s \/ mentions_word_count s \/ mentions_longer s
  \/ mentions_shorter s \/ mentions_letter s.

(** The palindrome recognizer as the specification words it: the
    substring "palindrom" anywhere in the lower-cased phrase. *)
Definition has_substring_palindrom (s : jsstring) : bool :=
  includes s (js "palindrom").

(** The lower-cased phrase [s] has one of the keywords [kws] at a word
    start right after [pre], followed by the digit run [ds] (which [post]
    does not continue), and no keyword followed by a digit starts at a word
    start further left. *)
Definition first_numbered (kws : list jsstring) (s pre ds post : jsstring)
  : Prop :=
  (exists kw, kw ∈ kws /\ s = pre ++ kw ++ ds ++ post)
  /\ word_start pre = true
  /\ ds <> [] /\ Forall (fun c => isDigit c = true) ds
  /\ starts_with_digit post = false
  /\ (forall kw' pre' d post',
        kw' ∈ kws -> s = pre' ++ kw' ++ d :: post' ->
        word_start pre' = true -> isDigit d = true ->
        (length pre <= length pre')%nat).

(** What a match of a numbered-keyword expression at a position needs: a
    word boundary, a keyword, a digit. *)
Definition numbered_here (kws : list jsstring) (prev rest : jsstring) : Prop :=
  word_boundary prev rest = true
  /\ exists kw d rest', kw ∈ kws /\ rest = kw ++ d :: rest' /\ isDigit d = true.

(** A numbered-keyword expression: every match of [r] needs a numbered
    keyword at the position, and at a numbered keyword [r] matches and
    captures the whole digit run in group [g]. *)
Record numbered_regex (kws : list jsstring) (g : nat) (r : regex) : Prop := {
  numbered_word : forall kw, kw ∈ kws ->
    match kw with c :: _ => isWordChar c = true | [] => False end;
  numbered_sound : forall k prev rest caps m,
    rmatch r k prev rest caps = Some m -> numbered_here kws prev rest;
  numbered_complete : forall kw prev ds post,
    kw ∈ kws -> word_boundary prev (kw ++ ds ++ post) = true ->
    ds <> [] -> Forall (fun c => isDigit c = true) ds ->
    starts_with_digit post = false ->
    exists m, rmatch r (accept prev) prev (kw ++ ds ++ post) [] = Some m
              /\ group g m = Some ds
}.


(** The store after one insertion request for "Level" into the empty
    store. *)
Definition store_Level : Store :=
  (post_strings (js "t0") [] (JString (js "Level"))).1.

(** A store that already holds "level". *)
Definition store_level : Store :=
  (post_strings (js "t0") [] (JString (js "level"))).1.

(** The one-element string made of the surrogate pair of U+1F600. *)
Definition grinning_face : jsstring := [55357%N; 56832%N].

(** A store of three records, to delete the middle one from. *)
Definition store_abc : Store :=
  [analyzeString [] (js "a"); analyzeString [] (js "b"); analyzeString [] (js "c")].

(** The invariant of the store: the values are pairwise distinct, and every
    record is the analysis of its value at its creation time. *)
Definition well_formed `{Host} (strings : Store) : Prop :=
  NoDup (value <$> strings)
  /\ Forall (fun r => r = analyzeString (created_at r) (value r)) strings.

(** A query the structured handler accepts: [is_palindrome] is absent or
    one of the two literals, each numeric parameter is absent or
    integer-like, [contains_character] is absent or one code unit long. *)
Definition valid_query (q : Query.t) : Prop :=
  (Query.is_palindrome q = None \/ Query.is_palindrome q = Some (js "true")
   \/ Query.is_palindrome q = Some (js "false"))
  /\ (forall v, Query.min_length q = Some v -> exists n, integer_like v n)
  /\ (forall v, Query.max_length q = Some v -> exists n, integer_like v n)
  /\ (forall v, Query.word_count q = Some v -> exists n, integer_like v n)
  /\ (forall c, Query.contains_character q = Some c -> length c = 1%nat).

(** A numeric parameter and the field it sets: the integer the parameter
    reads as, or no field when the parameter is absent. *)
Definition numeric_field (param : option jsstring) (field : option Z) : Prop :=
  match param with
  | Some v => exists n, integer_like v n /\ field = Some n
  | None => field = None
  end.

(** The predicate set [f] is what the query [q] asks for: only the provided
    parameters, each converted to its type. *)
Definition asks `{Host} (q : Query.t) (f : Filters.t) : Prop :=
  match Query.is_palindrome q with
  | Some v => (v = js "true" /\ Filters.is_palindrome f = Some true)
              \/ (v = js "false" /\ Filters.is_palindrome f = Some false)
  | None => Filters.is_palindrome f = None
  end
  /\ numeric_field (Query.min_length q) (Filters.min_length f)
  /\ numeric_field (Query.max_length q) (Filters.max_length f)
  /\ numeric_field (Query.word_count q) (Filters.word_count f)
  /\ Filters.contains_character f = toLowerCase <$> Query.contains_character q.

(** The numeric parameters of [q] are below 2^53 in magnitude, where the
    source's numbers are exact. *)
Definition exact_numbers (q : Query.t) : Prop :=
  forall v n,
    Query.min_length q = Some v \/ Query.max_length q = Some v
    \/ Query.word_count q = Some v ->
    integer_like v n -> Z.abs n < 2 ^ 53.

(** The query [q] with its [contains_character] parameter set to [c]. *)
Definition with_contains_character (q : Query.t) (c : jsstring) : Query.t :=
  {| Query.is_palindrome := Query.is_palindrome q;
     Query.min_length := Query.min_length q;
     Query.max_length := Query.max_length q;
     Query.word_count := Query.word_count q;
     Query.contains_character := Some c |}.

(** The capturing groups of a regular expression. *)
Fixpoint groups_of (r : regex) : list nat :=
  match r with
  | RStr _ | RCls _ | RStar _ | RPlus _ | RWordB => []
  | ROpt r' => groups_of r'
  | RSeq r1 r2 | RAlt r1 r2 => groups_of r1 ++ groups_of r2
  | RGroup n r' => n :: groups_of r'
  end.

(** A lower-case ASCII letter. *)
Definition isLowerLetter (c : N) : bool := in_range 97 122 c.

(** The value starts, after white space and an optional sign, with [0x] or
    [0X]: what makes [parseInt] without a radix read hexadecimal digits. *)
Definition hex_prefixed (v : jsstring) : bool :=
  defined (Variant1.strip_hex_prefix (Variant1.unsigned_part v)).

(** A query on which the two listing handlers can be compared: the
    parameters the variant tests for truthiness are not empty strings, and
    the numeric ones have no hexadecimal prefix. *)
Definition plain_query (q : Query.t) : Prop :=
  (forall v, Query.is_palindrome q = Some v -> v <> [])
  /\ (forall v, Query.min_length q = Some v -> v <> [] /\ hex_prefixed v = false)
  /\ (forall v, Query.max_length q = Some v -> v <> [] /\ hex_prefixed v = false)
  /\ (forall v, Query.word_count q = Some v -> v <> [] /\ hex_prefixed v = false).

(** The filters of server.js in the shape of the variant's. *)
Definition lift_filters (f : Filters.t) : Variant1.AppliedFilters :=
  {| Variant1.applied_is_palindrome := Filters.is_palindrome f;
     Variant1.applied_min_length := Some <$> Filters.min_length f;
     Variant1.applied_max_length := Some <$> Filters.max_length f;
     Variant1.applied_word_count := Some <$> Filters.word_count f;
     Variant1.applied_contains_character := Filters.contains_character f |}.

(** A query on which the listing handler of the first variant can be
    compared with server.js: no numeric parameter has a hexadecimal prefix,
    and [contains_character], when given, is one ASCII code unit. *)
Definition decimal_query (q : Query.t) : Prop :=
  (forall v, Query.min_length q = Some v -> hex_prefixed v = false)
  /\ (forall v, Query.max_length q = Some v -> hex_prefixed v = false)
  /\ (forall v, Query.word_count q = Some v -> hex_prefixed v = false)
  /\ (forall v, Query.contains_character q = Some v ->
                length v = 1%nat /\ forallb isAscii v = true).

(** The record of server.js with the content of a record of the first
    variant: [isPalindrome] under the key [is_palindrome] and
    [unique-characters] under [unique_characters]. *)
Definition as_current (r : Variant0.Rec.t) : StringRecord.t :=
  let p := Variant0.Rec.properties r in
  {| StringRecord.id := Variant0.Rec.id r;
     value := Variant0.Rec.value r;
     properties :=
       {| Properties.length := Variant0.Props.length p;
          is_palindrome := Variant0.Props.isPalindrome p;
          unique_characters := Variant0.Props.unique_characters p;
          word_count := Variant0.Props.word_count p;
          sha256_hash := Variant0.Props.sha256_hash p;
          character_frequency_map := Variant0.Props.character_frequency_map p |};
     created_at := Variant0.Rec.created_at r |}.

(** The query of server.js with the parameters of a query of the first
    variant: [isPalindrome] given as [is_palindrome] and [contains_char] as
    [contains_character]. *)
Definition as_current_query (q : Variant0.RawQuery.t) : Query.t :=
  {| Query.is_palindrome := Variant0.RawQuery.isPalindrome q;
     Query.min_length := Variant0.RawQuery.min_length q;
     Query.max_length := Variant0.RawQuery.max_length q;
     Query.word_count := Variant0.RawQuery.word_count q;
     Query.contains_character := Variant0.RawQuery.contains_char q |}.

(** The filters of server.js under the names of the first variant. *)
Definition as_parsed (f : Filters.t) : Variant0.Parsed.t :=
  {| Variant0.Parsed.isPalindrome := Filters.is_palindrome f;
     Variant0.Parsed.min_length := Some <$> Filters.min_length f;
     Variant0.Parsed.max_length := Some <$> Filters.max_length f;
     Variant0.Parsed.word_count := Some <$> Filters.word_count f;
     Variant0.Parsed.contains_char := Filters.contains_character f |}.

(** The query of the first variant with the parameters of [query_mixed]. *)
Definition query_mixed0 : Variant0.RawQuery.t :=
  {| Variant0.RawQuery.isPalindrome := Some (js "true");
     Variant0.RawQuery.min_length := Some (js "3");
     Variant0.RawQuery.max_length := None;
     Variant0.RawQuery.word_count := Some (js " +1 word");
     Variant0.RawQuery.contains_char := Some (js "V") |}.

(** Every stored value is an ASCII string. *)
Definition ascii_store (strings : Store) : Prop :=
  Forall (fun r => forallb isAscii (value r) = true) strings.

(** A request for the natural-language endpoint. *)
Definition natural_request : Request :=
  {| req_method := GET;
     req_path := [js "strings"; js "filter-by-natural-language"];
     req_params := Query.empty;
     req_query := Some (js "all single word palindromic strings");
     req_value := JUndefined;
     req_now := js "t1" |}.

(** A query with every kind of parameter, all of them valid for both
    listing handlers. *)
Definition query_mixed : Query.t :=
  {| Query.is_palindrome := Some (js "true");
     Query.min_length := Some (js "3");
     Query.max_length := None;
     Query.word_count := Some (js " +1 word");
     Query.contains_character := Some (js "V") |}.

(** The store and the query of the filtering scenario: "level" and "cat",
    asked for the palindromes of length 3 to 10. *)
Definition store_level_cat : Store :=
  [analyzeString [] (js "level"); analyzeString [] (js "cat")].

Definition query_scenario : Query.t :=
  {| Query.is_palindrome := Some (js "true");
     Query.min_length := Some (js "3");
     Query.max_length := Some (js "10");
     Query.word_count := None;
     Query.contains_character := None |}.

Definition filters_scenario : Filters.t :=
  {| Filters.is_palindrome := Some true;
     Filters.min_length := Some 3;
     Filters.max_length := Some 10;
     Filters.word_count := None;
     Filters.contains_character := None |}.

(** A query whose bounds contradict each other. *)
Definition query_conflict : Query.t :=
  {| Query.is_palindrome := None;
     Query.min_length := Some (js "11");
     Query.max_length := Some (js "4");
     Query.word_count := None;
     Query.contains_character := None |}.

(** A query whose [min_length] is the empty string. *)
Definition query_empty_min : Query.t :=
  {| Query.is_palindrome := None;
     Query.min_length := Some [];
     Query.max_length := None;
     Query.word_count := None;
     Query.contains_character := None |}.

(** * Properties *)

(** ** Arrays *)

Lemma find_exists {A} (p : A -> bool) (a : list A) :
  defined (find p a) = true <-> exists x, x ∈ a /\ p x = true.
Proof.
  induction a as [|y a IH]; simpl.
  - split; [discriminate | intros (x & Hx & _); inversion Hx].
  - destruct (p y) eqn:Hy; simpl.
    + split; [intros _; exists y; split; [left | done] | done].
    + rewrite IH. split; intros (x & Hx & Hp).
      * exists x. split; [by right | done].
      * apply elem_of_cons in Hx as [-> | Hx]; [congruence | eauto].
Qed.

(** What [findIndex] followed by [splice] does: the array splits around the
    first element that satisfies the callback. *)
Lemma findIndex_Some {A} (p : A -> bool) (a : list A) (i : nat) :
  findIndex p a = Some i ->
  exists before x after,
    a = before ++ x :: after /\ length before = i /\ p x = true
    /\ Forall (fun y => p y = false) before
    /\ splice1 i a = before ++ after.
Proof.
  revert i. induction a as [|y a IH]; intros i; simpl; [discriminate |].
  destruct (p y) eqn:Hy.
  - intros [= <-]. exists [], y, a. repeat split; auto.
  - destruct (findIndex p a) as [j|] eqn:Hj; simpl; [|discriminate].
    intros [= <-].
    destruct (IH j eq_refl) as (before & x & after & -> & Hlen & Hx & Hb & Hs).
    exists (y :: before), x, after. repeat split; simpl; auto.
    unfold splice1 in *. simpl. f_equal. exact Hs.
Qed.

Lemma findIndex_None {A} (p : A -> bool) (a : list A) :
  findIndex p a = None <-> Forall (fun x => p x = false) a.
Proof.
  induction a as [|y a IH]; simpl.
  - split; [constructor | done].
  - destruct (p y) eqn:Hy.
    + split; [discriminate | intros Hall; inversion Hall; congruence].
    + destruct (findIndex p a); simpl.
      * split; [discriminate |].
        intros Hall. inversion Hall; subst.
        assert (Some n = None) by (by apply IH). discriminate.
      * split; [intros _; constructor; [done | by apply IH] | done].
Qed.

Lemma findIndex_exists {A} (p : A -> bool) (a : list A) :
  (exists x, x ∈ a /\ p x = true) -> exists i, findIndex p a = Some i.
Proof.
  intros (x & Hx & Hp).
  destruct (findIndex p a) as [i|] eqn:Hi; [eauto |].
  apply findIndex_None in Hi. rewrite Forall_forall in Hi.
  specialize (Hi x Hx). congruence.
Qed.

Lemma filter_sublist_of {A} (p : A -> bool) (a : list A) :
  List.filter p a `sublist_of` a.
Proof.
  induction a as [|x a IH]; simpl; [constructor |].
  destruct (p x); by constructor.
Qed.

Lemma filter_filter_andb {A} (p q : A -> bool) (a : list A) :
  List.filter q (List.filter p a) = List.filter (fun x => p x && q x) a.
Proof.
  induction a as [|x a IH]; simpl; [done |].
  destruct (p x); simpl; [destruct (q x) |]; by rewrite ?IH.
Qed.

Lemma filter_true {A} (a : list A) : List.filter (fun _ => true) a = a.
Proof. induction a as [|x a IH]; simpl; by rewrite ?IH. Qed.

Lemma filter_ext_eq {A} (p q : A -> bool) (a : list A) :
  (forall x, p x = q x) -> List.filter p a = List.filter q a.
Proof.
  intros Hpq. induction a as [|x a IH]; simpl; [done |].
  by rewrite Hpq, IH.
Qed.

Lemma str_eqb_eq (a b : jsstring) : str_eqb a b = true <-> a = b.
Proof. unfold str_eqb. apply bool_decide_eq_true. Qed.

Lemma str_eqb_neq (a b : jsstring) : str_eqb a b = false <-> a <> b.
Proof. unfold str_eqb. apply bool_decide_eq_false. Qed.

(** ** Insertion *)

Section Insertion.
Context `{Host}.

Lemma findByValue_stored (strings : Store) (v : jsstring) :
  defined (findByValue strings v) = true <-> stored v strings.
Proof.
  unfold findByValue, stored. rewrite find_exists.
  split; intros (r & Hr & Hv); exists r; split; auto;
    by apply str_eqb_eq.
Qed.

Lemma post_stored (now : jsstring) (strings : Store) (v : jsstring) :
  stored v strings ->
  post_strings now strings (JString v) = (strings, duplicate_response).
Proof.
  intros Hs. apply findByValue_stored in Hs.
  unfold post_strings. by rewrite Hs.
Qed.

Lemma post_fresh (now : jsstring) (strings : Store) (v : jsstring) :
  ~ stored v strings ->
  post_strings now strings (JString v)
  = (strings ++ [analyzeString now v],
     {| status := 201; body := RecordBody (analyzeString now v) |}).
Proof.
  intros Hs. unfold post_strings.
  destruct (defined (findByValue strings v)) eqn:Hf; [|done].
  apply findByValue_stored in Hf. contradiction.
Qed.

Lemma stored_dec (v : jsstring) (strings : Store) :
  stored v strings \/ ~ stored v strings.
Proof.
  destruct (defined (findByValue strings v)) eqn:Hf.
  - left. by apply findByValue_stored.
  - right. intros Hs. apply findByValue_stored in Hs. congruence.
Qed.

Lemma stored_after_post (now : jsstring) (strings : Store) (v : jsstring) :
  stored v (post_strings now strings (JString v)).1.
Proof.
  destruct (stored_dec v strings) as [Hs | Hs].
  - by rewrite post_stored.
  - rewrite post_fresh by done. simpl.
    exists (analyzeString now v). split; [|done].
    apply elem_of_app. right. by left.
Qed.

(** C9: an insertion request for a value that is already stored
    (compared case-sensitively) is answered with the duplicate error and
    leaves the store exactly as it was; in particular the second of two
    insertion requests for one value is rejected in this way. *)
Theorem insert_duplicate_rejected
    (now now' : jsstring) (strings : Store) (v : jsstring) :
  (stored v strings ->
   post_strings now strings (JString v) = (strings, duplicate_response))
  /\ (let strings1 := (post_strings now strings (JString v)).1 in
      post_strings now' strings1 (JString v) = (strings1, duplicate_response)).
Proof.
  split; [apply post_stored |].
  intros strings1. apply post_stored, stored_after_post.
Qed.
End Insertion.

(** ** Deletion *)

Lemma findIndex_splice_removes (matches : StringRecord.t -> bool)
    (strings : Store) (i : nat) :
  findIndex matches strings = Some i ->
  removes_first_match matches strings (splice1 i strings)
  /\ length strings = S (length (splice1 i strings)).
Proof.
  intros Hi.
  destruct (findIndex_Some _ _ _ Hi) as (before & x & after & Hs & _ & Hx & Hb & Hd).
  split.
  - exists before, x, after. by rewrite Hd.
  - rewrite Hd, Hs, !length_app. simpl. lia.
Qed.

Section Deletion.
Context `{Host}.

(** C10: a deletion answered with 204 has removed exactly one record,
    the first one in insertion order whose value matches the request
    (exactly in server.js, up to case in the earlier variant); the records
    before and after it are unchanged and keep their order, and the store
    has one record less. *)
Theorem delete_removes_first_match (strings : Store) (v : jsstring) :
  (status (delete_string strings v).2 = 204 ->
   removes_first_match (fun r => str_eqb (value r) v)
                       strings (delete_string strings v).1
   /\ length strings = S (length (delete_string strings v).1))
  /\ (status (Variant1.delete_string strings v).2 = 204 ->
      removes_first_match
        (fun r => str_eqb (toLowerCase (value r)) (toLowerCase v))
        strings (Variant1.delete_string strings v).1
      /\ length strings = S (length (Variant1.delete_string strings v).1)).
Proof.
  split.
  - unfold delete_string.
    destruct (findIndex _ strings) as [i|] eqn:Hi; simpl; [|discriminate].
    intros _. by apply findIndex_splice_removes.
  - unfold Variant1.delete_string.
    destruct (findIndex _ strings) as [i|] eqn:Hi; simpl; [|discriminate].
    intros _. by apply findIndex_splice_removes.
Qed.

(** Deletion succeeds exactly when some stored value equals the request. *)
Lemma delete_status (strings : Store) (v : jsstring) :
  (stored v strings -> status (delete_string strings v).2 = 204)
  /\ (~ stored v strings ->
      delete_string strings v
      = (strings, {| status := 404;
                     body := ErrorBody (js "String does not exist in the system") |})).
Proof.
  unfold delete_string. split.
  - intros (r & Hr & Hv).
    destruct (findIndex_exists (fun item => str_eqb (value item) v) strings)
      as [i ->]; [|done].
    exists r. split; [done | by apply str_eqb_eq].
  - intros Hs.
    destruct (findIndex _ strings) as [i|] eqn:Hi; [|done].
    destruct (findIndex_Some _ _ _ Hi) as (before & x & after & -> & _ & Hx & _).
    exfalso. apply Hs. exists x. split; [|by apply str_eqb_eq].
    apply elem_of_app. right. by left.
Qed.
End Deletion.

(** ** The filter engine *)

Section Filtering.
Context `{Host}.

Lemma apply_filters_conjunctive (strings : Store)
    (ip : option jsstring) (minLen maxLen wc : IntOrNull) (cc : option jsstring) :
  (apply_filters strings ip minLen maxLen wc cc).1
  = List.filter (satisfies (apply_filters strings ip minLen maxLen wc cc).2) strings.
Proof.
  unfold apply_filters.
  destruct ip, minLen, maxLen, wc, cc; simpl;
    rewrite ?filter_filter_andb;
    try lazymatch goal with
        | |- strings = _ => rewrite <- (filter_true strings) at 1
        end;
    apply filter_ext_eq; intros x; unfold satisfies; simpl; btauto.
Qed.

Lemma get_strings_store (strings : Store) (query : Query.t) :
  (get_strings strings query).1 = strings.
Proof.
  unfold get_strings, bad_request.
  repeat match goal with
         | |- context [if ?b then _ else _] => destruct b
         end; try done.
  by destruct (apply_filters _ _ _ _ _ _).
Qed.

End Filtering.

(** ** The analyzer *)

Lemma words_from_run (cur t rest : jsstring) :
  no_whitespace t -> words_from cur (t ++ rest) = words_from (rev t ++ cur) rest.
Proof.
  intros Ht. revert cur. induction Ht as [|c t Hc _ IH]; intros cur; simpl; [done |].
  rewrite Hc, IH. by rewrite <- app_assoc.
Qed.

Lemma words_skip (ws rest : jsstring) :
  all_whitespace ws -> words (ws ++ rest) = words rest.
Proof.
  unfold words. induction 1 as [|c ws Hc _ IH]; simpl; [done |]. by rewrite Hc.
Qed.

(** [words] reads a token off the front: leading white space, then a
    non-empty run free of white space, then the end or a white-space code
    unit. *)
Lemma words_token_end (ws t : jsstring) :
  all_whitespace ws -> no_whitespace t -> t <> [] -> words (ws ++ t) = [t].
Proof.
  intros Hws Ht Hne. rewrite words_skip by done. unfold words.
  rewrite <- (app_nil_r t) at 1. rewrite words_from_run by done. simpl.
  rewrite app_nil_r. destruct (rev t) eqn:Hr; [|by rewrite <- Hr, rev_involutive].
  apply (f_equal (@rev N)) in Hr. rewrite rev_involutive in Hr. done.
Qed.

Lemma words_token (ws t : jsstring) (c : N) (rest : jsstring) :
  all_whitespace ws -> no_whitespace t -> t <> [] -> isWhiteSpace c = true ->
  words (ws ++ t ++ c :: rest) = t :: words rest.
Proof.
  intros Hws Ht Hne Hc. rewrite words_skip by done. unfold words.
  rewrite words_from_run by done. simpl. rewrite Hc, app_nil_r.
  destruct (rev t) eqn:Hr; [|by rewrite <- Hr, rev_involutive].
  apply (f_equal (@rev N)) in Hr. rewrite rev_involutive in Hr. done.
Qed.

Lemma words_from_nil (cur s : jsstring) :
  words_from cur s = [] <-> cur = [] /\ forallb isWhiteSpace s = true.
Proof.
  revert cur. induction s as [|c s IH]; intros cur; simpl.
  - destruct cur; split; try done. by intros [? _].
  - destruct (isWhiteSpace c); simpl.
    + destruct cur; [rewrite IH; tauto |]. split; [done | by intros [? _]].
    + rewrite IH. split; [by intros [? _] | by intros [_ ?]].
Qed.

Lemma filter_split_ws (in_sep : bool) (cur s : jsstring) :
  (in_sep = true -> cur = []) ->
  List.filter Boolean_str (split_ws_from in_sep cur s) = words_from cur s.
Proof.
  revert in_sep cur. induction s as [|c s IH]; intros in_sep cur Hsep; simpl.
  - destruct cur as [|x cur]; [done |].
    destruct (rev (x :: cur)) eqn:Hr; [|done].
    apply (f_equal (@rev N)) in Hr. rewrite rev_involutive in Hr. done.
  - destruct (isWhiteSpace c).
    + destruct in_sep.
      * rewrite (Hsep eq_refl). by apply IH.
      * simpl. rewrite IH by done.
        destruct cur as [|x cur]; [done |].
        destruct (rev (x :: cur)) eqn:Hr; [|done].
        apply (f_equal (@rev N)) in Hr. rewrite rev_involutive in Hr. done.
    + by apply IH.
Qed.

Lemma trimStart_split (s : jsstring) :
  exists ws, all_whitespace ws /\ s = ws ++ trimStart s.
Proof.
  induction s as [|c s (ws & Hws & IH)]; simpl.
  - exists []. split; [constructor | done].
  - destruct (isWhiteSpace c) eqn:Hc.
    + exists (c :: ws). split; [by constructor | by rewrite IH at 1].
    + exists []. split; [constructor | done].
Qed.

Lemma words_from_trailing (cur s ws : jsstring) :
  all_whitespace ws -> words_from cur (s ++ ws) = words_from cur s.
Proof.
  intros Hws. revert cur. induction s as [|c s IH]; intros cur; simpl.
  - revert cur. induction Hws as [|w ws Hw _ IHw]; intros cur; simpl; [done |].
    rewrite Hw. destruct cur; rewrite IHw; done.
  - destruct (isWhiteSpace c); [destruct cur |]; by rewrite IH.
Qed.

Lemma words_trim (s : jsstring) : words (trim s) = words s.
Proof.
  unfold trim, trimEnd.
  destruct (trimStart_split s) as (ws & Hws & Hs).
  destruct (trimStart_split (rev (trimStart s))) as (ws' & Hws' & Hs').
  apply (f_equal (@rev N)) in Hs'. rewrite rev_involutive, rev_app_distr in Hs'.
  rewrite Hs at 2. rewrite words_skip by done.
  rewrite Hs' at 2. unfold words. rewrite words_from_trailing; [done |].
  unfold all_whitespace in *. rewrite Forall_forall in *. intros c Hc.
  apply Hws'. apply list_elem_of_In, in_rev. by apply list_elem_of_In.
Qed.

Lemma join_rev_split_units (s : jsstring) : join (rev (split_units s)) = rev s.
Proof.
  unfold join, split_units. induction s as [|c s IH]; simpl; [done |].
  by rewrite concat_app, IH; simpl.
Qed.

Section AnalyzerProperties.
Context `{Host}.

(** C7: for every string, [length] is the number of code units,
    [is_palindrome] tells whether the lower-cased string is its own reversal
    (nothing is stripped), and [word_count] is the number of
    whitespace-delimited tokens, of the trimmed string as of the string
    itself: zero exactly for the empty and the whitespace-only strings. *)
Theorem analyze_length_palindrome_word_count (now s : jsstring) :
  let p := properties (analyzeString now s) in
  Properties.length p = Z.of_nat (length s)
  /\ is_palindrome p = bool_decide (toLowerCase s = rev (toLowerCase s))
  /\ word_count p = Z.of_nat (length (words (trim s)))
  /\ words (trim s) = words s
  /\ (if forallb isWhiteSpace s then word_count p = 0 else word_count p > 0).
Proof.
  assert (Hwc : word_count (properties (analyzeString now s))
                = Z.of_nat (length (words (trim s)))).
  { simpl. unfold split_ws. rewrite filter_split_ws by done. fold (words (trim s)).
    destruct (Z.of_nat (length (trim s)) =? 0) eqn:Hz; [|done].
    apply Z.eqb_eq in Hz. destruct (trim s); [done | simpl in Hz; lia]. }
  simpl. repeat split.
  - unfold str_eqb. by rewrite join_rev_split_units.
  - exact Hwc.
  - apply words_trim.
  - simpl in Hwc. rewrite Hwc, words_trim.
    destruct (forallb isWhiteSpace s) eqn:Hall.
    + assert (Hn : words s = []) by (by apply words_from_nil).
      by rewrite Hn.
    + destruct (words s) eqn:Hw; [|simpl; lia].
      apply words_from_nil in Hw as [_ Hw]. congruence.
Qed.
End AnalyzerProperties.

(** *** Character counting *)

Lemma or_zero_default (o : option Z) : or_zero o = default 0 o.
Proof.
  destruct o as [n|]; simpl; [|done].
  destruct (n =? 0) eqn:Hn; [|done]. apply Z.eqb_eq in Hn. by subst.
Qed.

Lemma sum_counts_insert_fresh (m : gmap jsstring Z) (k : jsstring) (n : Z) :
  m !! k = None -> sum_counts (<[k := n]> m) = n + sum_counts m.
Proof.
  intros Hk. unfold sum_counts.
  rewrite map_fold_insert_L; [done | intros; lia | done].
Qed.

Lemma sum_counts_bump (m : gmap jsstring Z) (k : jsstring) :
  sum_counts (<[k := or_zero (m !! k) + 1]> m) = sum_counts m + 1.
Proof.
  rewrite or_zero_default. destruct (m !! k) as [n|] eqn:Hk; simpl.
  - rewrite <- (insert_delete_id m k n Hk) at 1 2.
    rewrite insert_insert_eq.
    rewrite !sum_counts_insert_fresh by apply lookup_delete_eq. lia.
  - rewrite sum_counts_insert_fresh by done. lia.
Qed.

Lemma sum_counts_foldl (l : list jsstring) (m : gmap jsstring Z) :
  sum_counts (foldl (fun m ch => <[ch := or_zero (m !! ch) + 1]> m) m l)
  = sum_counts m + Z.of_nat (length l).
Proof.
  revert m. induction l as [|ch l IH]; intros m; simpl; [lia |].
  rewrite IH, sum_counts_bump. lia.
Qed.

Lemma lookup_foldl_counts (l : list jsstring) (m : gmap jsstring Z) (k : jsstring) :
  foldl (fun m ch => <[ch := or_zero (m !! ch) + 1]> m) m l !! k
  = match occurrences k l with
    | O => m !! k
    | S n => Some (or_zero (m !! k) + Z.of_nat (S n))
    end.
Proof.
  revert m. unfold occurrences.
  induction l as [|ch l IH]; intros m; simpl; [done |].
  rewrite IH. destruct (str_eqb k ch) eqn:Hk; simpl.
  - apply str_eqb_eq in Hk as <-. rewrite lookup_insert_eq.
    rewrite (or_zero_default (Some _)). simpl.
    destruct (length _); f_equal; lia.
  - apply str_eqb_neq in Hk. by rewrite lookup_insert_ne.
Qed.

Lemma occurrences_elem_of (k : jsstring) (l : list jsstring) :
  occurrences k l = 0%nat <-> k ∉ l.
Proof.
  unfold occurrences. induction l as [|x l IH]; simpl.
  - split; [intros _ Hk; inversion Hk | done].
  - rewrite not_elem_of_cons. destruct (str_eqb k x) eqn:Hk; simpl.
    + apply str_eqb_eq in Hk. split; [done | tauto].
    + apply str_eqb_neq in Hk. tauto.
Qed.

(** Two-step induction, the shape of the recursion of [string_iter]. *)
Lemma string_pair_ind (P : jsstring -> Prop) :
  P [] -> (forall c, P [c]) ->
  (forall c d s, P s -> P (d :: s) -> P (c :: d :: s)) ->
  forall s, P s.
Proof.
  intros Hnil Hone Hstep s.
  assert (Hboth : P s /\ forall c, P (c :: s)); [|tauto].
  induction s as [|d s [IH1 IH2]]; split; auto.
Qed.

Lemma string_iter_length (s : jsstring) :
  length s = (length (string_iter s) + surrogate_pairs s)%nat.
Proof.
  induction s as [| c | c d s IH1 IH2] using string_pair_ind; try done.
  cbn [string_iter surrogate_pairs].
  destruct (isHighSurrogate c && isLowSurrogate d); simpl in *; lia.
Qed.

Lemma string_iter_units (s : jsstring) :
  surrogate_pairs s = 0%nat -> string_iter s = map (fun c => [c]) s.
Proof.
  induction s as [| c | c d s IH1 IH2] using string_pair_ind; try done.
  cbn [string_iter surrogate_pairs].
  destruct (isHighSurrogate c && isLowSurrogate d); [done |].
  intros Hp. simpl map. f_equal. exact (IH2 Hp).
Qed.

Lemma size_list_to_set_remove_dups (l : list jsstring) :
  size (list_to_set l : gset jsstring) = length (remove_dups l).
Proof.
  rewrite <- (size_list_to_set (C := gset jsstring) (remove_dups l))
    by apply NoDup_remove_dups.
  f_equal. apply set_eq. intros x.
  by rewrite !elem_of_list_to_set, elem_of_remove_dups.
Qed.

Section Counting.
Context `{Host}.

(** C8, as the code has it: character counting iterates over the elements
    of the string iterator (a surrogate pair is one element, any other code
    unit an element of its own).  [unique_characters] is the number of
    distinct elements, the keys of the frequency map are the elements, each
    with its number of occurrences, and the counts add up to the number of
    elements, which is [length] less the number of surrogate pairs; on a
    string without such a pair the elements are the code units. *)
Theorem counting_iterates_code_points (now s : jsstring) :
  let p := properties (analyzeString now s) in
  unique_characters p = Z.of_nat (length (remove_dups (string_iter s)))
  /\ (forall k, character_frequency_map p !! k
                = match occurrences k (string_iter s) with
                  | O => None
                  | S n => Some (Z.of_nat (S n))
                  end)
  /\ (forall k, is_Some (character_frequency_map p !! k) <-> k ∈ string_iter s)
  /\ sum_counts (character_frequency_map p) = Z.of_nat (length (string_iter s))
  /\ Properties.length p
     = sum_counts (character_frequency_map p) + Z.of_nat (surrogate_pairs s)
  /\ (surrogate_pairs s = 0%nat ->
      string_iter s = map (fun c => [c]) s
      /\ sum_counts (character_frequency_map p) = Properties.length p).
Proof.
  assert (Hsum : sum_counts (count_chars s) = Z.of_nat (length (string_iter s))).
  { unfold count_chars. rewrite sum_counts_foldl. unfold sum_counts.
    rewrite map_fold_empty. lia. }
  assert (Hlook : forall k, count_chars s !! k
                = match occurrences k (string_iter s) with
                  | O => None
                  | S n => Some (Z.of_nat (S n))
                  end).
  { intros k. unfold count_chars. rewrite lookup_foldl_counts, lookup_empty.
    destruct (occurrences _ _); [done |]. simpl. f_equal; lia. }
  simpl. repeat split.
  - by rewrite size_list_to_set_remove_dups.
  - exact Hlook.
  - rewrite Hlook. intros Hk.
    destruct (occurrences k (string_iter s)) eqn:Ho; [by destruct Hk |].
    destruct (decide (k ∈ string_iter s)) as [|Hn]; [done |].
    apply occurrences_elem_of in Hn. congruence.
  - rewrite Hlook. intros Hk.
    destruct (occurrences k (string_iter s)) eqn:Ho; [|eauto].
    apply occurrences_elem_of in Ho. contradiction.
  - exact Hsum.
  - rewrite Hsum, (string_iter_length s). lia.
  - by apply string_iter_units.
  - rewrite Hsum, (string_iter_length s). lia.
Qed.
End Counting.

(** ** The structured filter parser *)

Lemma digit_not_whitespace (c : N) : isDigit c = true -> isWhiteSpace c = false.
Proof.
  unfold isDigit, isWhiteSpace, in_range.
  rewrite andb_true_iff, !N.leb_le. intros [H1 H2].
  repeat rewrite orb_false_iff. rewrite !andb_false_iff, !N.leb_gt, !N.eqb_neq.
  repeat split; lia.
Qed.

Lemma digit_not_sign (c : N) :
  isDigit c = true -> (c =? 45)%N = false /\ (c =? 43)%N = false.
Proof.
  unfold isDigit, in_range. rewrite andb_true_iff, !N.leb_le, !N.eqb_neq. lia.
Qed.

Lemma trimStart_stop (ws s : jsstring) :
  all_whitespace ws ->
  match s with c :: _ => isWhiteSpace c = false | [] => True end ->
  trimStart (ws ++ s) = s.
Proof.
  intros Hws Hs. induction Hws as [|c ws Hc _ IH]; simpl.
  - destruct s as [|c s]; [done |]. simpl. by rewrite Hs.
  - by rewrite Hc.
Qed.

Lemma take_digits_run (ds rest : jsstring) :
  Forall (fun c => isDigit c = true) ds -> starts_with_digit rest = false ->
  take_digits (ds ++ rest) = ds.
Proof.
  intros Hds Hrest. induction Hds as [|c ds Hc _ IH]; simpl.
  - destruct rest as [|c rest]; [done |]. simpl in *. by rewrite Hrest.
  - by rewrite Hc, IH.
Qed.

Lemma take_digits_split (s : jsstring) :
  exists rest, s = take_digits s ++ rest
               /\ Forall (fun c => isDigit c = true) (take_digits s)
               /\ starts_with_digit rest = false.
Proof.
  induction s as [|c s (rest & Hs & Hds & Hrest)]; simpl.
  - exists []. repeat split; constructor.
  - destruct (isDigit c) eqn:Hc.
    + exists rest. repeat split; [by rewrite Hs at 1 | by constructor | done].
    + exists (c :: s). repeat split; [constructor | done].
Qed.

Lemma parseInt10_integer_like (ws sign ds rest : jsstring) :
  all_whitespace ws ->
  sign = [] \/ sign = [43%N] \/ sign = [45%N] ->
  ds <> [] -> Forall (fun c => isDigit c = true) ds ->
  starts_with_digit rest = false ->
  parseInt10 (ws ++ sign ++ ds ++ rest) = Some (sign_value sign * digits_value ds).
Proof.
  intros Hws Hsign Hne Hds Hrest. unfold parseInt10.
  destruct ds as [|d ds]; [done |].
  assert (Hd : isDigit d = true) by (by inversion Hds).
  destruct (digit_not_sign d Hd) as [Hm Hp].
  assert (Htd : take_digits ((d :: ds) ++ rest) = d :: ds)
    by (by apply take_digits_run).
  change (take_digits (d :: ds ++ rest) = d :: ds) in Htd.
  rewrite trimStart_stop; [|done|].
  - destruct Hsign as [-> | [-> | ->]]; cbn [app].
    + rewrite Hm, Hp. by rewrite Htd.
    + change (43 =? 45)%N with false. change (43 =? 43)%N with true.
      cbv iota. by rewrite Htd.
    + change (45 =? 45)%N with true. cbv iota. by rewrite Htd.
  - destruct Hsign as [-> | [-> | ->]]; simpl; [by apply digit_not_whitespace | done | done].
Qed.

(** [parseInt10] accepts exactly the integer-like strings. *)
Lemma parseInt10_spec (v : jsstring) (n : Z) :
  parseInt10 v = Some n <-> integer_like v n.
Proof.
  split.
  - unfold parseInt10. intros Hp.
    destruct (trimStart_split v) as (ws & Hws & Hv).
    assert (Hcase : exists sign unsigned,
               trimStart v = sign ++ unsigned
               /\ (sign = [] \/ sign = [43%N] \/ sign = [45%N])
               /\ match take_digits unsigned with
                  | [] => None
                  | ds => Some (sign_value sign * digits_value ds)
                  end = Some n).
    { destruct (trimStart v) as [|c t] eqn:Ht.
      - exists [], []. simpl in *. by repeat split; auto.
      - destruct (c =? 45)%N eqn:Hm; [apply N.eqb_eq in Hm as -> |].
        + exists [45%N], t. repeat split; auto.
        + destruct (c =? 43)%N eqn:Hq; [apply N.eqb_eq in Hq as -> |].
          * exists [43%N], t. repeat split; auto.
          * exists [], (c :: t). repeat split; auto. }
    destruct Hcase as (sign & unsigned & Ht & Hsign & Hn).
    destruct (take_digits_split unsigned) as (rest & Hu & Hds & Hrest).
    destruct (take_digits unsigned) as [|d ds] eqn:Htd; [done |].
    injection Hn as <-. rewrite Hv, Ht, Hu. by constructor.
  - intros Hi. destruct Hi. by apply parseInt10_integer_like.
Qed.

Lemma parseIntOrNull_malformed (param : option jsstring) :
  defined param && is_null (parseIntOrNull param) = malformed param.
Proof.
  destruct param as [v|]; simpl; [|done]. by destruct (parseInt10 v).
Qed.

(** ** Case sensitivity of insertion and deletion *)

Section CaseSensitivity.
Context `{Host}.

Lemma stored_post_iff (now : jsstring) (strings : Store) (v w : jsstring) :
  stored w (post_strings now strings (JString v)).1 <-> stored w strings \/ w = v.
Proof.
  destruct (stored_dec v strings) as [Hs | Hs].
  - rewrite post_stored by done. simpl. split; [tauto |].
    intros [Hw | ->]; done.
  - rewrite post_fresh by done. simpl. unfold stored. split.
    + intros (r & Hr & Hv). apply elem_of_app in Hr as [Hr | Hr]; [eauto |].
      apply list_elem_of_singleton in Hr as ->. by right.
    + intros [(r & Hr & Hv) | ->].
      * exists r. split; [apply elem_of_app; by left | done].
      * exists (analyzeString now v). split; [|done].
        apply elem_of_app. right. by left.
Qed.

Lemma variant_delete_status (strings : Store) (v : jsstring) :
  (exists r, r ∈ strings /\ toLowerCase (value r) = toLowerCase v) ->
  status (Variant1.delete_string strings v).2 = 204.
Proof.
  intros (r & Hr & Hv). unfold Variant1.delete_string.
  destruct (findIndex_exists
              (fun item => str_eqb (toLowerCase (value item)) (toLowerCase v))
              strings) as [i ->]; [|done].
  exists r. split; [done | by apply str_eqb_eq].
Qed.

(** C1, as the code has it: in server.js deletion compares values exactly,
    like the duplicate check and the lookup.  After an insertion request for
    "Level", a delete request for "LEVEL" is answered 404 and changes
    nothing unless a record valued "LEVEL" was stored, and a delete request
    for "Level" succeeds; the earlier variant of the handler compares
    lower-cased values and there the request for "LEVEL" succeeds.  An
    insertion of "level" after "Level" succeeds provided no record valued
    "level" was stored before. *)
Theorem deletion_and_duplicates_case_sensitive
    (now now' : jsstring) (strings : Store) :
  let strings1 := (post_strings now strings (JString (js "Level"))).1 in
  (~ stored (js "LEVEL") strings ->
   delete_string strings1 (js "LEVEL") = (strings1, not_found_response))
  /\ status (delete_string strings1 (js "Level")).2 = 204
  /\ status (Variant1.delete_string strings1 (js "LEVEL")).2 = 204
  /\ (~ stored (js "level") strings ->
      post_strings now' strings1 (JString (js "level"))
      = (strings1 ++ [analyzeString now' (js "level")],
         {| status := 201;
            body := RecordBody (analyzeString now' (js "level")) |})).
Proof.
  intros strings1. repeat split.
  - intros Hn. apply delete_status. unfold strings1. rewrite stored_post_iff.
    intros [Hs | Heq]; [done | discriminate Heq].
  - apply delete_status, stored_after_post.
  - apply variant_delete_status.
    destruct (stored_after_post now strings (js "Level")) as (r & Hr & Hv).
    exists r. split; [done |]. rewrite Hv.
    by rewrite !toLowerCase_ascii.
  - intros Hn. apply post_fresh. unfold strings1. rewrite stored_post_iff.
    intros [Hs | Heq]; [done | discriminate Heq].
Qed.
End CaseSensitivity.

(** ** The natural-language translator *)

Section TranslatorProperties.
Context `{Host}.

(** The keys of the translation, from the tests the translator runs. *)
Lemma translation_keys (q : jsstring) :
  let s := toLowerCase q in
  if any_recognizer s then
    exists parsed,
      parseNaturalLanguageQuery q = Some parsed
      /\ (0 < Filters.keys_length parsed)%nat
      /\ defined (Filters.is_palindrome parsed) = rec_palindrome s
      /\ defined (Filters.word_count parsed) = rec_word_count s
      /\ defined (Filters.min_length parsed) = rec_longer s
      /\ defined (Filters.max_length parsed) = rec_shorter s
      /\ defined (Filters.contains_character parsed) = rec_letter s
  else parseNaturalLanguageQuery q = None.
Proof.
  intros s.
  unfold any_recognizer, rec_palindrome, rec_word_count, rec_longer,
    rec_shorter, rec_letter, parseNaturalLanguageQuery, test.
  fold s.
  destruct (str_match s Re.palindrome), (str_match s Re.single_word),
    (str_match s Re.word_count_is_1), (str_match s Re.n_words),
    (str_match s Re.longer), (str_match s Re.shorter), (str_match s Re.letter);
    simpl; try done;
    (eexists; split; [reflexivity |]; repeat split;
     first [done | unfold Filters.keys_length; simpl; lia]).
Qed.

Lemma parse_conflict_phrase :
  parseNaturalLanguageQuery conflict_phrase = Some conflict_filters.
Proof.
  unfold parseNaturalLanguageQuery.
  rewrite (toLowerCase_ascii conflict_phrase) by reflexivity.
  vm_compute. reflexivity.
Qed.

(** C2: a phrase whose translation has both bounds with
    [min_length > max_length] is answered 422 with the conflict error and
    the parsed filters, no filtering being done; an unparseable phrase is
    answered 400 and any other parsed phrase 200.  The phrase "longer than
    10 and shorter than 5" translates to [min_length = 11] and
    [max_length = 4] and gets the conflict answer. *)
Theorem conflicting_bounds_reported (strings : Store) (c : N) (q' : jsstring) :
  let q := c :: q' in
  let r := get_filter_by_natural_language strings (Some q) in
  match parseNaturalLanguageQuery q with
  | None =>
      r = (strings,
           {| status := 400;
              body := ErrorBody (js "Unable to parse natural language query") |})
  | Some parsed =>
      match Filters.min_length parsed, Filters.max_length parsed with
      | Some lo, Some hi =>
          if lo >? hi then
            r = (strings,
                 {| status := 422;
                    body := ConflictBody
                              (js "Query parsed but resulted in conflicting filters")
                              q parsed |})
          else r.1 = strings /\ status r.2 = 200
      | _, _ => r.1 = strings /\ status r.2 = 200
      end
  end
  /\ parseNaturalLanguageQuery conflict_phrase = Some conflict_filters
  /\ get_filter_by_natural_language strings (Some conflict_phrase)
     = (strings,
        {| status := 422;
           body := ConflictBody
                     (js "Query parsed but resulted in conflicting filters")
                     conflict_phrase conflict_filters |}).
Proof.
  intros q r. split; [|split; [apply parse_conflict_phrase |]].
  - subst r q. unfold get_filter_by_natural_language. cbv beta iota.
    destruct (parseNaturalLanguageQuery (c :: q')) as [parsed|]; [|done].
    unfold conflicting.
    destruct (Filters.min_length parsed) as [lo|],
      (Filters.max_length parsed) as [hi|]; try done.
    by destruct (lo >? hi).
  - unfold get_filter_by_natural_language.
    change (Some conflict_phrase) with (Some (108%N :: tail conflict_phrase)).
    cbv iota. change (108%N :: tail conflict_phrase) with conflict_phrase.
    by rewrite parse_conflict_phrase.
Qed.
End TranslatorProperties.

(** *** Numbered keywords: "longer than N", "shorter than N", "less than N" *)

Lemma strip_prefix_app (t r : jsstring) : strip_prefix t (t ++ r) = Some r.
Proof. induction t as [|a t IH]; simpl; [done |]. by rewrite N.eqb_refl. Qed.

Lemma strip_prefix_Some (t s r : jsstring) :
  strip_prefix t s = Some r -> s = t ++ r.
Proof.
  revert s. induction t as [|a t IH]; intros s; simpl.
  - by intros [= ->].
  - destruct s as [|b s]; [done |].
    destruct (a =? b)%N eqn:Hab; [|done].
    apply N.eqb_eq in Hab as ->. intros Hs. by rewrite (IH s Hs).
Qed.

Lemma consumed_app (t prev : jsstring) : consumed prev (rev t ++ prev) = t.
Proof.
  unfold consumed. rewrite length_app, length_rev.
  replace (length t + length prev - length prev)%nat with (length (rev t))
    by (rewrite length_rev; lia).
  by rewrite take_app_length, rev_involutive.
Qed.

Lemma star_cls_greedy (p : N -> bool) (k : Cont) (ds prev rest : jsstring)
    (caps : Captures) :
  Forall (fun c => p c = true) ds ->
  match rest with c :: _ => p c = false | [] => True end ->
  is_Some (k (rev ds ++ prev) rest caps) ->
  star_cls p k prev (ds ++ rest) caps = k (rev ds ++ prev) rest caps.
Proof.
  intros Hds Hrest. revert prev.
  induction Hds as [|d ds Hd _ IH]; intros prev Hk; simpl.
  - destruct rest as [|c rest]; [done |]. simpl. by rewrite Hrest.
  - rewrite Hd. simpl in Hk. rewrite <- app_assoc in Hk. simpl in Hk.
    rewrite IH by done. rewrite <- app_assoc. simpl.
    by destruct Hk as [m ->].
Qed.

Lemma rplus_digits (k : Cont) (ds prev post : jsstring) (caps : Captures) :
  ds <> [] -> Forall (fun c => isDigit c = true) ds ->
  starts_with_digit post = false ->
  is_Some (k (rev ds ++ prev) post caps) ->
  rmatch (RPlus CDigit) k prev (ds ++ post) caps = k (rev ds ++ prev) post caps.
Proof.
  intros Hne Hds Hpost Hk. destruct ds as [|d ds]; [done |].
  inversion Hds as [|? ? Hd Hds']; subst. simpl rmatch. simpl app at 1.
  cbv iota. change (cls_match CDigit d) with (isDigit d). rewrite Hd.
  simpl in Hk. rewrite <- app_assoc in Hk. simpl in Hk.
  rewrite (star_cls_greedy (cls_match CDigit)); [| done | | done].
  - simpl. by rewrite <- app_assoc.
  - destruct post; [done | exact Hpost].
Qed.



Lemma word_boundary_word_start (pre rest : jsstring) :
  match rest with c :: _ => isWordChar c = true | [] => False end ->
  word_boundary (rev pre) rest = word_start pre.
Proof.
  intros Hrest. unfold word_boundary, word_start.
  destruct rest as [|c rest]; [done |]. rewrite Hrest.
  destruct pre as [|x pre _] using rev_ind; [done |].
  rewrite rev_app_distr, last_snoc. simpl. by destruct (isWordChar x).
Qed.


(** A successful search stops at the first position that matches. *)
Lemma search_Some (r : regex) (prev rest : jsstring) (m : Captures) :
  search r prev rest = Some m ->
  exists skipped rest',
    rest = skipped ++ rest'
    /\ rmatch r (accept (rev skipped ++ prev)) (rev skipped ++ prev) rest' []
       = Some m
    /\ (forall p1 c p2,
          skipped = p1 ++ c :: p2 ->
          rmatch r (accept (rev p1 ++ prev)) (rev p1 ++ prev)
                 (c :: p2 ++ rest') [] = None).
Proof.
  revert prev. induction rest as [|c rest IH]; intros prev; cbn [search].
  - destruct (rmatch r (accept prev) prev [] []) as [m'|] eqn:Hm; [|done].
    intros [= <-]. exists [], []. repeat split; [done |].
    intros p1 c p2 Heq. by destruct p1.
  - destruct (rmatch r (accept prev) prev (c :: rest) []) as [m'|] eqn:Hm.
    + intros [= <-]. exists [], (c :: rest). repeat split; [done |].
      intros p1 c' p2 Heq. by destruct p1.
    + intros (skipped & rest' & -> & Hhere & Hnone)%IH.
      exists (c :: skipped), rest'. repeat split.
      * simpl. by rewrite <- app_assoc.
      * intros p1 c' p2 Heq. destruct p1 as [|x p1]; simpl in Heq.
        -- injection Heq as <- <-. exact Hm.
        -- injection Heq as <- ->. simpl. rewrite <- app_assoc.
           by apply Hnone.
Qed.

Lemma digits_after (d : N) (rest : jsstring) :
  isDigit d = true ->
  exists ds post,
    d :: rest = ds ++ post /\ ds <> []
    /\ Forall (fun c => isDigit c = true) ds /\ starts_with_digit post = false.
Proof.
  intros Hd. destruct (take_digits_split rest) as (post & Hrest & Hds & Hpost).
  exists (d :: take_digits rest), post. repeat split; [|done|by constructor|done].
  simpl. by rewrite <- Hrest.
Qed.

Lemma app_eq_shorter (a b x y : jsstring) :
  a ++ x = b ++ y -> (length a < length b)%nat ->
  exists c p2, b = a ++ c :: p2 /\ x = c :: p2 ++ y.
Proof.
  revert b. induction a as [|a0 a IH]; intros b Heq Hlen.
  - destruct b as [|c b]; [simpl in Hlen; lia |]. exists c, b. by simpl in *.
  - destruct b as [|b0 b]; [simpl in Hlen; lia |].
    simpl in Heq. injection Heq as -> Heq.
    destruct (IH b Heq) as (c & p2 & -> & ->); [simpl in Hlen; lia |].
    by exists c, p2.
Qed.

(** Conversely, whatever a numbered-keyword expression matches is the
    leftmost numbered keyword, and the group holds its whole digit run. *)
Lemma match_first_numbered (kws : list jsstring) (g : nat) (r : regex)
    (s : jsstring) (m : Captures) :
  numbered_regex kws g r -> str_match s r = Some m ->
  exists pre ds post, first_numbered kws s pre ds post /\ group g m = Some ds.
Proof.
  intros Hr (pre & rest & Hs & Hm & Hnone)%search_Some.
  rewrite app_nil_r in Hm.
  pose proof (numbered_sound _ _ _ Hr _ _ _ _ _ Hm)
    as (Hb & kw & d & rest' & Hkw & -> & Hd).
  destruct (digits_after d rest' Hd) as (ds & post & Hdp & Hne & Hds & Hpost).
  rewrite Hdp in *.
  destruct (numbered_complete _ _ _ Hr kw (rev pre) ds post)
    as (m' & Hm' & Hg); try done.
  rewrite Hm in Hm'. injection Hm' as <-.
  pose proof (numbered_word _ _ _ Hr kw Hkw) as Hw.
  exists pre, ds, post. split; [|done].
  split; [by exists kw |]. split.
  { rewrite <- Hb. symmetry. apply word_boundary_word_start.
    destruct kw; [done | exact Hw]. }
  repeat split; try done.
  intros kw' pre' d' post' Hkw' Hs' Hstart' Hd'.
  destruct (decide (length pre' < length pre)%nat) as [Hlt|]; [exfalso | lia].
  rewrite Hs in Hs'.
  destruct (app_eq_shorter _ _ _ _ (eq_sym Hs') Hlt) as (c & p2 & -> & Hx).
  specialize (Hnone pre' c p2 eq_refl). rewrite !app_nil_r in Hnone.
  rewrite <- Hx in Hnone.
  destruct (digits_after d' post' Hd') as (ds' & post2 & Hdp' & Hne' & Hds' & Hpost').
  rewrite Hdp' in Hnone.
  destruct (numbered_complete _ _ _ Hr kw' (rev pre') ds' post2)
    as (m2 & Hm2 & _); try done; [|congruence].
  rewrite word_boundary_word_start; [done |].
  pose proof (numbered_word _ _ _ Hr kw' Hkw') as Hw'.
  destruct kw'; [done | exact Hw'].
Qed.

Lemma rmatch_seq (r1 r2 : regex) (k : Cont) (prev rest : jsstring) (caps : Captures) :
  rmatch (RSeq r1 r2) k prev rest caps = rmatch r1 (rmatch r2 k) prev rest caps.
Proof. reflexivity. Qed.

Lemma rmatch_group (n : nat) (r : regex) (k : Cont) (prev rest : jsstring)
    (caps : Captures) :
  rmatch (RGroup n r) k prev rest caps
  = rmatch r (fun prev' rest' caps' =>
                k prev' rest' ((n, consumed prev prev') :: caps'))
           prev rest caps.
Proof. reflexivity. Qed.

Lemma rmatch_alt (r1 r2 : regex) (k : Cont) (prev rest : jsstring) (caps : Captures) :
  rmatch (RAlt r1 r2) k prev rest caps
  = match rmatch r1 k prev rest caps with
    | Some m => Some m
    | None => rmatch r2 k prev rest caps
    end.
Proof. reflexivity. Qed.

Lemma rmatch_wordb (k : Cont) (prev rest : jsstring) (caps : Captures) :
  rmatch RWordB k prev rest caps
  = if word_boundary prev rest then k prev rest caps else None.
Proof. reflexivity. Qed.

Lemma rmatch_str_app (s : jsstring) (k : Cont) (prev rest : jsstring)
    (caps : Captures) :
  rmatch (RStr s) k prev (s ++ rest) caps = k (rev s ++ prev) rest caps.
Proof. simpl. by rewrite strip_prefix_app. Qed.

Lemma rstr_sound (s : jsstring) (k : Cont) (prev rest : jsstring)
    (caps m : Captures) :
  rmatch (RStr s) k prev rest caps = Some m ->
  exists rest', rest = s ++ rest' /\ k (rev s ++ prev) rest' caps = Some m.
Proof.
  simpl. destruct (strip_prefix s rest) as [rest'|] eqn:Hs; [|done].
  apply strip_prefix_Some in Hs. eauto.
Qed.

Lemma rplus_sound (c : cls) (k : Cont) (prev rest : jsstring) (caps m : Captures) :
  rmatch (RPlus c) k prev rest caps = Some m ->
  exists d rest', rest = d :: rest' /\ cls_match c d = true.
Proof.
  simpl. destruct rest as [|d rest']; [done |].
  destruct (cls_match c d) eqn:Hd; [eauto | done].
Qed.

(** [kw (\d+)] after a keyword literal. *)
Lemma keyword_digits_sound (kw : jsstring) (n : nat) (k : Cont)
    (prev rest : jsstring) (caps m : Captures) :
  rmatch (RSeq (RStr kw) (RGroup n (RPlus CDigit))) k prev rest caps = Some m ->
  exists d rest', rest = kw ++ d :: rest' /\ isDigit d = true.
Proof.
  rewrite rmatch_seq. intros Hm.
  apply rstr_sound in Hm as (rest1 & -> & Hm).
  rewrite rmatch_group in Hm.
  apply rplus_sound in Hm as (d & rest' & -> & Hd). eauto.
Qed.

Lemma keyword_digits_complete (kw : jsstring) (n : nat) (start prev ds post : jsstring)
    (caps : Captures) :
  ds <> [] -> Forall (fun c => isDigit c = true) ds ->
  starts_with_digit post = false ->
  rmatch (RSeq (RStr kw) (RGroup n (RPlus CDigit))) (accept start) prev
         (kw ++ ds ++ post) caps
  = Some ((0%nat, consumed start (rev ds ++ rev kw ++ prev)) :: (n, ds) :: caps).
Proof.
  intros Hne Hds Hpost.
  rewrite rmatch_seq, rmatch_str_app, rmatch_group.
  rewrite rplus_digits by (unfold accept; eauto).
  unfold accept. by rewrite consumed_app.
Qed.

Lemma longer_numbered : numbered_regex [js "longer than "] 1 Re.longer.
Proof.
  split.
  - intros kw Hkw. by apply list_elem_of_singleton in Hkw as ->.
  - intros k prev rest caps m. unfold Re.longer.
    rewrite rmatch_seq, rmatch_wordb.
    destruct (word_boundary prev rest) eqn:Hb; [|done].
    intros (d & rest' & -> & Hd)%keyword_digits_sound.
    split; [done |].
    exists (js "longer than "), d, rest'. repeat split; [by left | done].
  - intros kw prev ds post Hkw Hb Hne Hds Hpost.
    apply list_elem_of_singleton in Hkw as ->. unfold Re.longer.
    rewrite rmatch_seq, rmatch_wordb, Hb.
    rewrite keyword_digits_complete by done. eauto.
Qed.

Lemma shorter_numbered :
  numbered_regex [js "shorter than "; js "less than "] 2 Re.shorter.
Proof.
  split.
  - intros kw Hkw.
    apply elem_of_cons in Hkw as [-> | Hkw]; [done |].
    by apply list_elem_of_singleton in Hkw as ->.
  - intros k prev rest caps m. unfold Re.shorter.
    rewrite rmatch_seq, rmatch_wordb.
    destruct (word_boundary prev rest) eqn:Hb; [|done].
    rewrite rmatch_seq, rmatch_group, rmatch_alt. intros Hm.
    split; [done |].
    destruct (rmatch (RStr (js "shorter than")) _ prev rest caps) as [m'|] eqn:H1.
    + apply rstr_sound in H1 as (rest1 & -> & H1).
      apply keyword_digits_sound in H1 as (d & rest' & -> & Hd).
      exists (js "shorter than "), d, rest'. repeat split; [by left | done].
    + apply rstr_sound in Hm as (rest1 & -> & Hm).
      apply keyword_digits_sound in Hm as (d & rest' & -> & Hd).
      exists (js "less than "), d, rest'.
      repeat split; [right; by left | done].
  - intros kw prev ds post Hkw Hb Hne Hds Hpost. unfold Re.shorter.
    rewrite rmatch_seq, rmatch_wordb, Hb, rmatch_seq, rmatch_group, rmatch_alt.
    apply elem_of_cons in Hkw as [-> | Hkw].
    + change (js "shorter than " ++ ds ++ post)
        with (js "shorter than" ++ js " " ++ ds ++ post).
      rewrite rmatch_str_app, keyword_digits_complete by done.
      eexists. split; [reflexivity | done].
    + apply list_elem_of_singleton in Hkw as ->.
      replace (rmatch (RStr (js "shorter than")) _ prev
                 (js "less than " ++ ds ++ post) [])
        with (@None Captures) by reflexivity.
      change (js "less than " ++ ds ++ post)
        with (js "less than" ++ js " " ++ ds ++ post).
      rewrite rmatch_str_app, keyword_digits_complete by done.
      eexists. split; [reflexivity | done].
Qed.

Section NumberedKeywords.
Context `{Host}.




End NumberedKeywords.

(** * Further properties of the handlers *)

(** ** The store under requests *)

Section StoreProperties.
Context `{Host}.

Lemma get_string_store (strings : Store) (v : jsstring) :
  (get_string strings v).1 = strings.
Proof. unfold get_string. by destruct (findByValue strings v). Qed.

Lemma natural_language_store (strings : Store) (query : option jsstring) :
  (get_filter_by_natural_language strings query).1 = strings.
Proof.
  unfold get_filter_by_natural_language.
  destruct query as [[|c q]|]; try done.
  destruct (parseNaturalLanguageQuery (c :: q)) as [parsed|]; [|done].
  by destruct (conflicting parsed).
Qed.

Lemma delete_sublist (strings : Store) (v : jsstring) :
  (delete_string strings v).1 `sublist_of` strings.
Proof.
  unfold delete_string. destruct (findIndex _ strings); simpl; [|done].
  apply sublist_delete.
Qed.

Lemma well_formed_sublist (strings strings' : Store) :
  strings' `sublist_of` strings -> well_formed strings -> well_formed strings'.
Proof.
  intros Hsub [Hnd Hall]. split.
  - eapply sublist_NoDup; [exact Hnd | by apply fmap_sublist].
  - rewrite Forall_forall in *. intros r Hr. apply Hall.
    by eapply elem_of_sublist.
Qed.

Lemma stored_fmap (v : jsstring) (strings : Store) :
  stored v strings <-> v ∈ value <$> strings.
Proof.
  unfold stored. rewrite list_elem_of_fmap. split.
  - intros (r & Hr & <-). eauto.
  - intros (r & -> & Hr). eauto.
Qed.

Lemma well_formed_post (now : jsstring) (strings : Store) (v : JsonValue) :
  well_formed strings -> well_formed (post_strings now strings v).1.
Proof.
  intros [Hnd Hall]. destruct v as [|v|]; try done.
  destruct (stored_dec v strings) as [Hs | Hs].
  - by rewrite post_stored.
  - rewrite post_fresh by done. simpl. split.
    + rewrite fmap_app. apply NoDup_app. repeat split; [done | | ].
      * intros x Hx Hin. apply list_elem_of_singleton in Hin as ->.
        by apply Hs, stored_fmap.
      * simpl. apply NoDup_singleton.
    + apply Forall_app. split; [done |]. by repeat constructor.
Qed.

Lemma well_formed_application (strings : Store) (req : Request) :
  well_formed strings -> well_formed (application strings req).1.
Proof.
  intros Hwf. unfold application, answered.
  destruct (resolve routes (req_method req) (req_path req)) as [[[] params]|];
    simpl; try done.
  - by apply well_formed_post.
  - by rewrite get_string_store.
  - by rewrite get_strings_store.
  - by rewrite natural_language_store.
  - eapply well_formed_sublist; [apply delete_sublist | done].
Qed.

(** X1: whatever requests the application has served since it started
    with the empty store, the stored values are pairwise distinct and every
    stored record is the analysis of its own value, made at its creation
    time. *)
Theorem store_stays_well_formed (reqs : list Request) :
  well_formed (run [] reqs).
Proof.
  unfold run.
  assert (Hgen : forall strings, well_formed strings ->
            well_formed (foldl (fun s req => (application s req).1) strings reqs)).
  { induction reqs as [|req reqs IH]; intros strings Hwf; simpl; [done |].
    by apply IH, well_formed_application. }
  apply Hgen. split; [constructor | constructor].
Qed.

Lemma findByValue_Some (strings : Store) (v : jsstring) (r : StringRecord.t) :
  findByValue strings v = Some r -> r ∈ strings /\ value r = v.
Proof.
  unfold findByValue. induction strings as [|x strings IH]; simpl; [done |].
  destruct (str_eqb (value x) v) eqn:Hx.
  - intros [= <-]. split; [by left | by apply str_eqb_eq].
  - intros Hf. destruct (IH Hf). split; [by right | done].
Qed.

Lemma findByValue_app_fresh (strings : Store) (r : StringRecord.t) :
  ~ stored (value r) strings -> findByValue (strings ++ [r]) (value r) = Some r.
Proof.
  intros Hs. unfold findByValue.
  induction strings as [|x strings IH]; simpl.
  - by rewrite (proj2 (str_eqb_eq _ _) eq_refl).
  - destruct (str_eqb (value x) (value r)) eqn:Hx.
    + exfalso. apply Hs. exists x. split; [by left | by apply str_eqb_eq].
    + apply IH. intros (y & Hy & Hv). apply Hs. exists y. split; [by right | done].
Qed.

(** X2: after an insertion request for a string [v], whatever its
    answer, the lookup of [v] answers 200 with a record whose value is [v];
    when [v] was not stored before, that record is the one the insertion
    created and answered with. *)
Theorem lookup_after_insert (now : jsstring) (strings : Store) (v : jsstring) :
  let strings1 := (post_strings now strings (JString v)).1 in
  exists r,
    get_string strings1 v = (strings1, {| status := 200; body := RecordBody r |})
    /\ value r = v
    /\ (~ stored v strings ->
        r = analyzeString now v
        /\ (post_strings now strings (JString v)).2
           = {| status := 201; body := RecordBody r |}).
Proof.
  intros strings1. subst strings1.
  destruct (stored_dec v strings) as [Hs | Hs].
  - rewrite post_stored by done. simpl.
    pose proof (proj2 (findByValue_stored strings v) Hs) as Hd.
    unfold get_string.
    destruct (findByValue strings v) as [r|] eqn:Hf; [|done].
    exists r. split; [done |]. split; [by apply (findByValue_Some strings) |].
    intros Hn. contradiction.
  - rewrite post_fresh by done. simpl.
    exists (analyzeString now v). unfold get_string.
    rewrite (findByValue_app_fresh strings (analyzeString now v)) by done.
    repeat split.
Qed.

Lemma findIndex_app_fresh {A} (p : A -> bool) (a : list A) (x : A) :
  Forall (fun y => p y = false) a -> p x = true ->
  findIndex p (a ++ [x]) = Some (length a).
Proof.
  intros Ha Hx. induction Ha as [|y a Hy _ IH]; simpl.
  - by rewrite Hx.
  - by rewrite Hy, IH.
Qed.

Lemma not_stored_Forall (v : jsstring) (strings : Store) :
  ~ stored v strings <->
  Forall (fun item => str_eqb (value item) v = false) strings.
Proof.
  rewrite Forall_forall. split.
  - intros Hs r Hr. apply str_eqb_neq. intros Hv. apply Hs. by exists r.
  - intros Hall (r & Hr & Hv). specialize (Hall r Hr).
    apply str_eqb_neq in Hall. contradiction.
Qed.

(** X3: inserting a string that was not stored and then deleting it gives
    the store back exactly as it was, and the deletion is answered 204. *)
Theorem insert_then_delete (now : jsstring) (strings : Store) (v : jsstring) :
  ~ stored v strings ->
  delete_string (post_strings now strings (JString v)).1 v
  = (strings, {| status := 204; body := EmptyBody |}).
Proof.
  intros Hs. rewrite post_fresh by done. simpl. unfold delete_string.
  rewrite (findIndex_app_fresh _ strings (analyzeString now v));
    [| by apply not_stored_Forall | by apply str_eqb_eq].
  unfold splice1. f_equal.
  induction strings as [|x strings IH]; simpl; [done |].
  f_equal. apply IH. intros (r & Hr & Hv). apply Hs. exists r.
  split; [by right | done].
Qed.

Lemma find_other {A} (q : A -> bool) (before after : list A) (x : A) :
  q x = false -> find q (before ++ x :: after) = find q (before ++ after).
Proof.
  intros Hx. induction before as [|y before IH]; simpl.
  - by rewrite Hx.
  - destruct (q y); [done | exact IH].
Qed.

(** X4: in a store whose values are pairwise distinct, a successful
    deletion of [v] makes the lookup of [v] answer 404, and it changes the
    lookup of no other value. *)
Theorem lookup_after_delete (strings : Store) (v w : jsstring) :
  NoDup (value <$> strings) -> stored v strings ->
  let strings1 := (delete_string strings v).1 in
  get_string strings1 v = (strings1, not_found_response)
  /\ (w <> v -> (get_string strings1 w).2 = (get_string strings w).2).
Proof.
  intros Hnd Hs strings1. subst strings1.
  unfold delete_string.
  destruct (findIndex_exists (fun item => str_eqb (value item) v) strings)
    as [i Hi].
  { destruct Hs as (r & Hr & Hv). exists r. split; [done | by apply str_eqb_eq]. }
  rewrite Hi. simpl.
  destruct (findIndex_Some _ _ _ Hi) as (before & x & after & -> & _ & Hx & Hb & ->).
  apply str_eqb_eq in Hx.
  split.
  - unfold get_string.
    assert (Hnone : findByValue (before ++ after) v = None).
    { destruct (findByValue (before ++ after) v) as [r|] eqn:Hf; [|done].
      exfalso. apply findByValue_Some in Hf as [Hr Hv].
      rewrite fmap_app, fmap_cons in Hnd.
      apply NoDup_app in Hnd as (_ & Hdisj & Hnd).
      apply NoDup_cons in Hnd as [Hnot _].
      apply elem_of_app in Hr as [Hr | Hr].
      - rewrite Forall_forall in Hb. specialize (Hb r Hr).
        apply str_eqb_neq in Hb. contradiction.
      - apply Hnot. rewrite Hx, <- Hv. by apply list_elem_of_fmap_2. }
    by rewrite Hnone.
  - intros Hne. unfold get_string, findByValue.
    rewrite (find_other (fun item => str_eqb (value item) w)).
    + by destruct (find _ (before ++ after)).
    + apply str_eqb_neq. by rewrite Hx.
Qed.

(** X5: an insertion request changes the store only when it is answered
    201, and then it appends exactly the record it answers with, whose
    value is the string of the body; a missing value is answered 400, a
    value that is not a string 422 and a stored string 409, each with the
    store as it was. *)
Theorem insert_outcomes (now : jsstring) (strings : Store) (v : JsonValue) :
  let result := post_strings now strings v in
  match v with
  | JUndefined => status result.2 = 400 /\ result.1 = strings
  | JOther => status result.2 = 422 /\ result.1 = strings
  | JString s =>
      if defined (findByValue strings s)
      then status result.2 = 409 /\ result.1 = strings
      else result
           = (strings ++ [analyzeString now s],
              {| status := 201; body := RecordBody (analyzeString now s) |})
           /\ value (analyzeString now s) = s
  end
  /\ (status result.2 = 201 <-> length result.1 = S (length strings))
  /\ (status result.2 <> 201 -> result.1 = strings).
Proof.
  intros result. subst result. destruct v as [|s|]; simpl.
  - repeat split; try done; intros Hl; lia.
  - destruct (defined (findByValue strings s)); simpl.
    + repeat split; try done; intros Hl; lia.
    + repeat split; try done. rewrite length_app. simpl. lia.
  - repeat split; try done; intros Hl; lia.
Qed.
End StoreProperties.

(** ** The structured handler *)

Lemma malformed_integer_like (param : option jsstring) :
  malformed param = false <->
  forall v, param = Some v -> exists n, integer_like v n.
Proof.
  destruct param as [v|]; simpl.
  - split.
    + intros Hm w [= <-]. destruct (parseInt10 v) as [n|] eqn:Hp; [|done].
      exists n. by apply parseInt10_spec.
    + intros Hv. destruct (Hv v eq_refl) as [n Hn].
      apply parseInt10_spec in Hn. by rewrite Hn.
  - split; [by intros _ v | done].
Qed.

Section StructuredHandler.
Context `{Host}.

Lemma get_strings_cases (strings : Store) (query : Query.t) :
  (exists msg, get_strings strings query
               = (strings, {| status := 400; body := ErrorBody msg |}))
  \/ (let result := apply_filters strings (Query.is_palindrome query)
                       (parseIntOrNull (Query.min_length query))
                       (parseIntOrNull (Query.max_length query))
                       (parseIntOrNull (Query.word_count query))
                       (Query.contains_character query) in
      get_strings strings query
      = (strings, {| status := 200;
                     body := CollectionBody result.1
                               (Z.of_nat (length result.1)) result.2 |})).
Proof.
  unfold get_strings, bad_request.
  repeat match goal with
         | |- context [if ?b then _ else _] => destruct b
         end; eauto.
  right. by destruct (apply_filters _ _ _ _ _ _).
Qed.

Lemma get_strings_valid (strings : Store) (query : Query.t) :
  status (get_strings strings query).2 = 200 <-> valid_query query.
Proof.
  unfold valid_query. rewrite <- !malformed_integer_like.
  unfold get_strings, bad_request. rewrite !parseIntOrNull_malformed.
  destruct query as [ip mn mx wc cc]. simpl.
  destruct ip as [ip|].
  - unfold str_eqb.
    destruct (decide (ip = js "true")) as [->|Ht];
      [|destruct (decide (ip = js "false")) as [->|Hf]].
    + rewrite bool_decide_eq_true_2 by done. simpl.
      destruct (malformed mn), (malformed mx), (malformed wc); simpl;
        try (split; [done | by intros (_ & ? & ? & ? & _)]).
      destruct cc as [c|].
      *  destruct (length c =? 1)%nat eqn:Hc; simpl.
         -- apply Nat.eqb_eq in Hc.
            destruct (apply_filters _ _ _ _ _ _). simpl.
            split; [|done]. intros _. repeat split; auto. by intros ? [= <-].
         -- apply Nat.eqb_neq in Hc. split; [done |].
            intros (_ & _ & _ & _ & Hl). by specialize (Hl c eq_refl).
      *  destruct (apply_filters _ _ _ _ _ _). simpl.
         split; [|done]. intros _. repeat split; auto. done.
    + rewrite (bool_decide_eq_false_2 (js "false" = js "true")) by done.
      rewrite bool_decide_eq_true_2 by done. simpl.
      destruct (malformed mn), (malformed mx), (malformed wc); simpl;
        try (split; [done | by intros (_ & ? & ? & ? & _)]).
      destruct cc as [c|].
      *  destruct (length c =? 1)%nat eqn:Hc; simpl.
         -- apply Nat.eqb_eq in Hc.
            destruct (apply_filters _ _ _ _ _ _). simpl.
            split; [|done]. intros _. repeat split; auto. by intros ? [= <-].
         -- apply Nat.eqb_neq in Hc. split; [done |].
            intros (_ & _ & _ & _ & Hl). by specialize (Hl c eq_refl).
      *  destruct (apply_filters _ _ _ _ _ _). simpl.
         split; [|done]. intros _. repeat split; auto. done.
    + rewrite !bool_decide_eq_false_2 by done. simpl.
      split; [done |]. intros ([|[[= ?]|[= ?]]] & _); done.
  - destruct (malformed mn), (malformed mx), (malformed wc); simpl;
      try (split; [done | by intros (_ & ? & ? & ? & _)]).
    destruct cc as [c|].
    + destruct (length c =? 1)%nat eqn:Hc; simpl.
      *  apply Nat.eqb_eq in Hc.
         destruct (apply_filters _ _ _ _ _ _). simpl.
         split; [|done]. intros _. repeat split; auto. by intros ? [= <-].
      *  apply Nat.eqb_neq in Hc. split; [done |].
         intros (_ & _ & _ & _ & Hl). by specialize (Hl c eq_refl).
    + destruct (apply_filters _ _ _ _ _ _). simpl.
      split; [|done]. intros _. repeat split; auto. done.
Qed.

(** X6: the structured handler answers 200 exactly for the valid
    queries ([is_palindrome] literally "true" or "false", numeric
    parameters integer-like, [contains_character] one code unit long), and
    400 with an error message for every other query, whatever the store
    holds. *)
Theorem listing_accepts_valid_queries (strings : Store) (query : Query.t) :
  (status (get_strings strings query).2 = 200 <-> valid_query query)
  /\ (status (get_strings strings query).2 = 200
      \/ exists msg, (get_strings strings query).2
                     = {| status := 400; body := ErrorBody msg |}).
Proof.
  split; [apply get_strings_valid |].
  destruct (get_strings_cases strings query) as [[msg ->] | ->]; simpl; eauto.
Qed.

Lemma numeric_field_parse (param : option jsstring) :
  (forall v, param = Some v -> exists n, integer_like v n) ->
  numeric_field param
    match parseIntOrNull param with Num n => Some n | _ => None end.
Proof.
  intros Hv. destruct param as [v|]; simpl; [| done].
  destruct (Hv v eq_refl) as [n Hn]. exists n. split; [done |].
  apply parseInt10_spec in Hn. by rewrite Hn.
Qed.

Lemma apply_filters_asks (strings : Store) (query : Query.t) :
  valid_query query ->
  asks query
    (apply_filters strings (Query.is_palindrome query)
       (parseIntOrNull (Query.min_length query))
       (parseIntOrNull (Query.max_length query))
       (parseIntOrNull (Query.word_count query))
       (Query.contains_character query)).2.
Proof.
  intros (Hip & Hmn & Hmx & Hwc & _).
  apply numeric_field_parse in Hmn, Hmx, Hwc.
  destruct query as [ip mn mx wc cc]. simpl in *.
  unfold asks, apply_filters. simpl.
  destruct (parseIntOrNull mn), (parseIntOrNull mx), (parseIntOrNull wc);
    destruct Hip as [-> | [-> | ->]]; destruct cc; simpl;
    repeat split; auto.
Qed.

(** C5: with no filter the structured handler returns the records as they
    are stored; whatever the parameters, it leaves the store as it was; and
    when it answers 200 the filters it reports are those the query asks for
    (each provided parameter converted to its type; the numbers are exact
    below 2^53), and the records it returns are those of the store that
    pass every one of these filters, in store order (a subsequence of the
    store). *)
Theorem filters_conjunctive_subsequence (strings : Store) (query : Query.t) :
  get_strings strings Query.empty
  = (strings, {| status := 200;
                 body := CollectionBody strings (Z.of_nat (length strings))
                                        Filters.empty |})
  /\ (get_strings strings query).1 = strings
  /\ match body (get_strings strings query).2 with
     | CollectionBody data count filters_applied =>
         status (get_strings strings query).2 = 200
         /\ (exact_numbers query -> asks query filters_applied)
         /\ data = List.filter (satisfies filters_applied) strings
         /\ data `sublist_of` strings
         /\ count = Z.of_nat (length data)
     | ErrorBody _ => status (get_strings strings query).2 = 400
     | _ => False
     end.
Proof.
  split; [done |]. split; [apply get_strings_store |].
  pose proof (get_strings_valid strings query) as Hvalid.
  destruct (get_strings_cases strings query) as [[msg Hr] | Hr];
    rewrite Hr in *; [done |].
  cbn [snd body status] in *.
  split; [done |]. split.
  { intros _. apply apply_filters_asks. by apply Hvalid. }
  split; [apply apply_filters_conjunctive |].
  split; [| done].
  rewrite apply_filters_conjunctive. apply filter_sublist_of.
Qed.

(** C6, as the code has it: a provided [min_length], [max_length] or
    [word_count] is accepted exactly when it is integer-like (white space,
    an optional sign, decimal digits, then anything), and is then read as
    the signed digit run (exactly so below 2^53); so a value whose first
    significant code unit is not numeric is rejected, while what follows the
    digits is dropped.  A request is answered 200 when every provided
    parameter is valid, and otherwise, whichever provided parameter fails
    its check, 400 with no filtering and the store as it was. *)
Theorem numeric_parameters_integer_like (strings : Store) (query : Query.t) :
  (forall v, defined (parseInt10 v) = true <-> exists n, integer_like v n)
  /\ (forall v n, Z.abs n < 2 ^ 53 ->
                  (parseInt10 v = Some n <-> integer_like v n))
  /\ (forall ws c rest,
        all_whitespace ws -> isWhiteSpace c = false -> isDigit c = false ->
        c <> 43%N -> c <> 45%N -> parseInt10 (ws ++ c :: rest) = None)
  /\ (valid_query query -> status (get_strings strings query).2 = 200)
  /\ (~ valid_query query ->
      exists msg,
        get_strings strings query
        = (strings, {| status := 400; body := ErrorBody msg |})).
Proof.
  split; [| split; [| split; [| split]]].
  - intros v. split.
    + destruct (parseInt10 v) as [n|] eqn:Hp; [| done].
      intros _. exists n. by apply parseInt10_spec.
    + intros [n Hn]. apply parseInt10_spec in Hn. by rewrite Hn.
  - intros v n _. apply parseInt10_spec.
  - intros ws c rest Hws Hc Hd Hp Hm. unfold parseInt10.
    rewrite trimStart_stop by done.
    apply N.eqb_neq in Hp, Hm. rewrite Hp, Hm. simpl. by rewrite Hd.
  - apply get_strings_valid.
  - intros Hbad.
    destruct (get_strings_cases strings query) as [Herr | Hok]; [done |].
    exfalso. apply Hbad, (get_strings_valid strings). by rewrite Hok.
Qed.
End StructuredHandler.

Section ListingAlgebra.
Context `{Host}.

(** The filters the handler reports do not depend on the store. *)
Lemma apply_filters_reported (strings strings' : Store)
    (ip : option jsstring) (minLen maxLen wc : IntOrNull) (cc : option jsstring) :
  (apply_filters strings ip minLen maxLen wc cc).2
  = (apply_filters strings' ip minLen maxLen wc cc).2.
Proof.
  unfold apply_filters. by destruct ip, minLen, maxLen, wc, cc.
Qed.

Lemma filter_idempotent {A} (p : A -> bool) (a : list A) :
  List.filter p (List.filter p a) = List.filter p a.
Proof.
  rewrite filter_filter_andb. apply filter_ext_eq. intros x. by destruct (p x).
Qed.

(** The answer of the handler on any store, from its answer on the empty
    store. *)
Lemma get_strings_from_empty (strings : Store) (query : Query.t) :
  get_strings strings query
  = match body (get_strings [] query).2 with
    | CollectionBody _ _ f =>
        (strings,
         {| status := 200;
            body := CollectionBody (List.filter (satisfies f) strings)
                      (Z.of_nat (length (List.filter (satisfies f) strings))) f |})
    | other => (strings, {| status := 400; body := other |})
    end.
Proof.
  destruct (get_strings_cases [] query) as [[msg He] | He];
    destruct (get_strings_cases strings query) as [[msg' Hs] | Hs].
  - rewrite He, Hs. simpl.
    unfold get_strings, bad_request in *.
    repeat match goal with
           | H : context [if ?b then _ else _] |- _ => destruct b
           end; try congruence;
      by destruct (apply_filters _ _ _ _ _ _), (apply_filters _ _ _ _ _ _).
  - exfalso. unfold get_strings, bad_request in *.
    repeat match goal with
           | H : context [if ?b then _ else _] |- _ => destruct b
           end; try congruence;
      by destruct (apply_filters _ _ _ _ _ _), (apply_filters _ _ _ _ _ _).
  - exfalso. unfold get_strings, bad_request in *.
    repeat match goal with
           | H : context [if ?b then _ else _] |- _ => destruct b
           end; try congruence;
      by destruct (apply_filters _ _ _ _ _ _), (apply_filters _ _ _ _ _ _).
  - rewrite He, Hs. simpl.
    rewrite (apply_filters_reported [] strings).
    by rewrite <- apply_filters_conjunctive.
Qed.

(** X7: the verdict of the structured handler and the filters it reports
    depend on the query only; over a store made of two parts it returns the
    records it returns over the first part followed by those it returns
    over the second; and listing its own result again with the same query
    returns that result unchanged. *)
Theorem listing_distributes (strings1 strings2 : Store) (query : Query.t) :
  match body (get_strings (strings1 ++ strings2) query).2 with
  | CollectionBody data count f =>
      body (get_strings strings1 query).2
      = CollectionBody (List.filter (satisfies f) strings1)
          (Z.of_nat (length (List.filter (satisfies f) strings1))) f
      /\ body (get_strings strings2 query).2
         = CollectionBody (List.filter (satisfies f) strings2)
             (Z.of_nat (length (List.filter (satisfies f) strings2))) f
      /\ data = List.filter (satisfies f) strings1
                ++ List.filter (satisfies f) strings2
      /\ count = Z.of_nat (length data)
      /\ body (get_strings data query).2 = CollectionBody data count f
  | other =>
      body (get_strings strings1 query).2 = other
      /\ body (get_strings strings2 query).2 = other
  end.
Proof.
  rewrite (get_strings_from_empty (strings1 ++ strings2)),
    (get_strings_from_empty strings1), (get_strings_from_empty strings2).
  destruct (body (get_strings [] query).2) as [| |d0 c0 f| | |] eqn:Hb;
    simpl; try done.
  rewrite List.filter_app. repeat split.
  rewrite (get_strings_from_empty (_ ++ _)), Hb. simpl.
  by rewrite <- List.filter_app, filter_idempotent.
Qed.

Lemma satisfies_conflict (f : Filters.t) (item : StringRecord.t) :
  conflicting f = true -> satisfies f item = false.
Proof.
  unfold conflicting, satisfies.
  destruct (Filters.min_length f) as [lo|]; [|done].
  destruct (Filters.max_length f) as [hi|]; [|done].
  intros Hc.
  destruct (Properties.length (properties item) >=? lo) eqn:Hlo;
    destruct (Properties.length (properties item) <=? hi) eqn:Hhi;
    rewrite ?andb_false_r, ?andb_false_l; try done; try by destruct (match Filters.is_palindrome f with Some _ => _ | None => _ end).
  lia.
Qed.

(** X8: the structured handler never answers 422: it answers 200 or 400,
    and bounds of the query that contradict each other ([min_length] above
    [max_length], both below 2^53 in magnitude) are applied as they are, so
    that the answer is 200 with both bounds reported and no record. *)
Theorem listing_ignores_conflicts (strings : Store) (query : Query.t)
    (vlo vhi : jsstring) (lo hi : Z) :
  (status (get_strings strings query).2 = 200
   \/ status (get_strings strings query).2 = 400)
  /\ (valid_query query ->
      Query.min_length query = Some vlo -> integer_like vlo lo ->
      Query.max_length query = Some vhi -> integer_like vhi hi ->
      Z.abs lo < 2 ^ 53 -> Z.abs hi < 2 ^ 53 -> lo > hi ->
      exists f,
        get_strings strings query
        = (strings, {| status := 200; body := CollectionBody [] 0 f |})
        /\ Filters.min_length f = Some lo /\ Filters.max_length f = Some hi).
Proof.
  split.
  { destruct (get_strings_cases strings query) as [[msg ->] | ->]; simpl; auto. }
  intros Hvalid Hmn Hlo Hmx Hhi _ _ Hconflict.
  destruct (get_strings_cases strings query) as [[msg Hr] | Hr].
  { apply (get_strings_valid strings) in Hvalid. by rewrite Hr in Hvalid. }
  rewrite Hr. cbv zeta.
  pose proof (apply_filters_asks strings query Hvalid) as (_ & Hfmn & Hfmx & _).
  pose proof (apply_filters_conjunctive strings (Query.is_palindrome query)
                (parseIntOrNull (Query.min_length query))
                (parseIntOrNull (Query.max_length query))
                (parseIntOrNull (Query.word_count query))
                (Query.contains_character query)) as Hdata.
  destruct (apply_filters _ _ _ _ _ _) as [data f]. simpl in *.
  rewrite Hmn in Hfmn. rewrite Hmx in Hfmx. simpl in Hfmn, Hfmx.
  destruct Hfmn as (lo' & Hlo' & Hflo). destruct Hfmx as (hi' & Hhi' & Hfhi).
  apply parseInt10_spec in Hlo, Hlo', Hhi, Hhi'.
  assert (lo' = lo) as -> by congruence.
  assert (hi' = hi) as -> by congruence.
  exists f. split; [| done].
  assert (Hc : conflicting f = true).
  { unfold conflicting. rewrite Hflo, Hfhi. by apply Z.gtb_lt, Z.gt_lt. }
  assert (Hnil : forall l : Store, List.filter (satisfies f) l = []).
  { induction l as [|x l IH]; simpl; [done |]. by rewrite satisfies_conflict. }
  by rewrite Hdata, Hnil.
Qed.
(** X9: for an ASCII character, the [contains_character] filter does
    not depend on its case: the handler gives the same answer for the
    character and for its lower-case form. *)
Theorem contains_character_ignores_case
    (strings : Store) (query : Query.t) (c : N) :
  isAscii c = true ->
  get_strings strings (with_contains_character query [c])
  = get_strings strings (with_contains_character query [lower_unit c]).
Proof.
  intros Hc.
  assert (Hl : isAscii (lower_unit c) = true).
  { unfold isAscii, lower_unit, in_range in *.
    destruct ((65 <=? c)%N && (c <=? 90)%N) eqn:Hr; [|done].
    apply andb_true_iff in Hr as [_ Hr]. apply N.leb_le in Hr.
    apply N.ltb_lt. lia. }
  assert (Hll : lower_unit (lower_unit c) = lower_unit c).
  { unfold lower_unit, in_range.
    destruct ((65 <=? c)%N && (c <=? 90)%N) eqn:Hr; [|by rewrite Hr].
    apply andb_true_iff in Hr as [Hr1 Hr2].
    apply N.leb_le in Hr1, Hr2.
    replace ((c + 32 <=? 90)%N) with false by (symmetry; apply N.leb_gt; lia).
    by rewrite andb_false_r. }
  unfold get_strings, apply_filters, with_contains_character. simpl.
  rewrite (toLowerCase_ascii [c]) by (simpl; by rewrite Hc).
  rewrite (toLowerCase_ascii [lower_unit c]) by (simpl; by rewrite Hl).
  simpl. by rewrite Hll.
Qed.
End ListingAlgebra.

(** ** The regular-expression matcher *)

Lemma star_cls_through (p : N -> bool) (k : Cont) (prev rest : jsstring)
    (caps m : Captures) :
  star_cls p k prev rest caps = Some m ->
  exists t rest',
    rest = t ++ rest' /\ Forall (fun c => p c = true) t
    /\ k (rev t ++ prev) rest' caps = Some m.
Proof.
  revert prev. induction rest as [|c rest IH]; intros prev; simpl.
  - intros Hk. exists [], []. by repeat split.
  - destruct (p c) eqn:Hc.
    + destruct (star_cls p k (c :: prev) rest caps) as [m'|] eqn:Hs.
      * intros [= <-]. destruct (IH _ Hs) as (t & rest' & -> & Ht & Hk).
        exists (c :: t), rest'. repeat split; [by constructor |].
        simpl. by rewrite <- app_assoc.
      * intros Hk. exists [], (c :: rest). by repeat split.
    + intros Hk. exists [], (c :: rest). by repeat split.
Qed.

Lemma rplus_through (c : cls) (k : Cont) (prev rest : jsstring)
    (caps m : Captures) :
  rmatch (RPlus c) k prev rest caps = Some m ->
  exists t rest',
    rest = t ++ rest' /\ t <> [] /\ Forall (fun x => cls_match c x = true) t
    /\ k (rev t ++ prev) rest' caps = Some m.
Proof.
  simpl. destruct rest as [|x rest]; [done |].
  destruct (cls_match c x) eqn:Hx; [|done].
  intros (t & rest' & -> & Ht & Hk)%star_cls_through.
  exists (x :: t), rest'. repeat split; [done | by constructor |].
  simpl. by rewrite <- app_assoc.
Qed.

(** Every match of [r] reaches the continuation, after some text [t] of
    the input, with captures added for groups of [r] only. *)
Lemma rmatch_through (r : regex) :
  forall (k : Cont) (prev rest : jsstring) (caps m : Captures),
    rmatch r k prev rest caps = Some m ->
    exists t rest' extra,
      rest = t ++ rest'
      /\ Forall (fun e => e.1 ∈ groups_of r) extra
      /\ k (rev t ++ prev) rest' (extra ++ caps) = Some m.
Proof.
  induction r as [s | c | c | c | r IH | r1 IH1 r2 IH2 | r1 IH1 r2 IH2
                 | n r IH | ]; intros k prev rest caps m.
  - intros (rest' & -> & Hk)%rstr_sound. exists s, rest', []. by repeat split.
  - simpl. destruct rest as [|x rest]; [done |].
    destruct (cls_match c x); [|done]. intros Hk.
    exists [x], rest, []. by repeat split.
  - simpl. intros (t & rest' & -> & _ & Hk)%star_cls_through.
    exists t, rest', []. by repeat split.
  - intros (t & rest' & -> & _ & _ & Hk)%rplus_through.
    exists t, rest', []. by repeat split.
  - simpl. destruct (rmatch r k prev rest caps) as [m'|] eqn:Hr.
    + intros [= <-]. by apply IH.
    + intros Hk. exists [], rest, []. by repeat split.
  - rewrite rmatch_seq.
    intros (t1 & rest1 & e1 & -> & He1 & Hk)%IH1.
    apply IH2 in Hk as (t2 & rest2 & e2 & -> & He2 & Hk).
    exists (t1 ++ t2), rest2, (e2 ++ e1). split; [by rewrite app_assoc |].
    split.
    + apply Forall_app. split; eapply Forall_impl; eauto; simpl;
        intros ? ?; apply elem_of_app; auto.
    + by rewrite rev_app_distr, <- !app_assoc.
  - rewrite rmatch_alt. destruct (rmatch r1 k prev rest caps) as [m'|] eqn:Hr.
    + intros [= <-]. apply IH1 in Hr as (t & rest' & e & -> & He & Hk).
      exists t, rest', e. repeat split; [|done].
      eapply Forall_impl; eauto; simpl; intros ? ?; apply elem_of_app; auto.
    + intros (t & rest' & e & -> & He & Hk)%IH2.
      exists t, rest', e. repeat split; [|done].
      eapply Forall_impl; eauto; simpl; intros ? ?; apply elem_of_app; auto.
  - rewrite rmatch_group.
    intros (t & rest' & e & -> & He & Hk)%IH.
    rewrite consumed_app in Hk.
    exists t, rest', ((n, t) :: e). repeat split; [|done].
    constructor; [by left |].
    eapply Forall_impl; eauto; simpl; intros ? ?; by right.
  - rewrite rmatch_wordb. destruct (word_boundary prev rest); [|done].
    intros Hk. exists [], rest, []. by repeat split.
Qed.

Lemma group_skip (n : nat) (extra caps : Captures) :
  Forall (fun e => e.1 <> n) extra -> group n (extra ++ caps) = group n caps.
Proof.
  induction 1 as [|[i t] extra Hi _ IH]; simpl; [done |].
  simpl in Hi. by rewrite (proj2 (Nat.eqb_neq i n) Hi).
Qed.

(** A search that can match somewhere finds a match. *)
Lemma search_defined (r : regex) (pre rest prev : jsstring) :
  defined (rmatch r (accept (rev pre ++ prev)) (rev pre ++ prev) rest []) = true ->
  defined (search r prev (pre ++ rest)) = true.
Proof.
  revert prev. induction pre as [|c pre IH]; intros prev Hm.
  - simpl in *. destruct rest; simpl;
      by destruct (rmatch r (accept prev) prev _ []).
  - simpl app. cbn [search].
    destruct (rmatch r (accept prev) prev (c :: pre ++ rest) []); [done |].
    apply IH. simpl in Hm. by rewrite <- app_assoc in Hm.
Qed.

Lemma span_split (p : N -> bool) (s : jsstring) :
  exists t rest,
    s = t ++ rest /\ Forall (fun c => p c = true) t
    /\ match rest with c :: _ => p c = false | [] => True end.
Proof.
  induction s as [|c s (t & rest & -> & Ht & Hrest)].
  - exists [], []. by repeat split.
  - destruct (p c) eqn:Hc.
    + exists (c :: t), rest. repeat split; [by constructor | done].
    + exists [], (c :: t ++ rest). by repeat split.
Qed.

(** X10: the "palindrome" recognizer fires exactly when the lower-cased
    phrase has "palindrom" at a word start, that is at the beginning or
    right after a code unit that is not a letter, a digit or an underscore;
    what follows "palindrom" never prevents the match. *)
Theorem palindrome_recognizer (s : jsstring) :
  test Re.palindrome s = true <->
  exists pre post, s = pre ++ js "palindrom" ++ post /\ word_start pre = true.
Proof.
  unfold test, str_match. split.
  - destruct (search Re.palindrome [] s) as [m|] eqn:Hs; [|done]. intros _.
    apply search_Some in Hs as (pre & rest & -> & Hm & _).
    rewrite app_nil_r in Hm. unfold Re.palindrome in Hm.
    rewrite rmatch_seq, rmatch_wordb in Hm.
    destruct (word_boundary (rev pre) rest) eqn:Hb; [|done].
    rewrite rmatch_seq in Hm.
    apply rstr_sound in Hm as (post & -> & _).
    exists pre, post. split; [done |].
    rewrite <- Hb. symmetry. by apply word_boundary_word_start.
  - intros (pre & post & -> & Hstart).
    apply (search_defined _ pre _ []). rewrite app_nil_r.
    unfold Re.palindrome.
    rewrite rmatch_seq, rmatch_wordb, word_boundary_word_start, Hstart by done.
    rewrite rmatch_seq, rmatch_str_app.
    destruct (span_split isWordChar post) as (w & rest & -> & Hw & Hrest).
    assert (Hend : word_boundary (rev w ++ rev (js "palindrom") ++ rev pre) rest
                   = true).
    { unfold word_boundary.
      assert (Hprev : match rev w ++ rev (js "palindrom") ++ rev pre with
                      | c :: _ => isWordChar c | [] => false end = true).
      { destruct w as [|x w _] using rev_ind; [done |].
        rewrite rev_app_distr. simpl.
        apply Forall_app in Hw as [_ Hx]. by inversion Hx. }
      rewrite Hprev. destruct rest as [|c rest]; [done |]. by rewrite Hrest. }
    cbn [rmatch]. change (cls_match CWord) with isWordChar.
    rewrite star_cls_greedy; [by rewrite Hend | done | done |].
    by rewrite Hend.
Qed.

(** ** What the translator can answer *)

Lemma no_groups_nil (extra : Captures) :
  Forall (fun e => e.1 ∈ @nil nat) extra -> extra = [].
Proof.
  destruct 1 as [|e extra He _]; [done |]. by apply elem_of_nil in He.
Qed.

Lemma digits_value_nonneg (ds : jsstring) :
  Forall (fun c => isDigit c = true) ds -> 0 <= digits_value ds.
Proof.
  unfold digits_value.
  assert (Hgen : forall acc, 0 <= acc ->
            Forall (fun c => isDigit c = true) ds ->
            0 <= foldl (fun acc c => acc * 10 + (Z.of_N c - 48)) acc ds).
  { induction ds as [|d ds IH]; intros acc Hacc Hds; simpl; [done |].
    inversion Hds as [|? ? Hd Hds']; subst. apply IH; [|done].
    unfold isDigit, in_range in Hd.
    apply andb_true_iff in Hd as [Hd _]. apply N.leb_le in Hd. lia. }
  by apply Hgen.
Qed.

(** The letter the "contains" expression captures is one ASCII letter. *)
Lemma letter_capture (s : jsstring) (m : Captures) :
  str_match s Re.letter = Some m ->
  exists x, group 1 m = Some [x] /\ isLetter x = true.
Proof.
  intros (pre & rest & _ & Hm & _)%search_Some.
  unfold Re.letter in Hm. rewrite rmatch_seq in Hm.
  apply rmatch_through in Hm as (t0 & rest0 & e0 & _ & He0 & Hm).
  apply no_groups_nil in He0 as ->. rewrite rmatch_seq in Hm.
  apply rmatch_through in Hm as (t1 & rest1 & e1 & _ & He1 & Hm).
  apply no_groups_nil in He1 as ->. rewrite rmatch_seq in Hm.
  apply rmatch_through in Hm as (t2 & rest2 & e2 & _ & He2 & Hm).
  apply no_groups_nil in He2 as ->.
  rewrite rmatch_seq, rmatch_group in Hm. cbn [rmatch] in Hm.
  destruct rest2 as [|x rest2]; [done |].
  change (cls_match CLetter x) with (isLetter x) in Hm.
  destruct (isLetter x) eqn:Hx; [|done].
  destruct (word_boundary _ rest2); [|done].
  unfold accept in Hm. injection Hm as <-.
  exists x. split; [|done]. simpl.
  change (x :: ?p) with (rev [x] ++ p). by rewrite consumed_app.
Qed.

(** The number the word-count expression captures is a run of digits. *)
Lemma n_words_capture (s : jsstring) (m : Captures) :
  str_match s Re.n_words = Some m ->
  exists ds, group 1 m = Some ds /\ Forall (fun c => isDigit c = true) ds.
Proof.
  intros (pre & rest & _ & Hm & _)%search_Some.
  unfold Re.n_words in Hm. rewrite rmatch_seq, rmatch_wordb in Hm.
  destruct (word_boundary _ rest); [|done].
  rewrite rmatch_seq, rmatch_group in Hm.
  apply rplus_through in Hm as (ds & rest1 & _ & _ & Hds & Hm).
  rewrite consumed_app in Hm.
  apply rmatch_through in Hm as (t & rest2 & extra & _ & He & Hm).
  unfold accept in Hm. injection Hm as <-.
  exists ds. split; [|done]. simpl.
  rewrite group_skip; [simpl; done |].
  eapply Forall_impl; [exact He |]. simpl. intros e Hin.
  apply list_elem_of_singleton in Hin. lia.
Qed.

Lemma lower_letter (x : N) :
  isLetter x = true ->
  isAscii x = true /\ isLowerLetter (lower_unit x) = true
  /\ lower_unit (lower_unit x) = lower_unit x.
Proof.
  unfold isLetter, isAscii, isLowerLetter, lower_unit, in_range.
  rewrite orb_true_iff, !andb_true_iff, !N.leb_le, N.ltb_lt. intros Hx.
  destruct ((65 <=? x)%N && (x <=? 90)%N) eqn:Hr.
  - apply andb_true_iff in Hr as [H1 H2]. apply N.leb_le in H1, H2.
    replace ((65 <=? x + 32)%N && (x + 32 <=? 90)%N) with false
      by (symmetry; apply andb_false_iff; right; apply N.leb_gt; lia).
    repeat split; try lia; apply N.leb_le; lia.
  - rewrite Hr. apply andb_false_iff in Hr.
    rewrite !N.leb_gt in Hr. repeat split; try lia; apply N.leb_le; lia.
Qed.

Section TranslatorAnswers.
Context `{Host}.

(** Each field of the translation, from the matches of the recognizers. *)
Lemma parse_fields (q : jsstring) (parsed : Filters.t) :
  parseNaturalLanguageQuery q = Some parsed ->
  let s := toLowerCase q in
  Filters.is_palindrome parsed
  = (if test Re.palindrome s then Some true else None)
  /\ Filters.word_count parsed
     = match str_match s Re.n_words with
       | Some m => Some (Number_group 1 m)
       | None =>
           if test Re.single_word s || test Re.word_count_is_1 s
           then Some 1 else None
       end
  /\ Filters.min_length parsed
     = (fun m => Number_group 1 m + 1) <$> str_match s Re.longer
  /\ Filters.max_length parsed
     = (fun m => Number_group 2 m - 1) <$> str_match s Re.shorter
  /\ Filters.contains_character parsed
     = (fun m => toLowerCase (default [] (group 1 m)))
         <$> str_match s Re.letter.
Proof.
  intros Hp s. unfold parseNaturalLanguageQuery in Hp. fold s in Hp.
  destruct (test Re.single_word s || _), (str_match s Re.n_words),
    (test Re.palindrome s), (str_match s Re.longer), (str_match s Re.shorter),
    (str_match s Re.letter); simpl in Hp; try done;
    injection Hp as <-; done.
Qed.

Lemma parsed_character (q : jsstring) (parsed : Filters.t) (c : jsstring) :
  parseNaturalLanguageQuery q = Some parsed ->
  Filters.contains_character parsed = Some c ->
  exists x, c = [x] /\ isLowerLetter x = true /\ toLowerCase c = c.
Proof.
  intros Hp Hc. destruct (parse_fields q parsed Hp) as (_ & _ & _ & _ & Hcc).
  rewrite Hc in Hcc.
  destruct (str_match (toLowerCase q) Re.letter) as [m|] eqn:Hm; [|done].
  simpl in Hcc. injection Hcc as ->.
  destruct (letter_capture _ _ Hm) as (x & -> & Hx). simpl.
  destruct (lower_letter x Hx) as (Ha & Hl & Hll).
  rewrite (toLowerCase_ascii [x]) by (simpl; by rewrite Ha). simpl.
  exists (lower_unit x). repeat split; [done |].
  rewrite (toLowerCase_ascii [lower_unit x]).
  - simpl. by rewrite Hll.
  - simpl. unfold isAscii, isLowerLetter, in_range in *.
    apply andb_true_iff in Hl as [_ Hl]. apply N.leb_le in Hl.
    rewrite andb_true_r. apply N.ltb_lt. lia.
Qed.

(** X11: whatever the phrase, a translation never asks for
    non-palindromes, its [word_count] is never negative, its [min_length]
    is at least 1 and its [max_length] at least -1, and its
    [contains_character] is exactly one lower-case ASCII letter. *)
Theorem translation_bounds (q : jsstring) :
  match parseNaturalLanguageQuery q with
  | Some parsed =>
      Filters.is_palindrome parsed <> Some false
      /\ (forall n, Filters.word_count parsed = Some n -> 0 <= n)
      /\ (forall n, Filters.min_length parsed = Some n -> 1 <= n)
      /\ (forall n, Filters.max_length parsed = Some n -> -1 <= n)
      /\ (forall c, Filters.contains_character parsed = Some c ->
                    exists x, c = [x] /\ isLowerLetter x = true)
  | None => True
  end.
Proof.
  destruct (parseNaturalLanguageQuery q) as [parsed|] eqn:Hp; [|done].
  destruct (parse_fields q parsed Hp) as (Hpal & Hwc & Hmin & Hmax & _).
  split; [|split; [|split; [|split]]].
  - rewrite Hpal. by destruct (test Re.palindrome (toLowerCase q)).
  - intros n Hn. rewrite Hn in Hwc.
    destruct (str_match (toLowerCase q) Re.n_words) as [m|] eqn:Hm.
    + injection Hwc as ->.
      destruct (n_words_capture _ _ Hm) as (ds & Hg & Hds).
      unfold Number_group. rewrite Hg. by apply digits_value_nonneg.
    + destruct (test Re.single_word _ || _); [|done].
      injection Hwc as ->. lia.
  - intros n Hn. rewrite Hn in Hmin.
    destruct (str_match (toLowerCase q) Re.longer) as [m|] eqn:Hm; [|done].
    injection Hmin as ->.
    destruct (match_first_numbered _ _ _ _ _ longer_numbered Hm)
      as (pre & ds & post & (_ & _ & _ & Hds & _) & Hg).
    unfold Number_group. rewrite Hg. simpl.
    pose proof (digits_value_nonneg ds Hds). lia.
  - intros n Hn. rewrite Hn in Hmax.
    destruct (str_match (toLowerCase q) Re.shorter) as [m|] eqn:Hm; [|done].
    injection Hmax as ->.
    destruct (match_first_numbered _ _ _ _ _ shorter_numbered Hm)
      as (pre & ds & post & (_ & _ & _ & Hds & _) & Hg).
    unfold Number_group. rewrite Hg. simpl.
    pose proof (digits_value_nonneg ds Hds). lia.
  - intros c Hc. destruct (parsed_character q parsed c Hp Hc) as (x & ? & ? & _).
    eauto.
Qed.

(** X12: on a phrase it can parse without conflict, the
    natural-language handler answers 200 with exactly the records of the
    store that satisfy the parsed filters, in store order, and their count;
    it answers the conflict error only when no record could satisfy the
    parsed filters; and it never changes the store. *)
Theorem natural_language_applies_parsed_filters
    (strings : Store) (c : N) (q' : jsstring) :
  let q := c :: q' in
  let result := get_filter_by_natural_language strings (Some q) in
  result.1 = strings
  /\ match body result.2 with
     | InterpretedBody data count original parsed =>
         parseNaturalLanguageQuery q = Some parsed /\ original = q
         /\ data = List.filter (satisfies parsed) strings
         /\ count = Z.of_nat (length data)
         /\ data `sublist_of` strings
     | ConflictBody _ original parsed =>
         parseNaturalLanguageQuery q = Some parsed /\ original = q
         /\ List.filter (satisfies parsed) strings = []
     | ErrorBody _ => parseNaturalLanguageQuery q = None
     | _ => False
     end.
Proof.
  intros q result. split; [apply natural_language_store |].
  subst result q. unfold get_filter_by_natural_language. cbv beta iota.
  destruct (parseNaturalLanguageQuery (c :: q')) as [parsed|] eqn:Hp; [|done].
  destruct (conflicting parsed) eqn:Hc; simpl.
  { repeat split.
    induction strings as [|x strings IH]; simpl; [done |].
    by rewrite satisfies_conflict. }
  destruct (parse_fields _ parsed Hp) as (Hpal & _).
  assert (Hcc : forall c0, Filters.contains_character parsed = Some c0 ->
                           toLowerCase c0 = c0).
  { intros c0 Hc0.
    by destruct (parsed_character _ parsed c0 Hp Hc0) as (x & _ & _ & ?). }
  clear Hp Hc. destruct parsed as [ip mn mx wc cc]. simpl in *.
  split; [done |]. split; [done |].
  match goal with
  | |- ?R = ?F /\ _ => assert (HR : R = F)
  end.
  { unfold satisfies. simpl.
    destruct cc as [c0|]; [rewrite (Hcc c0 eq_refl) |];
      (destruct ip as [[|]|];
       [| by destruct (test Re.palindrome _) |]);
      destruct mx, mn, wc;
      rewrite ?filter_filter_andb;
      try lazymatch goal with
          | |- strings = _ => rewrite <- (filter_true strings) at 1
          end;
      apply filter_ext_eq; intros x; btauto. }
  rewrite HR. repeat split. apply filter_sublist_of.
Qed.
End TranslatorAnswers.

(** ** Routing *)

(** A route of two literal segments is never reached after the route that
    has a parameter in the place of the second literal. *)
Lemma literal_after_parameter (a b : jsstring) (path l : list jsstring) :
  b <> [] -> path_match [Lit a; Lit b] path = Some l ->
  exists l', path_match [Lit a; Param] path = Some l'.
Proof.
  intros Hb. destruct path as [|x [|y [|z path]]]; cbn [path_match]; try done.
  - by destruct (str_eqb _ _).
  - destruct (str_eqb (map lower_unit x) _); [|done].
    destruct (str_eqb (map lower_unit y) _) eqn:Hy; [|done].
    destruct y as [|c y]; [|by eauto].
    apply str_eqb_eq in Hy. by destruct b.
  - destruct (str_eqb (map lower_unit x) _); [|done].
    by destruct (str_eqb (map lower_unit y) _), y.
Qed.

Lemma resolve_never_natural (m : Method) (path : list jsstring)
    (params : list jsstring) :
  resolve routes m path <> Some (HNatural, params)
  /\ resolve routes_variant1 m path <> Some (HNatural, params).
Proof.
  unfold routes, routes_variant1.
  destruct m; cbn [resolve method_eqb];
    repeat match goal with
           | |- context [match path_match ?p ?q with _ => _ end] =>
               destruct (path_match p q) eqn:?
           end;
    try (split; congruence);
    match goal with
    | Hn : path_match [Lit ?a; Param] path = None,
      Hs : path_match [Lit ?a; Lit ?b] path = Some _ |- _ =>
        destruct (literal_after_parameter a b path _ ltac:(discriminate) Hs);
        congruence
    end.
Qed.

Section Routing.
Context `{Host}.

(** X13: in server.js (and in the second variant) the lookup route
    [/strings/:string_value] is registered before the natural-language
    route, so it takes every [GET /strings/<segment>] request: no request
    resolves to the natural-language handler, a request for
    [/strings/filter-by-natural-language] is answered by the lookup of the
    string "filter-by-natural-language", and no answer of the application
    carries an interpreted query.  In the first variant the
    natural-language route comes first and is reached. *)
Theorem natural_language_route_shadowed (strings : Store) (req : Request) :
  (forall m path params,
     resolve routes m path <> Some (HNatural, params)
     /\ resolve routes_variant1 m path <> Some (HNatural, params))
  /\ (forall seg, seg <> [] ->
        resolve routes GET [js "strings"; seg] = Some (HGetOne, [seg]))
  /\ (req_method req = GET ->
      req_path req = [js "strings"; js "filter-by-natural-language"] ->
      application strings req
      = answered (get_string strings (js "filter-by-natural-language")))
  /\ match (application strings req).2 with
     | Answered r =>
         match body r with
         | InterpretedBody _ _ _ _ | ConflictBody _ _ _ => False
         | _ => True
         end
     | _ => True
     end
  /\ resolve routes_variant0 GET [js "strings"; js "filter-by-natural-language"]
     = Some (HNatural, []).
Proof.
  split; [intros; apply resolve_never_natural |].
  split; [intros [|c seg] Hne; [done | reflexivity] |].
  split; [intros Hm Hp; unfold application; by rewrite Hm, Hp |].
  split; [|reflexivity].
  unfold application, answered.
  destruct (resolve routes (req_method req) (req_path req))
    as [[[] params]|] eqn:Hr; simpl; try done.
  - unfold post_strings. destruct (req_value req) as [|v|]; try done.
    by destruct (defined (findByValue strings v)).
  - unfold get_string. by destruct (findByValue strings _).
  - by destruct (get_strings_cases strings (req_params req)) as [[msg ->] | ->].
  - by apply resolve_never_natural in Hr.
  - unfold delete_string. by destruct (findIndex _ strings).
Qed.
End Routing.

(** ** The natural-language handler of the second variant *)

Section VariantNaturalLanguage.
Context `{Host}.

Lemma gtb_geb_succ (a b : Z) : (a >? b) = (a >=? b + 1).
Proof.
  destruct (Z.gtb_spec a b), (Z.geb_spec a (b + 1)); try done; lia.
Qed.

(** X14: the natural-language handler of the second variant never
    changes the store and never answers a phrase as unparseable: it filters
    by whatever it recognizes and answers 200 with the records that satisfy
    the filters it reports, or 422 when there is none, so that on the empty
    store every phrase is answered 422, and a phrase in which it recognizes
    nothing is answered with the whole store. *)
Theorem variant_natural_language (strings : Store) (c : N) (q' : jsstring) :
  let q := c :: q' in
  let result := Variant1.get_filter_by_natural_language strings (Some q) in
  result.1 = strings
  /\ match body result.2 with
     | InterpretedBody data count original parsed =>
         status result.2 = 200 /\ original = q /\ data <> []
         /\ data = List.filter (satisfies parsed) strings
         /\ count = Z.of_nat (length data)
         /\ (Filters.keys_length parsed = 0%nat -> data = strings)
     | ConflictBody _ original parsed =>
         status result.2 = 422 /\ original = q
         /\ List.filter (satisfies parsed) strings = []
     | _ => False
     end
  /\ status (Variant1.get_filter_by_natural_language [] (Some q)).2 = 422.
Proof.
  intros q result. subst result q.
  unfold Variant1.get_filter_by_natural_language. cbv beta iota zeta.
  set (s := toLowerCase (c :: q')).
  assert (Hgen : forall strings0 : Store,
    let '(r1, f1) :=
      if includes s (js "palindrome")
      then (List.filter (fun item => Properties.is_palindrome (properties item)) strings0,
            Filters.set_is_palindrome true Filters.empty)
      else (strings0, Filters.empty) in
    let '(r2, f2) :=
      match str_match s Variant1.single_word with
      | Some _ => (List.filter (fun item => Properties.word_count (properties item) =? 1) r1,
                   Filters.set_word_count 1 f1)
      | None => (r1, f1)
      end in
    let '(r3, f3) :=
      match str_match s Variant1.longer with
      | Some m => (List.filter (fun item => Properties.length (properties item) >? Number_group 1 m) r2,
                   Filters.set_min_length (Number_group 1 m + 1) f2)
      | None => (r2, f2)
      end in
    let '(r4, f4) :=
      match str_match s Variant1.contains with
      | Some m => (List.filter (fun item => includes (toLowerCase (value item))
                                                     (toLowerCase (default [] (group 1 m)))) r3,
                   Filters.set_contains_character (toLowerCase (default [] (group 1 m))) f3)
      | None => (r3, f3)
      end in
    r4 = List.filter (satisfies f4) strings0
    /\ (Filters.keys_length f4 = 0%nat -> r4 = strings0)).
  { intros strings0.
    destruct (includes s (js "palindrome")), (str_match s Variant1.single_word),
      (str_match s Variant1.longer), (str_match s Variant1.contains);
      cbv beta iota zeta; (split; [| try discriminate; done]);
      rewrite ?filter_filter_andb;
      try lazymatch goal with
          | |- strings0 = _ => rewrite <- (filter_true strings0) at 1
          end;
      apply filter_ext_eq; intros x; unfold satisfies; simpl;
      rewrite ?gtb_geb_succ;
      destruct (Properties.is_palindrome (properties x)); simpl; btauto. }
  split; [|split].
  - destruct (includes s _), (str_match s Variant1.single_word),
      (str_match s Variant1.longer), (str_match s Variant1.contains);
      cbv beta iota zeta;
      match goal with |- context [(length ?l =? 0)%nat] =>
        by destruct (length l =? 0)%nat end.
  - specialize (Hgen strings).
    destruct (includes s _), (str_match s Variant1.single_word),
      (str_match s Variant1.longer), (str_match s Variant1.contains);
      cbv beta iota zeta in *;
      destruct Hgen as [Hdata Hall];
      match goal with |- context [(length ?l =? 0)%nat] =>
        destruct (length l =? 0)%nat eqn:Hlen;
        [ apply Nat.eqb_eq in Hlen | apply Nat.eqb_neq in Hlen ];
        simpl; rewrite <- ?Hdata; repeat split; try done;
        try (by destruct l);
        try (intros Hnil; rewrite Hnil in Hlen; by simpl in Hlen)
      end.
  - destruct (includes s _), (str_match s Variant1.single_word),
      (str_match s Variant1.longer), (str_match s Variant1.contains); done.
Qed.
End VariantNaturalLanguage.

(** ** More on the analyzer *)

Lemma count_chars_lookup (s k : jsstring) :
  count_chars s !! k
  = match occurrences k (string_iter s) with
    | O => None
    | S n => Some (Z.of_nat (S n))
    end.
Proof.
  unfold count_chars. rewrite lookup_foldl_counts, lookup_empty.
  destruct (occurrences _ _); [done |]. simpl. f_equal; lia.
Qed.

Lemma count_chars_dom (s : jsstring) :
  dom (count_chars s) = (list_to_set (string_iter s) : gset jsstring).
Proof.
  apply set_eq. intros k.
  rewrite elem_of_dom, elem_of_list_to_set, count_chars_lookup.
  destruct (occurrences k (string_iter s)) eqn:Ho.
  - apply occurrences_elem_of in Ho. split; [by intros [] | done].
  - split; [|eauto]. intros _.
    destruct (decide (k ∈ string_iter s)) as [|Hn]; [done |].
    apply occurrences_elem_of in Hn. congruence.
Qed.

Lemma occurrences_le (k : jsstring) (l : list jsstring) :
  (occurrences k l <= length l)%nat.
Proof.
  unfold occurrences. induction l as [|x l IH]; simpl; [done |].
  destruct (str_eqb k x); simpl; lia.
Qed.

Lemma remove_dups_length {A} `{EqDecision A} (l : list A) :
  (length (remove_dups l) <= length l)%nat
  /\ (remove_dups l = [] -> l = []).
Proof.
  induction l as [|x l [IH1 IH2]]; simpl; [done |].
  destruct (decide_rel elem_of x l) as [Hin|]; simpl.
  - split; [lia |]. intros Hnil. apply IH2 in Hnil. subst. inversion Hin.
  - split; [lia | done].
Qed.

Lemma string_iter_nil (s : jsstring) : string_iter s = [] -> s = [].
Proof.
  destruct s as [|c [|d s]]; simpl; try done.
  by destruct (isHighSurrogate c && isLowSurrogate d).
Qed.

Lemma words_from_app (cur s t : jsstring) (c : N) :
  isWhiteSpace c = true ->
  words_from cur (s ++ c :: t) = words_from cur s ++ words t.
Proof.
  intros Hc. revert cur. induction s as [|x s IH]; intros cur; simpl.
  - rewrite Hc. by destruct cur.
  - destruct (isWhiteSpace x); [destruct cur |]; simpl; by rewrite IH.
Qed.

Lemma words_from_bound (cur s : jsstring) :
  (2 * length (words_from cur s)
   <= length s + match cur with [] => 1 | _ => 2 end)%nat.
Proof.
  revert cur. induction s as [|x s IH]; intros cur; simpl.
  - destruct cur; simpl; lia.
  - destruct (isWhiteSpace x).
    + destruct cur; simpl; specialize (IH []); simpl in IH; lia.
    + specialize (IH (x :: cur)). simpl in IH. destruct cur; lia.
Qed.

Section AnalyzerBounds.
Context `{Host}.

Lemma word_count_words (now s : jsstring) :
  word_count (properties (analyzeString now s)) = Z.of_nat (length (words s)).
Proof.
  simpl. unfold split_ws. rewrite filter_split_ws by done.
  fold (words (trim s)). rewrite words_trim.
  destruct (Z.of_nat (length (trim s)) =? 0) eqn:Hz; [|done].
  apply Z.eqb_eq in Hz. rewrite <- (words_trim s).
  destruct (trim s); [done | simpl in Hz; lia].
Qed.

(** X15: [unique_characters] is the number of keys of
    [character_frequency_map]; it is at most [length] and is zero for the
    empty string only; every count in the map is at least 1 and at most
    [length]; and twice [word_count] is at most [length] plus one. *)
Theorem analysis_bounds (now s : jsstring) :
  let p := properties (analyzeString now s) in
  unique_characters p = Z.of_nat (size (character_frequency_map p))
  /\ 0 <= unique_characters p <= Properties.length p
  /\ (unique_characters p = 0 <-> s = [])
  /\ (forall k n, character_frequency_map p !! k = Some n ->
                  1 <= n <= Properties.length p)
  /\ 0 <= 2 * word_count p <= Properties.length p + 1.
Proof.
  intros p. subst p.
  assert (Hu : unique_characters (properties (analyzeString now s))
               = Z.of_nat (length (remove_dups (string_iter s)))).
  { simpl. by rewrite size_list_to_set_remove_dups. }
  pose proof (remove_dups_length (string_iter s)) as [Hle Hnil].
  pose proof (string_iter_length s) as Hlen.
  split; [|split; [|split; [|split]]].
  - simpl. by rewrite <- size_dom, count_chars_dom.
  - rewrite Hu. simpl. lia.
  - rewrite Hu. split.
    + intros Hz. apply string_iter_nil, Hnil.
      destruct (remove_dups (string_iter s)); [done | simpl in Hz; lia].
    + by intros ->.
  - intros k n. simpl. rewrite count_chars_lookup.
    pose proof (occurrences_le k (string_iter s)).
    destruct (occurrences k (string_iter s)); [done |].
    intros [= <-]. lia.
  - rewrite word_count_words. pose proof (words_from_bound [] s) as Hb.
    simpl in Hb. unfold words. simpl. lia.
Qed.

(** X16: the word counts of two strings add up when the strings are
    joined by a white-space code unit. *)
Theorem word_count_additive (now s t : jsstring) (c : N) :
  isWhiteSpace c = true ->
  word_count (properties (analyzeString now (s ++ c :: t)))
  = word_count (properties (analyzeString now s))
    + word_count (properties (analyzeString now t)).
Proof.
  intros Hc. rewrite !word_count_words. unfold words at 1.
  rewrite words_from_app by done. fold (words s).
  rewrite length_app. lia.
Qed.

(** X17: on ASCII strings the palindrome flag ignores case: it tells
    whether the string reads the same backwards once its capital letters
    are lower-cased, so two strings that differ in case only get the same
    flag, and a string followed by its reversal is a palindrome. *)
Theorem palindrome_ignores_ascii_case (now s t : jsstring) :
  forallb isAscii s = true -> forallb isAscii t = true ->
  is_palindrome (properties (analyzeString now s))
  = bool_decide (map lower_unit s = rev (map lower_unit s))
  /\ (map lower_unit s = map lower_unit t ->
      is_palindrome (properties (analyzeString now s))
      = is_palindrome (properties (analyzeString now t)))
  /\ is_palindrome (properties (analyzeString now (s ++ rev s))) = true.
Proof.
  intros Hs Ht.
  assert (Hflag : forall u, forallb isAscii u = true ->
            is_palindrome (properties (analyzeString now u))
            = bool_decide (map lower_unit u = rev (map lower_unit u))).
  { intros u Hu. simpl. unfold str_eqb.
    by rewrite join_rev_split_units, (toLowerCase_ascii u Hu). }
  split; [by apply Hflag |]. split.
  - intros Heq. rewrite !Hflag by done. by rewrite Heq.
  - rewrite Hflag.
    + apply bool_decide_eq_true.
      by rewrite map_app, rev_app_distr, !map_rev, rev_involutive.
    + rewrite forallb_app, Hs. simpl.
      rewrite forallb_forall in *. intros x Hx. apply Hs. by apply in_rev.
Qed.
End AnalyzerBounds.

(** ** The listing handler of the second variant *)

Lemma parseInt_plain (v : jsstring) :
  hex_prefixed v = false -> Variant1.parseInt v = parseInt10 v.
Proof.
  unfold hex_prefixed, Variant1.parseInt, parseInt10, Variant1.sign_of,
    Variant1.unsigned_part.
  destruct (Variant1.strip_hex_prefix _) eqn:Hs; [done |]. intros _.
  destruct (trimStart v) as [|c t]; [done |].
  destruct (c =? 45)%N; [done |]. by destruct (c =? 43)%N.
Qed.

Lemma parseInt10_empty : parseInt10 [] = None.
Proof. reflexivity. Qed.

Lemma take_hex_digits_run (ds rest : jsstring) :
  Forall (fun c => Variant1.isHexDigit c = true) ds ->
  match rest with c :: _ => Variant1.isHexDigit c = false | [] => True end ->
  Variant1.take_hex_digits (ds ++ rest) = ds.
Proof.
  intros Hds Hrest. induction Hds as [|c ds Hc _ IH]; simpl.
  - destruct rest as [|c rest]; [done |]. simpl. by rewrite Hrest.
  - by rewrite Hc, IH.
Qed.

Section VariantListing.
Context `{Host}.

(** X18: on a store that is not empty and a query whose parameters are
    not empty strings and have no hexadecimal prefix, the listing handler
    of the second variant answers as server.js does: the same status, and
    for 200 the same records, count and applied filters. *)
Theorem variant_listing_agrees (strings : Store) (query : Query.t) :
  strings <> [] -> plain_query query ->
  let variant := (Variant1.get_strings strings query).2 in
  let current := (get_strings strings query).2 in
  (Variant1.get_strings strings query).1 = strings
  /\ Variant1.listing_status variant = status current
  /\ match Variant1.listing_body variant, body current with
     | Variant1.Listing data count f message, CollectionBody data' count' f' =>
         data = data' /\ count = count' /\ f = lift_filters f'
         /\ message = None
     | Variant1.ListingError _, ErrorBody _ => True
     | _, _ => False
     end.
Proof.
  intros Hne (Hip & Hmn & Hmx & Hwc).
  destruct strings as [|r0 rs]; [done |]. clear Hne.
  destruct query as [ip mn mx wc cc]. simpl in Hip, Hmn, Hmx, Hwc.
  unfold Variant1.get_strings, get_strings, bad_request, Variant1.listing_error,
    apply_filters, parseIntOrNull.
  change ((length (r0 :: rs) =? 0)%nat) with false. cbv iota.
  set (strings := r0 :: rs).
  cbn [Query.is_palindrome Query.min_length Query.max_length Query.word_count
       Query.contains_character].
  destruct ip as [[|c0 vip]|]; [by destruct (Hip [] eq_refl) | |];
    cbn [Variant1.rejects];
    try (destruct (str_eqb (c0 :: vip) (js "true")),
           (str_eqb (c0 :: vip) (js "false")));
    cbn [negb orb]; try (by repeat split);
    (destruct mn as [[|c1 vmn]|];
     [by destruct (Hmn [] eq_refl)
     | cbn [Variant1.rejects defined];
       rewrite (parseInt_plain (c1 :: vmn)) by (by destruct (Hmn _ eq_refl));
       destruct (parseInt10 (c1 :: vmn))
     | ]);
    cbn [Variant1.rejects negb andb defined is_null]; try (by repeat split);
    (destruct mx as [[|c2 vmx]|];
     [by destruct (Hmx [] eq_refl)
     | cbn [Variant1.rejects defined];
       rewrite (parseInt_plain (c2 :: vmx)) by (by destruct (Hmx _ eq_refl));
       destruct (parseInt10 (c2 :: vmx))
     | ]);
    cbn [Variant1.rejects negb andb defined is_null]; try (by repeat split);
    (destruct wc as [[|c3 vwc]|];
     [by destruct (Hwc [] eq_refl)
     | cbn [Variant1.rejects defined];
       rewrite (parseInt_plain (c3 :: vwc)) by (by destruct (Hwc _ eq_refl));
       destruct (parseInt10 (c3 :: vwc))
     | ]);
    cbn [Variant1.rejects negb andb defined is_null]; try (by repeat split);
    (destruct cc as [c|]; [destruct (length c =? 1)%nat |]);
    cbn [negb]; by repeat split.
Qed.

(** X19: where the listing handler of the second variant is more
    lenient than server.js.  On the empty store it answers every query,
    valid or not, with 200 and no record.  On another store, a numeric
    parameter given as the empty string is not rejected but applied as
    [NaN], which no record passes, while server.js answers 400.  And a
    value with the prefix [0x] is read as a hexadecimal number (exactly so
    below 2^53), where server.js reads 0. *)
Theorem variant_listing_lenient (strings : Store) (query : Query.t)
    (ds rest : jsstring) :
  Variant1.get_strings [] query
  = ([], {| Variant1.listing_status := 200;
            Variant1.listing_body :=
              Variant1.Listing [] 0
                (Variant1.Build_AppliedFilters None None None None None)
                (Some (js "No records yet")) |})
  /\ (strings <> [] ->
      Query.min_length query = Some [] \/ Query.max_length query = Some []
      \/ Query.word_count query = Some [] ->
      match Variant1.listing_body (Variant1.get_strings strings query).2 with
      | Variant1.Listing data count _ _ => data = [] /\ count = 0
      | Variant1.ListingError _ => True
      end
      /\ status (get_strings strings query).2 = 400)
  /\ (ds <> [] -> Forall (fun c => Variant1.isHexDigit c = true) ds ->
      match rest with c :: _ => Variant1.isHexDigit c = false | [] => True end ->
      Variant1.hex_value ds < 2 ^ 53 ->
      Variant1.parseInt (js "0x" ++ ds ++ rest) = Some (Variant1.hex_value ds)
      /\ parseInt10 (js "0x" ++ ds ++ rest) = Some 0).
Proof.
  split; [reflexivity |]. split.
  - intros Hne Hempty. split.
    + destruct strings as [|r0 rs]; [done |].
      unfold Variant1.get_strings, Variant1.listing_error.
      change ((length (r0 :: rs) =? 0)%nat) with false. cbv iota.
      set (strings := r0 :: rs).
      destruct query as [ip mn mx wc cc]. simpl in Hempty.
      cbn [Query.is_palindrome Query.min_length Query.max_length
           Query.word_count Query.contains_character].
      assert (Hge : forall l : Store,
                List.filter (fun item => Variant1.ge_number
                               (Properties.length (properties item)) None) l = []).
      { induction l; simpl; done. }
      assert (Hle : forall l : Store,
                List.filter (fun item => Variant1.le_number
                               (Properties.length (properties item)) None) l = []).
      { induction l; simpl; done. }
      assert (Heq : forall l : Store,
                List.filter (fun item => Variant1.eq_number
                               (Properties.word_count (properties item)) None) l = []).
      { induction l; simpl; done. }
      destruct (Variant1.rejects ip _); [done |].
      destruct (Variant1.rejects mn _); [done |].
      destruct (Variant1.rejects mx _); [done |].
      destruct (Variant1.rejects wc _); [done |].
      destruct Hempty as [-> | [-> | ->]];
        destruct ip; try destruct mn; try destruct mx; try destruct wc;
        cbv beta iota zeta;
        change (Variant1.parseInt []) with (@None Z);
        rewrite ?Hge, ?Hle, ?Heq; cbn [List.filter];
        (destruct cc as [c|]; [destruct (length c =? 1)%nat |]);
        cbn [negb snd Variant1.listing_body List.filter length]; done.
    + destruct (get_strings_cases strings query) as [[msg ->] | Hok]; [done |].
      exfalso.
      assert (Hv : valid_query query).
      { apply (get_strings_valid strings). by rewrite Hok. }
      destruct Hv as (_ & Hmn & Hmx & Hwc & _).
      assert (Hno : forall n, ~ integer_like [] n).
      { intros n Hn. apply parseInt10_spec in Hn. by rewrite parseInt10_empty in Hn. }
      destruct Hempty as [He | [He | He]];
        [destruct (Hmn _ He) | destruct (Hmx _ He) | destruct (Hwc _ He)];
        by eapply Hno.
  - intros Hne Hds Hrest _. split.
    + unfold Variant1.parseInt.
      change (js "0x" ++ ds ++ rest) with (48%N :: 120%N :: (ds ++ rest)).
      change (Variant1.unsigned_part (48%N :: 120%N :: (ds ++ rest)))
        with (48%N :: 120%N :: (ds ++ rest)).
      change (Variant1.strip_hex_prefix (48%N :: 120%N :: (ds ++ rest)))
        with (Some (ds ++ rest)).
      change (Variant1.sign_of (48%N :: 120%N :: (ds ++ rest))) with 1.
      cbv beta iota zeta. rewrite take_hex_digits_run by done.
      destruct ds; [done |]. f_equal. lia.
    + reflexivity.
Qed.

(** X20: the analyzer of the variants, which counts the words without
    testing the trimmed length, builds the same record as [analyzeString]
    of server.js for every string, so the test is redundant; and the
    insertion handler of the second variant answers every request as the
    one of server.js does. *)
Theorem variant_analyzer_agrees (now : jsstring) (strings : Store)
    (v : jsstring) (body : JsonValue) :
  Variant1.analyzeString now v = analyzeString now v
  /\ Variant1.post_strings now strings body = post_strings now strings body.
Proof.
  assert (Han : forall u, Variant1.analyzeString now u = analyzeString now u).
  { intros u. unfold Variant1.analyzeString, analyzeString.
    destruct (Z.of_nat (length (trim u)) =? 0) eqn:Hlen; [| done].
    apply Z.eqb_eq in Hlen. destruct (trim u); [done | simpl in Hlen; lia]. }
  split; [apply Han |].
  destruct body as [| u |]; [done | | done].
  unfold Variant1.post_strings, post_strings, findByValue.
  cbv zeta. by rewrite Han.
Qed.
End VariantListing.

(** ** The first variant *)

Lemma lower_unit_idemp (a : N) : lower_unit (lower_unit a) = lower_unit a.
Proof.
  unfold lower_unit, in_range.
  destruct ((65 <=? a) && (a <=? 90))%N eqn:Hr; [| by rewrite Hr].
  apply andb_prop in Hr as [Hlo Hhi]. apply N.leb_le in Hlo, Hhi.
  assert (Hout : ((65 <=? a + 32) && (a + 32 <=? 90))%N = false).
  { apply andb_false_iff. right. apply N.leb_gt. lia. }
  by rewrite Hout.
Qed.

Lemma lower_unit_ascii (a : N) :
  isAscii a = true -> isAscii (lower_unit a) = true.
Proof.
  unfold isAscii, lower_unit, in_range. intros Ha.
  destruct ((65 <=? a) && (a <=? 90))%N eqn:Hr; [| done].
  apply andb_prop in Hr as [_ Hhi]. apply N.leb_le in Hhi.
  apply N.ltb_lt. lia.
Qed.

Lemma starts_with_map (f : N -> N) (t s : jsstring) :
  starts_with t s = true -> starts_with (map f t) (map f s) = true.
Proof.
  revert s. induction t as [|a t IH]; intros [|b s]; simpl; try done.
  intros Hab. apply andb_prop in Hab as [Hab Hts].
  apply N.eqb_eq in Hab as ->. by rewrite N.eqb_refl, IH.
Qed.

Lemma includes_map (f : N -> N) (s t : jsstring) :
  includes s t = true -> includes (map f s) (map f t) = true.
Proof.
  induction s as [|a s IH]; simpl.
  - rewrite !orb_false_r. apply (starts_with_map f t []).
  - intros Hst. apply orb_true_iff.
    apply orb_prop in Hst as [Hst | Hst].
    + left. apply (starts_with_map f t (a :: s) Hst).
    + right. by apply IH.
Qed.

Lemma in_filter_sub {A} (p : A -> bool) (l : list A) (x : A) :
  In x (List.filter p l) -> In x l.
Proof. intros Hx. by apply filter_In in Hx as [Hx _]. Qed.

Lemma filter_sublist_mono {A} (p q : A -> bool) (l : list A) :
  (forall x, In x l -> p x = true -> q x = true) ->
  List.filter p l `sublist_of` List.filter q l.
Proof.
  induction l as [|x l IH]; intros Hpq; simpl; [constructor |].
  assert (IH' : List.filter p l `sublist_of` List.filter q l).
  { apply IH. intros y Hy. apply Hpq. by right. }
  destruct (p x) eqn:Hp.
  - rewrite (Hpq x (or_introl eq_refl) Hp). by constructor.
  - destruct (q x); [by constructor | done].
Qed.

Section FirstVariant.
Context `{Host}.

Lemma first_variant_count_chars (s : jsstring) :
  Variant0.count_chars s = count_chars s.
Proof.
  unfold Variant0.count_chars, count_chars.
  generalize (∅ : gmap jsstring Z).
  induction (string_iter s) as [|ch l IH]; intros m; simpl; [done |].
  rewrite <- IH. f_equal.
  destruct (m !! ch) as [n|]; simpl; [| done].
  by destruct (n =? 0).
Qed.

Lemma first_variant_analysis (now u : jsstring) :
  as_current (Variant0.analyzeString now u) = analyzeString now u.
Proof.
  unfold as_current, Variant0.analyzeString, analyzeString.
  cbn [Variant0.Rec.properties Variant0.Rec.id Variant0.Rec.value
       Variant0.Rec.created_at Variant0.Props.length
       Variant0.Props.isPalindrome Variant0.Props.unique_characters
       Variant0.Props.word_count Variant0.Props.sha256_hash
       Variant0.Props.character_frequency_map].
  rewrite first_variant_count_chars.
  destruct (Z.of_nat (length (trim u)) =? 0) eqn:Hlen; [| done].
  apply Z.eqb_eq in Hlen. destruct (trim u); [done | simpl in Hlen; lia].
Qed.

Lemma first_variant_find (strings : list Variant0.Rec.t) (s : jsstring) :
  defined (find (fun item => str_eqb (Variant0.Rec.value item) s) strings)
  = defined (findByValue (as_current <$> strings) s).
Proof.
  unfold findByValue. induction strings as [|r strings IH]; simpl; [done |].
  by destruct (str_eqb (Variant0.Rec.value r) s).
Qed.

(** X21: the insertion handler of the first variant and the one of
    server.js, on stores with the same content, agree on every string that
    is not empty: the same status, stores with the same content afterwards,
    and, when a record is created, records with the same content; the
    first variant names two of the keys [isPalindrome] and
    [unique-characters].  They differ on the empty string, which the first
    variant rejects with 400 while server.js stores it, and on [null],
    [false] and [0], which the first variant answers with 400 and server.js
    with 422.  So the first variant never stores the empty string. *)
Theorem first_variant_insertion (now : jsstring)
    (strings : list Variant0.Rec.t) (v : Variant0.BodyValue) :
  let old := Variant0.post_strings now strings v in
  let current := post_strings now (as_current <$> strings)
                              (Variant0.to_json v) in
  match v with
  | Variant0.VString [] =>
      old.1 = strings
      /\ (~ stored [] (as_current <$> strings) ->
          Variant0.post_status old.2 = 400
          /\ current = ((as_current <$> strings) ++ [analyzeString now []],
                        {| status := 201;
                           body := RecordBody (analyzeString now []) |}))
  | Variant0.VString _ =>
      as_current <$> old.1 = current.1
      /\ Variant0.post_status old.2 = status current.2
      /\ match Variant0.post_body old.2, body current.2 with
         | Variant0.PostRecord analyzed, RecordBody entry =>
             as_current analyzed = entry
         | Variant0.PostError _, ErrorBody _ => True
         | _, _ => False
         end
  | Variant0.VUndefined =>
      old.1 = strings /\ Variant0.post_status old.2 = 400
      /\ status current.2 = 400
  | Variant0.VFalsy =>
      old.1 = strings /\ Variant0.post_status old.2 = 400
      /\ status current.2 = 422
  | Variant0.VTruthy =>
      old.1 = strings /\ Variant0.post_status old.2 = 422
      /\ status current.2 = 422
  end
  /\ (Forall (fun r => Variant0.Rec.value r <> []) strings ->
      Forall (fun r => Variant0.Rec.value r <> []) old.1).
Proof.
  intros old current. subst old current. split.
  - destruct v as [| [|c s] | |]; try done.
    + unfold Variant0.post_strings, post_strings. cbn [Variant0.to_json].
      cbv zeta. rewrite first_variant_find.
      split; [by destruct (defined (findByValue _ [])) |].
      intros Hfresh.
      destruct (defined (findByValue _ [])) eqn:Hf; [| done].
      by apply findByValue_stored in Hf.
    + unfold Variant0.post_strings, post_strings. cbn [Variant0.to_json].
      cbv zeta. rewrite first_variant_find.
      destruct (defined (findByValue _ (c :: s))); [done |].
      cbn [fst snd Variant0.post_status Variant0.post_body status body].
      rewrite fmap_app. cbn [fmap list_fmap].
      by rewrite first_variant_analysis.
  - intros Hfresh.
    unfold Variant0.post_strings.
    destruct v as [| [|c s] | |]; cbv zeta; try done.
    + by destruct (defined _).
    + destruct (defined _); [done |]. cbn [fst].
      apply Forall_app. split; [done |]. by repeat constructor.
Qed.

(** X22: the natural-language handler of the first variant answers every
    phrase that is not empty with 200 and never changes the store: what it
    returns is the store filtered by a test that depends on the phrase
    only, so the records come in store order; when the lower-cased phrase
    includes "palindrome" every returned record is a palindrome, and when
    no recognizer fires the whole store is returned.  A missing or empty
    phrase is answered 400. *)
Theorem first_variant_natural_language (c : N) (q' : jsstring) :
  let q := c :: q' in
  (exists keep : StringRecord.t -> bool,
     (forall strings,
        Variant0.get_filter_by_natural_language strings (Some q)
        = (strings,
           {| Variant0.natural_status := 200;
              Variant0.natural_body :=
                Variant0.NaturalData (List.filter keep strings)
                  (Z.of_nat (length (List.filter keep strings))) q |})
        /\ List.filter keep strings `sublist_of` strings)
     /\ (includes (toLowerCase q) (js "palindrome") = true ->
         forall item, keep item = true ->
                      is_palindrome (properties item) = true)
     /\ (includes (toLowerCase q) (js "palindrome") = false ->
         str_match (toLowerCase q) Variant0.longer = None ->
         str_match (toLowerCase q) Variant0.shorter = None ->
         str_match (toLowerCase q) Variant0.contains = None ->
         forall item, keep item = true))
  /\ (forall strings,
        Variant0.natural_status
          (Variant0.get_filter_by_natural_language strings None).2 = 400
        /\ Variant0.natural_status
             (Variant0.get_filter_by_natural_language strings (Some [])).2 = 400
        /\ (Variant0.get_filter_by_natural_language strings None).1 = strings
        /\ (Variant0.get_filter_by_natural_language strings (Some [])).1
           = strings).
Proof.
  intros q. split; [| done].
  set (s := toLowerCase q).
  exists (fun item =>
            (if includes s (js "palindrome")
             then is_palindrome (properties item) else true)
            && match str_match s Variant0.longer with
               | Some m => Z.of_nat (length (value item)) >? Number_group 1 m
               | None => true
               end
            && match str_match s Variant0.shorter with
               | Some m => Z.of_nat (length (value item)) <? Number_group 1 m
               | None => true
               end
            && match str_match s Variant0.contains with
               | Some m => includes (value item) (default [] (group 1 m))
               | None => true
               end).
  split; [| split].
  - intros strings. split; [| apply filter_sublist_of].
    unfold Variant0.get_filter_by_natural_language. subst q.
    cbv beta iota zeta. fold s.
    match goal with
    | |- (_, {| Variant0.natural_status := _;
                Variant0.natural_body := Variant0.NaturalData ?l _ _ |})
         = (_, {| Variant0.natural_status := _;
                  Variant0.natural_body := Variant0.NaturalData ?r _ _ |}) =>
        assert (Hdata : l = r)
    end; [| by rewrite Hdata].
    destruct (includes s (js "palindrome")),
      (str_match s Variant0.longer), (str_match s Variant0.shorter),
      (str_match s Variant0.contains);
      rewrite ?filter_filter_andb;
      first [ apply filter_ext_eq; intros x; simpl; btauto
            | rewrite <- (filter_true strings) at 1; by apply filter_ext_eq ].
  - intros Hp item Hkeep. rewrite Hp in Hkeep.
    by repeat (apply andb_prop in Hkeep as [Hkeep _]).
  - intros Hp Hl Hs Hc item. by rewrite Hp, Hl, Hs, Hc.
Qed.

(** X23: the translator looks at the lower-cased phrase only: two ASCII
    phrases that differ in case only get the same translation, which is
    also the translation of their lower-case form. *)
Theorem translation_ignores_case (q q' : jsstring) :
  forallb isAscii q = true -> forallb isAscii q' = true ->
  map lower_unit q = map lower_unit q' ->
  parseNaturalLanguageQuery q = parseNaturalLanguageQuery q'
  /\ parseNaturalLanguageQuery (map lower_unit q) = parseNaturalLanguageQuery q.
Proof.
  intros Hq Hq' Heq.
  assert (Hlow : toLowerCase (map lower_unit q) = toLowerCase q).
  { rewrite (toLowerCase_ascii q Hq), toLowerCase_ascii.
    - rewrite map_map. apply map_ext. intros a. apply lower_unit_idemp.
    - rewrite forallb_forall in *. intros x Hx.
      apply in_map_iff in Hx as (a & <- & Ha).
      apply lower_unit_ascii. by apply Hq. }
  unfold parseNaturalLanguageQuery.
  rewrite Hlow, (toLowerCase_ascii q Hq), (toLowerCase_ascii q' Hq'), Heq.
  done.
Qed.

Lemma includes_lower (v ch : jsstring) :
  forallb isAscii v = true -> forallb isAscii ch = true ->
  includes v (toLowerCase ch) = true ->
  includes (toLowerCase v) (toLowerCase ch) = true.
Proof.
  intros Hv Hch. rewrite (toLowerCase_ascii v Hv), (toLowerCase_ascii ch Hch).
  intros Hin. apply (includes_map lower_unit) in Hin.
  rewrite map_map in Hin.
  by rewrite (map_ext _ lower_unit lower_unit_idemp) in Hin.
Qed.

(** X24: the listing handler of the first variant reads the parameters
    [isPalindrome] and [contains_char]; compare it with server.js given the
    same values under its own names [is_palindrome] and
    [contains_character].  On a store of ASCII strings that is not empty,
    when no numeric parameter has a hexadecimal prefix and the character
    parameter is one ASCII code unit, the first variant answers with the
    status of server.js and never changes the store; it echoes its query;
    the records it returns are among those server.js returns, in the same
    order, since it looks for the lower-cased character in the value as
    stored; and without the character parameter it returns the same
    records and the same filters, under its own names. *)
Theorem first_variant_listing (strings : Store)
    (query0 : Variant0.RawQuery.t) :
  let query := as_current_query query0 in
  strings <> [] -> ascii_store strings -> decimal_query query ->
  let old := (Variant0.get_strings strings query0).2 in
  let current := (get_strings strings query).2 in
  (Variant0.get_strings strings query0).1 = strings
  /\ Variant0.listing_status old = status current
  /\ match Variant0.listing_body old, body current with
     | Variant0.Listing data count filters parsed, CollectionBody data' _ f' =>
         filters = query0 /\ count = Z.of_nat (length data)
         /\ data `sublist_of` data'
         /\ (Variant0.RawQuery.contains_char query0 = None ->
             data = data' /\ parsed = as_parsed f')
     | Variant0.ListingError _, ErrorBody _ => True
     | _, _ => False
     end.
Proof.
  intros query Hne Hascii (Hmn & Hmx & Hwc & Hcc). subst query.
  destruct strings as [|r0 rs]; [done |]. clear Hne.
  destruct query0 as [ip mn mx wc cc]. simpl in Hmn, Hmx, Hwc, Hcc.
  unfold Variant0.get_strings, get_strings, bad_request,
    Variant0.listing_error, apply_filters, parseIntOrNull, as_current_query.
  change ((length (r0 :: rs) =? 0)%nat) with false. cbv iota.
  set (strings := r0 :: rs) in *.
  cbn [Query.is_palindrome Query.min_length Query.max_length Query.word_count
       Query.contains_character Variant0.RawQuery.isPalindrome
       Variant0.RawQuery.min_length Variant0.RawQuery.max_length
       Variant0.RawQuery.word_count Variant0.RawQuery.contains_char].
  assert (Hsub : forall (l : Store) ch,
            forallb isAscii ch = true ->
            (forall x, In x l -> In x strings) ->
            List.filter (fun item => includes (value item) (toLowerCase ch)) l
            `sublist_of`
            List.filter (fun item => includes (toLowerCase (value item))
                                              (toLowerCase ch)) l).
  { intros l ch Hch Hl. apply filter_sublist_mono. intros x Hx.
    apply includes_lower; [| done].
    unfold ascii_store in Hascii. rewrite Forall_forall in Hascii.
    apply Hascii, list_elem_of_In, Hl, Hx. }
  destruct ip as [vip|];
    try (destruct (str_eqb vip (js "true")), (str_eqb vip (js "false")));
    cbn [negb orb]; try (by repeat split);
    (destruct mn as [vmn|];
     [rewrite (parseInt_plain vmn) by (by apply Hmn);
      destruct (parseInt10 vmn) |]);
    cbn [negb andb defined is_null]; try (by repeat split);
    (destruct mx as [vmx|];
     [rewrite (parseInt_plain vmx) by (by apply Hmx);
      destruct (parseInt10 vmx) |]);
    cbn [negb andb defined is_null]; try (by repeat split);
    (destruct wc as [vwc|];
     [rewrite (parseInt_plain vwc) by (by apply Hwc);
      destruct (parseInt10 vwc) |]);
    cbn [negb andb defined is_null]; try (by repeat split);
    (destruct cc as [ch|];
     [destruct (Hcc ch eq_refl) as [Hlen Hch]; rewrite Hlen;
      change ((1 =? 1)%nat) with true |]);
    cbn [negb]; cbv beta iota zeta;
    cbn [fst snd Variant0.listing_status Variant0.listing_body status body];
    (split; [done |]); (split; [done |]); (split; [done |]);
    (split; [done |]); (split; [| done]);
    first [ reflexivity
          | apply Hsub; [done |];
            intros x Hx; repeat apply in_filter_sub in Hx; exact Hx ].
Qed.

(** X25: deletion in the first variant changes the store exactly as
    deletion in the second variant does.  It answers 200 when a stored
    value equals the requested one up to case, with the lower-cased
    request in the message and the number of records left, one less than
    before; and 404 with the store unchanged when no stored value does. *)
Theorem first_variant_deletion (strings : Store) (v : jsstring) :
  let old := Variant0.delete_string strings v in
  let later := Variant1.delete_string strings v in
  old.1 = later.1
  /\ match Variant0.delete_body old.2 with
     | Variant0.Deleted message remaining =>
         Variant0.delete_status old.2 = 200 /\ status later.2 = 204
         /\ remaining = Z.of_nat (length strings) - 1
         /\ remaining = Z.of_nat (length old.1)
         /\ message = js "String '" ++ toLowerCase v
                      ++ js "' deleted successfully"
         /\ (exists r, r ∈ strings
                       /\ toLowerCase (value r) = toLowerCase v)
     | Variant0.DeleteError _ =>
         Variant0.delete_status old.2 = 404 /\ status later.2 = 404
         /\ old.1 = strings
         /\ Forall (fun r => toLowerCase (value r) <> toLowerCase v) strings
     end.
Proof.
  intros old later. subst old later.
  unfold Variant0.delete_string, Variant1.delete_string. cbv zeta.
  destruct (findIndex _ strings) as [i|] eqn:Hi; simpl.
  - split; [done |]. split; [done |]. split; [done |].
    destruct (findIndex_splice_removes _ _ _ Hi) as [_ Hlen].
    split; [lia |]. split; [done |]. split; [done |].
    destruct (findIndex_Some _ _ _ Hi) as (before & x & after & -> & _ & Hx & _).
    exists x. split; [| by apply str_eqb_eq].
    apply elem_of_app. right. by left.
  - split; [done |]. split; [done |]. split; [done |]. split; [done |].
    apply findIndex_None in Hi.
    eapply Forall_impl; [exact Hi |].
    intros r Hr. by apply str_eqb_neq.
Qed.
End FirstVariant.

(** * The recognizers of the translator, read off the phrase

    ** The matcher finds what the expressions describe *)

Lemma strip_prefix_is_Some (t s : jsstring) :
  is_Some (strip_prefix t s) <-> exists r, s = t ++ r.
Proof.
  split.
  - intros [r Hr]. exists r. by apply strip_prefix_Some.
  - intros [r ->]. rewrite strip_prefix_app. by eexists.
Qed.

Lemma star_cls_matches (p : N -> bool) (k : Cont) (rest : jsstring) :
  forall prev caps,
    is_Some (star_cls p k prev rest caps)
    <-> exists w rest',
          rest = w ++ rest' /\ Forall (fun c => p c = true) w
          /\ is_Some (k (rev w ++ prev) rest' caps).
Proof.
  induction rest as [|c rest IH]; intros prev caps; simpl.
  - split.
    + intros Hk. exists [], []. by repeat split.
    + intros (w & rest' & Hw & _ & Hk).
      symmetry in Hw. apply app_eq_nil in Hw as [-> ->]. done.
  - destruct (p c) eqn:Hc.
    + split.
      * intros Hs.
        destruct (star_cls p k (c :: prev) rest caps) as [m|] eqn:Hin.
        -- destruct (proj1 (IH (c :: prev) caps)) as (w & rest' & -> & Hw & Hk).
           { rewrite Hin. by eexists. }
           exists (c :: w), rest'. split; [done |]. split; [by constructor |].
           simpl. by rewrite <- app_assoc.
        -- exists [], (c :: rest). by repeat split.
      * intros (w & rest' & Hw & Hall & Hk).
        destruct w as [|c' w].
        -- simpl in *. subst rest'.
           by destruct (star_cls p k (c :: prev) rest caps).
        -- simpl in Hw. injection Hw as <- ->.
           assert (Hin : is_Some (star_cls p k (c :: prev) (w ++ rest') caps)).
           { apply IH. exists w, rest'. split; [done |].
             split; [by inversion Hall |].
             simpl in Hk. by rewrite <- app_assoc in Hk. }
           destruct Hin as [m ->]. by eexists.
    + split.
      * intros Hk. exists [], (c :: rest). by repeat split.
      * intros (w & rest' & Hw & Hall & Hk).
        destruct w as [|c' w]; [simpl in *; by subst rest' |].
        simpl in Hw. injection Hw as <- ->.
        inversion Hall; congruence.
Qed.

Lemma rmatch_matches (r : regex) :
  forall (k : Cont) (prev rest : jsstring) (caps : Captures),
    caps_blind k ->
    (is_Some (rmatch r k prev rest caps)
     <-> exists w rest',
           rest = w ++ rest' /\ matches r prev w rest'
           /\ is_Some (k (rev w ++ prev) rest' caps)).
Proof.
  induction r as [s | c | c | c | r IH | r1 IH1 r2 IH2 | r1 IH1 r2 IH2
                 | n r IH |]; intros k prev rest caps Hk; cbn [rmatch matches].
  - (* RStr *)
    split.
    + destruct (strip_prefix s rest) as [rest'|] eqn:Hs; [| by intros []].
      apply strip_prefix_Some in Hs as ->. intros Hm. by exists s, rest'.
    + intros (w & rest' & -> & -> & Hm). by rewrite strip_prefix_app.
  - (* RCls *)
    split.
    + destruct rest as [|x rest]; [by intros [] |].
      destruct (cls_match c x) eqn:Hx; [| by intros []].
      intros Hm. exists [x], rest. split; [done |]. split; [eauto | done].
    + intros (w & rest' & -> & (x & -> & Hx) & Hm). simpl. by rewrite Hx.
  - (* RStar *)
    apply star_cls_matches.
  - (* RPlus *)
    split.
    + destruct rest as [|x rest]; [by intros [] |].
      destruct (cls_match c x) eqn:Hx; [| by intros []].
      intros Hm. apply star_cls_matches in Hm as (w & rest' & -> & Hw & Hm).
      exists (x :: w), rest'. split; [done |].
      split; [split; [done | by constructor] |].
      simpl. by rewrite <- app_assoc.
    + intros (w & rest' & -> & (Hne & Hw) & Hm).
      destruct w as [|x w]; [done |]. simpl.
      inversion Hw as [|? ? Hx Hw']; subst. rewrite Hx.
      apply star_cls_matches. exists w, rest'. split; [done |].
      split; [done |]. simpl in Hm. by rewrite <- app_assoc in Hm.
  - (* ROpt *)
    split.
    + destruct (rmatch r k prev rest caps) as [m|] eqn:Hr.
      * intros _.
        destruct (proj1 (IH k prev rest caps Hk)) as (w & rest' & -> & Hw & Hm).
        { rewrite Hr. by eexists. }
        exists w, rest'. split; [done |]. split; [by right | done].
      * intros Hm. exists [], rest. split; [done |]. split; [by left | done].
    + intros (w & rest' & -> & [-> | Hw] & Hm).
      * simpl in *. by destruct (rmatch r k prev rest' caps).
      * assert (Hr : is_Some (rmatch r k prev (w ++ rest') caps)).
        { apply IH; [done |]. by exists w, rest'. }
        destruct Hr as [m ->]. by eexists.
  - (* RSeq *)
    assert (Hk2 : caps_blind (rmatch r2 k)).
    { intros p s c1 c2 Hm. apply IH2 in Hm as (w & rest' & -> & Hw & Hm); [| done].
      apply IH2; [done |]. exists w, rest'. split; [done |]. split; [done |].
      by apply (Hk _ _ c1). }
    rewrite (IH1 (rmatch r2 k) prev rest caps Hk2). split.
    + intros (w1 & rest1 & -> & Hw1 & Hm).
      apply IH2 in Hm as (w2 & rest' & -> & Hw2 & Hm); [| done].
      exists (w1 ++ w2), rest'. split; [by rewrite <- app_assoc |].
      split; [by exists w1, w2 |].
      by rewrite rev_app_distr, <- app_assoc.
    + intros (w & rest' & -> & (w1 & w2 & -> & Hw1 & Hw2) & Hm).
      exists w1, (w2 ++ rest'). split; [by rewrite <- app_assoc |].
      split; [done |]. apply IH2; [done |].
      exists w2, rest'. split; [done |]. split; [done |].
      by rewrite rev_app_distr, <- app_assoc in Hm.
  - (* RAlt *)
    split.
    + destruct (rmatch r1 k prev rest caps) as [m|] eqn:Hr.
      * intros _.
        destruct (proj1 (IH1 k prev rest caps Hk)) as (w & rest' & -> & Hw & Hm).
        { rewrite Hr. by eexists. }
        exists w, rest'. split; [done |]. split; [by left | done].
      * intros Hm. apply IH2 in Hm as (w & rest' & -> & Hw & Hm); [| done].
        exists w, rest'. split; [done |]. split; [by right | done].
    + intros (w & rest' & -> & [Hw | Hw] & Hm).
      * assert (Hr : is_Some (rmatch r1 k prev (w ++ rest') caps)).
        { apply IH1; [done |]. by exists w, rest'. }
        destruct Hr as [m ->]. by eexists.
      * destruct (rmatch r1 k prev (w ++ rest') caps); [by eexists |].
        apply IH2; [done |]. by exists w, rest'.
  - (* RGroup *)
    set (k' := fun prev' rest' caps' =>
                 k prev' rest' ((n, consumed prev prev') :: caps')).
    assert (Hk' : caps_blind k').
    { intros p s c1 c2. unfold k'. apply Hk. }
    rewrite (IH k' prev rest caps Hk'). unfold k'.
    split; intros (w & rest' & -> & Hw & Hm); exists w, rest';
      (split; [done |]); (split; [done |]); revert Hm; apply Hk.
  - (* RWordB *)
    split.
    + destruct (word_boundary prev rest) eqn:Hb; [| by intros []].
      intros Hm. exists [], rest. by repeat split.
    + intros (w & rest' & -> & (-> & Hb) & Hm). simpl in *. by rewrite Hb.
Qed.

Lemma accept_blind (start : jsstring) : caps_blind (accept start).
Proof. intros prev rest c1 c2 _. by eexists. Qed.

Lemma search_matches (r : regex) (rest : jsstring) :
  forall prev,
    is_Some (search r prev rest)
    <-> exists skipped w post,
          rest = skipped ++ w ++ post /\ matches r (rev skipped ++ prev) w post.
Proof.
  induction rest as [|c rest IH]; intros prev; simpl.
  - pose proof (rmatch_matches r (accept prev) prev [] [] (accept_blind prev)) as Hr.
    split.
    + destruct (rmatch r (accept prev) prev [] []) as [m|]; [| by intros []].
      intros _. destruct (proj1 Hr) as (w & rest' & Hw & Hm & _); [by eexists |].
      exists [], w, rest'. by split.
    + intros (skipped & w & post & Hs & Hm).
      symmetry in Hs. apply app_eq_nil in Hs as [-> Hs].
      apply app_eq_nil in Hs as [-> ->].
      assert (Hok : is_Some (rmatch r (accept prev) prev [] [])).
      { apply Hr. exists [], []. split; [done |]. split; [done |]. by eexists. }
      by destruct Hok as [m ->].
  - pose proof (rmatch_matches r (accept prev) prev (c :: rest) []
                  (accept_blind prev)) as Hr.
    split.
    + destruct (rmatch r (accept prev) prev (c :: rest) []) as [m|].
      * intros _. destruct (proj1 Hr) as (w & rest' & Hw & Hm & _); [by eexists |].
        exists [], w, rest'. by split.
      * intros Hs. apply IH in Hs as (skipped & w & post & -> & Hm).
        exists (c :: skipped), w, post. split; [done |].
        simpl. by rewrite <- app_assoc.
    + intros (skipped & w & post & Hs & Hm).
      destruct skipped as [|c' skipped].
      * simpl in *.
        assert (Hok : is_Some (rmatch r (accept prev) prev (c :: rest) [])).
        { apply Hr. exists w, post. split; [done |]. split; [done |]. by eexists. }
        by destruct Hok as [m ->].
      * simpl in Hs. injection Hs as <- ->.
        destruct (rmatch r (accept prev) prev _ []); [by eexists |].
        apply IH. exists skipped, w, post. split; [done |].
        simpl in Hm. by rewrite <- app_assoc in Hm.
Qed.

(** A regular expression finds a match in [s] exactly when some part of
    [s] matches it. *)
Lemma test_matches (r : regex) (s : jsstring) :
  test r s = true
  <-> exists pre w post, s = pre ++ w ++ post /\ matches r (rev pre) w post.
Proof.
  unfold test, str_match.
  pose proof (search_matches r s []) as Hs.
  split.
  - intros Hd. destruct (search r [] s) as [m|] eqn:Hm; [| done].
    destruct (proj1 Hs) as (pre & w & post & -> & Hw); [by eexists |].
    exists pre, w, post. split; [done |]. by rewrite app_nil_r in Hw.
  - intros (pre & w & post & -> & Hw).
    destruct (proj2 Hs) as [m Hm]; [| by rewrite Hm].
    exists pre, w, post. split; [done |]. by rewrite app_nil_r.
Qed.

(** ** Each recognizer, word by word *)

Lemma word_boundary_after (t prev post : jsstring) :
  match rev t with c :: _ => isWordChar c = true | [] => False end ->
  word_boundary (rev t ++ prev) post = word_end post.
Proof.
  destruct (rev t) as [|c t']; [done |]. simpl. intros Hc.
  unfold word_boundary, word_end. rewrite Hc.
  destruct post as [|x post]; [done |]. by destruct (isWordChar x).
Qed.

Lemma word_boundary_before (pre t rest : jsstring) :
  match t with c :: _ => isWordChar c = true | [] => False end ->
  word_boundary (rev pre) (t ++ rest) = word_start pre.
Proof.
  intros Ht. apply word_boundary_word_start. by destruct t.
Qed.

Ltac norm_app := rewrite ?app_nil_r, ?app_nil_l, <- ?app_assoc.
Ltac norm_app_in H := rewrite ?app_nil_r, ?app_nil_l, <- ?app_assoc in H.

Lemma palindrome_mentions (s : jsstring) :
  test Re.palindrome s = true <-> mentions_palindrome s.
Proof.
  rewrite test_matches. unfold Re.palindrome, mentions_palindrome.
  cbn [matches]. split.
  - intros (pre & w & post & -> & w1 & w2 & -> & (-> & Hb)
            & w3 & w4 & -> & -> & w5 & w6 & -> & Hw5 & -> & _).
    norm_app_in Hb. exists pre, (w5 ++ post). split; [by norm_app |].
    rewrite <- Hb. symmetry. by apply word_boundary_before.
  - intros (pre & post & -> & Hstart).
    destruct (span_split isWordChar post) as (t & rest & -> & Ht & Hrest).
    exists pre, (js "palindrom" ++ t), rest. split; [by norm_app |].
    exists [], (js "palindrom" ++ t). split; [done |]. split.
    { split; [done |]. norm_app. by rewrite word_boundary_before. }
    exists (js "palindrom"), t. split; [done |]. split; [done |].
    exists t, []. split; [by rewrite app_nil_r |]. split; [done |].
    split; [done |].
    change (rev [] ++ rev pre) with (rev pre).
    rewrite app_assoc, <- rev_app_distr, word_boundary_after.
    + unfold word_end. destruct rest as [|c rest]; [done |]. by rewrite Hrest.
    + rewrite rev_app_distr.
      destruct t as [|x t _] using rev_ind; [done |].
      rewrite rev_app_distr. simpl.
      apply Forall_app in Ht as [_ Hx]. by inversion Hx.
Qed.

Lemma word_count_is_1_mentions (s : jsstring) :
  test Re.word_count_is_1 s = true <-> mentions_word_count_is_1 s.
Proof.
  rewrite test_matches. unfold Re.word_count_is_1, mentions_word_count_is_1.
  cbn [matches]. split.
  - intros (pre & w & post & -> & w1 & w2 & -> & (-> & Hb)
            & w3 & w4 & -> & -> & -> & Hb2).
    norm_app_in Hb. cbn [rev app] in Hb2.
    exists pre, post. split; [by norm_app |]. split.
    + rewrite <- Hb. symmetry. by apply word_boundary_before.
    + rewrite <- Hb2. symmetry. by apply word_boundary_after.
  - intros (pre & post & -> & Hstart & Hend).
    exists pre, (js "word count is 1"), post. split; [done |].
    exists [], (js "word count is 1"). split; [done |]. split.
    { split; [done |]. by rewrite word_boundary_before. }
    exists (js "word count is 1"), []. split; [by rewrite app_nil_r |].
    split; [done |]. split; [done |]. cbn [rev app].
    by rewrite word_boundary_after.
Qed.

Lemma longer_mentions (s : jsstring) :
  test Re.longer s = true <-> mentions_longer s.
Proof.
  rewrite test_matches. unfold Re.longer, mentions_longer.
  cbn [matches]. split.
  - intros (pre & w & post & -> & w1 & w2 & -> & (-> & Hb)
            & w3 & w4 & -> & -> & Hne & Hds).
    norm_app_in Hb. destruct w4 as [|d ds]; [done |].
    exists pre, d, (ds ++ post). split; [by norm_app |]. split.
    + rewrite <- Hb. symmetry. by apply word_boundary_before.
    + by inversion Hds.
  - intros (pre & d & post & -> & Hstart & Hd).
    exists pre, (js "longer than " ++ [d]), post. split; [by norm_app |].
    exists [], (js "longer than " ++ [d]). split; [done |]. split.
    { split; [done |]. norm_app. by rewrite word_boundary_before. }
    exists (js "longer than "), [d]. split; [done |]. split; [done |].
    split; [done |]. by repeat constructor.
Qed.

Lemma shorter_mentions (s : jsstring) :
  test Re.shorter s = true <-> mentions_shorter s.
Proof.
  rewrite test_matches. unfold Re.shorter, mentions_shorter.
  cbn [matches]. split.
  - intros (pre & w & post & -> & w1 & w2 & -> & (-> & Hb)
            & w3 & w4 & -> & Hkw & w5 & w6 & -> & -> & Hne & Hds).
    norm_app_in Hb. destruct w6 as [|d ds]; [done |].
    assert (Hd : isDigit d = true) by (by inversion Hds).
    destruct Hkw as [-> | ->].
    + exists pre, (js "shorter than "), d, (ds ++ post).
      split; [by left |]. split; [by norm_app |]. split; [| done].
      rewrite <- Hb. symmetry. by apply word_boundary_before.
    + exists pre, (js "less than "), d, (ds ++ post).
      split; [by right |]. split; [by norm_app |]. split; [| done].
      rewrite <- Hb. symmetry. by apply word_boundary_before.
  - intros (pre & kw & d & post & Hkw & -> & Hstart & Hd).
    assert (Hsplit : exists kw', kw = kw' ++ js " "
              /\ (kw' = js "shorter than" \/ kw' = js "less than")
              /\ match kw' with c :: _ => isWordChar c = true | [] => False end).
    { destruct Hkw as [-> | ->];
        [exists (js "shorter than") | exists (js "less than")];
        (split; [done |]); (split; [| done]); [by left | by right]. }
    destruct Hsplit as (kw' & -> & Hkw' & Hword).
    exists pre, (kw' ++ js " " ++ [d]), post. split; [by norm_app |].
    exists [], (kw' ++ js " " ++ [d]). split; [done |]. split.
    { split; [done |]. norm_app. by rewrite word_boundary_before. }
    exists kw', (js " " ++ [d]). split; [done |]. split; [done |].
    exists (js " "), [d]. split; [done |]. split; [done |].
    split; [done |]. by repeat constructor.
Qed.

Lemma n_words_mentions (s : jsstring) :
  test Re.n_words s = true <-> mentions_n_words s.
Proof.
  rewrite test_matches. unfold Re.n_words, mentions_n_words.
  cbn [matches]. split.
  - intros (pre & w & post & -> & w1 & w2 & -> & (-> & Hb)
            & ds & w4 & -> & (Hne & Hds) & ws & w6 & -> & (Hwne & Hws)
            & w7 & w8 & -> & -> & o & w10 & -> & Ho & -> & Hb2).
    norm_app_in Hb. cbn [rev app] in Hb2.
    assert (Hstart : word_start pre = true).
    { rewrite <- Hb. symmetry. apply word_boundary_before.
      destruct ds as [|d ds]; [done |]. inversion Hds as [|? ? Hd _].
      unfold isWordChar. change (cls_match CDigit d) with (isDigit d) in Hd.
      rewrite Hd. by destruct (isLetter d). }
    destruct Ho as [-> | ->].
    + exists pre, ds, ws, post. split; [by norm_app |].
      repeat (split; [done |]). left.
      cbn [rev app] in Hb2. rewrite <- Hb2. symmetry.
      by apply word_boundary_after.
    + exists pre, ds, ws, (js "s" ++ post). split; [by norm_app |].
      repeat (split; [done |]). right. exists post. split; [done |].
      rewrite <- Hb2. symmetry. by apply word_boundary_after.
  - intros (pre & ds & ws & post & -> & Hstart & Hne & Hds & Hwne & Hws & Hend).
    assert (Hb : word_boundary (rev pre) (ds ++ ws ++ js "word" ++ post)
                 = true).
    { rewrite word_boundary_before; [done |].
      destruct ds as [|d ds]; [done |]. inversion Hds as [|? ? Hd _].
      unfold isWordChar. rewrite Hd. by destruct (isLetter d). }
    destruct Hend as [Hend | (post' & -> & Hend)].
    + exists pre, (ds ++ ws ++ js "word"), post. split; [by norm_app |].
      exists [], (ds ++ ws ++ js "word"). split; [done |]. split.
      { split; [done |]. by norm_app. }
      exists ds, (ws ++ js "word"). split; [done |]. split; [done |].
      exists ws, (js "word"). split; [done |]. split; [done |].
      exists (js "word"), []. split; [by rewrite app_nil_r |]. split; [done |].
      exists [], []. split; [done |]. split; [by left |].
      split; [done |]. cbn [rev app]. by rewrite word_boundary_after.
    + exists pre, (ds ++ ws ++ js "word" ++ js "s"), post'.
      split; [by norm_app |].
      exists [], (ds ++ ws ++ js "word" ++ js "s"). split; [done |]. split.
      { split; [done |]. by norm_app. }
      exists ds, (ws ++ js "word" ++ js "s"). split; [done |]. split; [done |].
      exists ws, (js "word" ++ js "s"). split; [done |]. split; [done |].
      exists (js "word"), (js "s"). split; [done |]. split; [done |].
      exists (js "s"), []. split; [by rewrite app_nil_r |]. split; [by right |].
      split; [done |]. by rewrite word_boundary_after.
Qed.

Lemma word_start_app (a b : jsstring) :
  b <> [] -> word_start (a ++ b) = word_start b.
Proof.
  intros Hb. unfold word_start.
  destruct b as [|x b _] using rev_ind; [done |].
  by rewrite app_assoc, !last_snoc.
Qed.

Lemma word_end_app (a b : jsstring) :
  a <> [] -> word_end (a ++ b) = word_end a.
Proof. by destruct a. Qed.

Lemma single_word_mentions (s : jsstring) :
  test Re.single_word s = true <-> mentions_single_word s.
Proof.
  rewrite test_matches. unfold Re.single_word, mentions_single_word.
  cbn [matches]. split.
  - intros (pre & w & post & -> & w1 & w2 & -> & (-> & Hb1)
            & kw & w4 & -> & Hkw & w5 & w6 & -> & (-> & Hb2)
            & mid & w8 & -> & Hmid & w9 & w10 & -> & (-> & Hb3)
            & w11 & w12 & -> & -> & -> & Hb4).
    norm_app_in Hb1. cbn [rev app] in Hb2, Hb3, Hb4.
    norm_app_in Hb2. norm_app_in Hb3.
    assert (Hkw_start : match kw with c :: _ => isWordChar c = true
                                 | [] => False end)
      by (by destruct Hkw as [-> | ->]).
    assert (Hkw_end : match rev kw with c :: _ => isWordChar c = true
                                   | [] => False end)
      by (by destruct Hkw as [-> | ->]).
    rewrite word_boundary_before in Hb1 by done.
    rewrite word_boundary_after in Hb2 by done.
    rewrite word_boundary_after in Hb4 by done.
    assert (Hne : mid <> []) by (by intros ->).
    rewrite word_end_app in Hb2 by done.
    rewrite app_assoc, <- !rev_app_distr, word_boundary_before in Hb3 by done.
    rewrite app_assoc, word_start_app in Hb3 by done.
    exists pre, kw, mid, post. split; [done |]. split; [by norm_app |].
    repeat (split; [done |]). split; [| done].
    eapply Forall_impl; [exact Hmid |]. intros c Hc. simpl in Hc.
    by destruct (isLineTerminator c).
  - intros (pre & kw & mid & post & Hkw & -> & Hstart & Hne & Hme & Hms
            & Hmid & Hend).
    assert (Hkw_start : match kw with c :: _ => isWordChar c = true
                                 | [] => False end)
      by (by destruct Hkw as [-> | ->]).
    assert (Hkw_end : match rev kw with c :: _ => isWordChar c = true
                                   | [] => False end)
      by (by destruct Hkw as [-> | ->]).
    exists pre, (kw ++ mid ++ js "word"), post. split; [by norm_app |].
    exists [], (kw ++ mid ++ js "word"). split; [done |]. split.
    { split; [done |]. norm_app. by rewrite word_boundary_before. }
    exists kw, (mid ++ js "word"). split; [done |]. split; [done |].
    exists [], (mid ++ js "word"). split; [done |]. split.
    { split; [done |]. cbn [rev app]. norm_app.
      rewrite word_boundary_after by done. by rewrite word_end_app. }
    exists mid, (js "word"). split; [done |]. split.
    { eapply Forall_impl; [exact Hmid |]. intros c Hc. simpl. by rewrite Hc. }
    exists [], (js "word"). split; [done |]. split.
    { split; [done |]. cbn [rev app]. norm_app.
      rewrite app_assoc, <- !rev_app_distr, word_boundary_before by done.
      by rewrite app_assoc, word_start_app. }
    exists (js "word"), []. split; [by rewrite app_nil_r |]. split; [done |].
    split; [done |]. cbn [rev app]. by rewrite word_boundary_after.
Qed.

Lemma letter_mentions (s : jsstring) :
  test Re.letter s = true <-> mentions_letter s.
Proof.
  rewrite test_matches. unfold Re.letter, mentions_letter.
  cbn [matches]. split.
  - intros (pre & w & post & -> & w1 & w2 & -> & (-> & Hb1)
            & kw & w4 & -> & Hkw & ws & w6 & -> & (Hwne & Hws)
            & w7 & w8 & -> & (x & -> & Hx) & -> & Hb2).
    norm_app_in Hb1. cbn [rev app] in Hb2.
    assert (Hforms : exists a b c,
              kw = js "contain" ++ a ++ b ++ c
              /\ (a = [] \/ a = js "ing" \/ a = js "s")
              /\ (b = [] \/ b = js " the") /\ (c = [] \/ c = js " letter")).
    { destruct Hkw as [(c1 & r1 & -> & -> & a & r2 & -> & Ha
                        & b & c & -> & Hb & Hc) | ->].
      - exists a, b, c. split; [done |]. split; [| done].
        destruct Ha as [-> | [-> | ->]]; auto.
      - exists (js "ing"), [], []. split; [done |]. auto. }
    destruct Hforms as (a & b & c & -> & Ha & Hb & Hc).
    norm_app_in Hb1. rewrite word_boundary_before in Hb1 by done.
    change (x :: rev ws ++ rev (js "contain" ++ a ++ b ++ c) ++ rev pre)
      with (rev [x] ++ (rev ws ++ rev (js "contain" ++ a ++ b ++ c) ++ rev pre))
      in Hb2.
    rewrite word_boundary_after in Hb2.
    2:{ simpl. unfold isWordChar. change (cls_match CLetter x) with (isLetter x) in Hx.
        by rewrite Hx. }
    exists pre, a, b, c, ws, x, post. split; [done |]. split; [done |].
    split; [done |]. split; [by norm_app |]. by repeat (split; [done |]).
  - intros (pre & a & b & c & ws & x & post & Ha & Hb & Hc & -> & Hstart
            & Hwne & Hws & Hx & Hend).
    exists pre, ((js "contain" ++ a ++ b ++ c) ++ ws ++ [x]), post.
    split; [by norm_app |].
    exists [], ((js "contain" ++ a ++ b ++ c) ++ ws ++ [x]).
    split; [done |]. split.
    { split; [done |]. norm_app. by rewrite word_boundary_before. }
    exists (js "contain" ++ a ++ b ++ c), (ws ++ [x]).
    split; [done |]. split.
    { left. exists (js "contain"), (a ++ b ++ c). split; [done |].
      split; [done |]. exists a, (b ++ c). split; [done |]. split.
      { destruct Ha as [-> | [-> | ->]]; auto. }
      exists b, c. by repeat split. }
    exists ws, [x]. split; [done |]. split; [done |].
    exists [x], []. split; [done |]. split; [by exists x |].
    split; [done |].
    rewrite word_boundary_after; [done |].
    simpl. unfold isWordChar. by rewrite Hx.
Qed.

(** ** When the translator answers *)

Lemma defined_is_Some {A} (o : option A) : defined o = true <-> is_Some o.
Proof.
  destruct o; simpl.
  - split; [by eexists | done].
  - split; [done | by intros [x Hx]].
Qed.

Lemma rec_palindrome_mentions (s : jsstring) :
  rec_palindrome s = true <-> mentions_palindrome s.
Proof. apply palindrome_mentions. Qed.

Lemma rec_word_count_mentions (s : jsstring) :
  rec_word_count s = true <-> mentions_word_count s.
Proof.
  unfold rec_word_count, mentions_word_count.
  rewrite !orb_true_iff, single_word_mentions, word_count_is_1_mentions.
  change (defined (str_match s Re.n_words)) with (test Re.n_words s).
  rewrite n_words_mentions. tauto.
Qed.

Lemma rec_longer_mentions (s : jsstring) :
  rec_longer s = true <-> mentions_longer s.
Proof. apply longer_mentions. Qed.

Lemma rec_shorter_mentions (s : jsstring) :
  rec_shorter s = true <-> mentions_shorter s.
Proof. apply shorter_mentions. Qed.

Lemma rec_letter_mentions (s : jsstring) :
  rec_letter s = true <-> mentions_letter s.
Proof. apply letter_mentions. Qed.

Lemma any_recognizer_mentions (s : jsstring) :
  any_recognizer s = true <-> any_mention s.
Proof.
  unfold any_recognizer, any_mention.
  rewrite !orb_true_iff, rec_palindrome_mentions, rec_word_count_mentions,
    rec_longer_mentions, rec_shorter_mentions, rec_letter_mentions.
  tauto.
Qed.

Section Recognizers.
Context `{Host}.

(** C4, as the code has it: the translator answers [null] exactly when
    none of the five recognizers fires on the lower-cased phrase, where a
    recognizer fires on its keywords at a word boundary only: "palindrom"
    at a word start; the whole word "single" or "one" followed on the same
    line by the whole word "word", or "word count is 1", or a whole number,
    white space and "word" or "words"; "longer than ", respectively
    "shorter than " or "less than ", at a word start and followed by a
    digit; "contain", "contains" or "containing" at a word start, then
    optionally " the" and " letter", white space and one letter standing
    alone.  When one fires the translator answers a predicate set with at
    least one key, and the keys present are those of the recognizers that
    fired. *)
Theorem unparseable_iff_no_recognizer (q : jsstring) :
  let s := toLowerCase q in
  (parseNaturalLanguageQuery q = None <-> ~ any_mention s)
  /\ (any_mention s ->
      exists parsed, parseNaturalLanguageQuery q = Some parsed
                     /\ (0 < Filters.keys_length parsed)%nat)
  /\ (forall parsed,
        parseNaturalLanguageQuery q = Some parsed ->
        (0 < Filters.keys_length parsed)%nat
        /\ (is_Some (Filters.is_palindrome parsed) <-> mentions_palindrome s)
        /\ (is_Some (Filters.word_count parsed) <-> mentions_word_count s)
        /\ (is_Some (Filters.min_length parsed) <-> mentions_longer s)
        /\ (is_Some (Filters.max_length parsed) <-> mentions_shorter s)
        /\ (is_Some (Filters.contains_character parsed) <-> mentions_letter s)).
Proof.
  intros s. pose proof (translation_keys q) as Hkeys.
  cbv zeta in Hkeys. fold s in Hkeys.
  pose proof (any_recognizer_mentions s) as Hany.
  destruct (any_recognizer s).
  - destruct Hkeys as (parsed & Hp & Hlen & Hip & Hwc & Hmin & Hmax & Hcc).
    assert (Hm : any_mention s) by (by apply Hany).
    split; [| split].
    + rewrite Hp. split; [done | by intros Hno].
    + intros _. by exists parsed.
    + intros parsed' Hp'. rewrite Hp in Hp'. injection Hp' as <-.
      split; [done |].
      rewrite <- !defined_is_Some, Hip, Hwc, Hmin, Hmax, Hcc.
      rewrite rec_palindrome_mentions, rec_word_count_mentions,
        rec_longer_mentions, rec_shorter_mentions, rec_letter_mentions.
      done.
  - assert (Hm : ~ any_mention s).
    { intros Hm. apply Hany in Hm. done. }
    split; [| split].
    + by rewrite Hkeys.
    + intros Hyes. by destruct Hm.
    + intros parsed Hp. by rewrite Hkeys in Hp.
Qed.
End Recognizers.

(** * Concrete runs

    The runs are on [ascii_host]; all their inputs are ASCII, but for one
    surrogate pair, which lower-casing leaves as it is. *)

(** C1 fails on server.js: after inserting "Level" into the empty store,
    a delete request for "LEVEL" is answered 404 and the record stays; and
    in a store that already holds "level", inserting "Level" and then
    "level" ends in the duplicate error. *)
Lemma delete_uppercase_not_found :
  length store_Level = 1%nat
  /\ delete_string store_Level (js "LEVEL") = (store_Level, not_found_response)
  /\ post_strings (js "t2")
       (post_strings (js "t1") store_level (JString (js "Level"))).1
       (JString (js "level"))
     = ((post_strings (js "t1") store_level (JString (js "Level"))).1,
        duplicate_response).
Proof.
  split; [reflexivity |]. split.
  - apply delete_status. unfold store_Level. rewrite stored_post_iff.
    intros [(r & Hr & _) | Heq]; [inversion Hr | discriminate Heq].
  - apply post_stored. rewrite stored_post_iff. left.
    apply stored_after_post.
Qed.

Lemma deletion_case_sensitive_witness :
  delete_string store_Level (js "LEVEL") = (store_Level, not_found_response)
  /\ status (delete_string store_Level (js "Level")).2 = 204
  /\ status (Variant1.delete_string store_Level (js "LEVEL")).2 = 204.
Proof.
  pose proof (deletion_and_duplicates_case_sensitive (js "t0") (js "t1") [])
    as (Hupper & Hexact & Hvariant & _).
  split; [|split; [exact Hexact | exact Hvariant]].
  apply Hupper. intros (r & Hr & _). inversion Hr.
Defined.


(** C4 fails as the specification words the recognizers: "_palindrome"
    has the substring "palindrom", "step3 words" has "3 words" and
    "microcontains a" has "contains a", but none of them at a word
    boundary, and the three phrases are answered [null]. *)
Lemma substring_mention_unparseable :
  has_substring_palindrom (toLowerCase (js "_palindrome")) = true
  /\ parseNaturalLanguageQuery (js "_palindrome") = None
  /\ includes (toLowerCase (js "step3 words")) (js "3 words") = true
  /\ parseNaturalLanguageQuery (js "step3 words") = None
  /\ includes (toLowerCase (js "microcontains a")) (js "contains a") = true
  /\ parseNaturalLanguageQuery (js "microcontains a") = None.
Proof. repeat split; vm_compute; reflexivity. Qed.


(** C6 fails: [min_length=12abc] is accepted and applied as 12, and so is
    a value with leading white space and a sign. *)
Lemma trailing_garbage_accepted :
  get_strings []
    {| Query.is_palindrome := None; Query.min_length := Some (js "12abc");
       Query.max_length := Some (js " +7.5"); Query.word_count := None;
       Query.contains_character := None |}
  = ([], {| status := 200;
            body := CollectionBody [] 0
                      (Filters.set_max_length 7
                         (Filters.set_min_length 12 Filters.empty)) |}).
Proof. vm_compute. reflexivity. Qed.

Lemma filters_scenario_witness :
  exact_numbers query_scenario
  /\ asks query_scenario filters_scenario
  /\ body (get_strings store_level_cat query_scenario).2
     = CollectionBody [analyzeString [] (js "level")] 1 filters_scenario.
Proof.
  assert (Hexact : exact_numbers query_scenario).
  { intros v n [Hv | [Hv | Hv]] Hn; simpl in Hv; inversion Hv; subst v;
      apply parseInt10_spec in Hn; inversion Hn; reflexivity. }
  assert (Hrun : body (get_strings store_level_cat query_scenario).2
                 = CollectionBody [analyzeString [] (js "level")] 1
                                  filters_scenario)
    by (vm_compute; reflexivity).
  pose proof (filters_conjunctive_subsequence store_level_cat query_scenario)
    as (_ & _ & Hbody).
  rewrite Hrun in Hbody. destruct Hbody as (_ & Hasks & _).
  split; [exact Hexact |]. split; [exact (Hasks Hexact) | exact Hrun].
Defined.

Lemma numeric_parameters_witness :
  parseInt10 (js "  -12abc") = Some (-12)
  /\ parseInt10 (js " abc12") = None
  /\ exists msg,
       get_strings store_Level
         {| Query.is_palindrome := None; Query.min_length := Some (js "3");
            Query.max_length := Some (js "abc12"); Query.word_count := None;
            Query.contains_character := None |}
       = (store_Level, {| status := 400; body := ErrorBody msg |}).
Proof.
  pose proof (numeric_parameters_integer_like store_Level
                {| Query.is_palindrome := None; Query.min_length := Some (js "3");
                   Query.max_length := Some (js "abc12"); Query.word_count := None;
                   Query.contains_character := None |})
    as (_ & Hvalue & Hreject & _ & Hwhole).
  split; [|split].
  - apply (Hvalue (js "  -12abc") (-12)); [reflexivity |].
    apply (integer_like_intro (js "  ") (js "-") (js "12") (js "abc"));
      [by repeat constructor | tauto | discriminate
      | by repeat constructor | reflexivity].
  - apply (Hreject (js " ") 97%N (js "bc12"));
      [by repeat constructor | reflexivity | reflexivity | discriminate
      | discriminate].
  - apply Hwhole. intros (_ & _ & Hmax & _).
    destruct (Hmax (js "abc12") eq_refl) as [n Hn].
    apply parseInt10_spec in Hn. discriminate Hn.
Defined.

(** C8 fails on a string with a surrogate pair: it has two code units, both
    distinct, but one iterated element, so [unique_characters] is 1, the one
    key of the frequency map is two code units long, and the counts add up
    to 1 while [length] is 2. *)
Lemma surrogate_pair_counted_once :
  Properties.length (properties (analyzeString [] grinning_face)) = 2
  /\ length (remove_dups grinning_face) = 2%nat
  /\ unique_characters (properties (analyzeString [] grinning_face)) = 1
  /\ character_frequency_map (properties (analyzeString [] grinning_face))
     !! grinning_face = Some 1
  /\ sum_counts (character_frequency_map
                   (properties (analyzeString [] grinning_face))) = 1
  /\ ~ counts_code_units (properties (analyzeString [] grinning_face))
                         grinning_face.
Proof.
  assert (Hu : unique_characters (properties (analyzeString [] grinning_face)) = 1)
    by (vm_compute; reflexivity).
  assert (Hd : length (remove_dups grinning_face) = 2%nat)
    by (vm_compute; reflexivity).
  split; [reflexivity |]. split; [exact Hd |]. split; [exact Hu |].
  split; [vm_compute; reflexivity |]. split; [vm_compute; reflexivity |].
  intros (Hu' & _). rewrite Hu, Hd in Hu'. discriminate Hu'.
Qed.

Lemma counting_witness :
  string_iter (js "level") = map (fun c => [c]) (js "level")
  /\ sum_counts (character_frequency_map (properties (analyzeString [] (js "level"))))
     = Properties.length (properties (analyzeString [] (js "level"))).
Proof.
  pose proof (counting_iterates_code_points [] (js "level"))
    as (_ & _ & _ & _ & _ & Hunits).
  apply Hunits. reflexivity.
Defined.

Lemma insert_duplicate_witness :
  post_strings (js "t1") store_Level (JString (js "Level"))
  = (store_Level, duplicate_response).
Proof.
  apply (proj1 (insert_duplicate_rejected (js "t1") (js "t2") store_Level
                  (js "Level"))).
  exists (analyzeString (js "t0") (js "Level")). split; [by left | reflexivity].
Defined.

Lemma delete_witness :
  removes_first_match (fun r => str_eqb (value r) (js "b"))
                      store_abc (delete_string store_abc (js "b")).1
  /\ length store_abc = S (length (delete_string store_abc (js "b")).1).
Proof.
  apply (proj1 (delete_removes_first_match store_abc (js "b"))). reflexivity.
Defined.

(** ** Runs of the further properties *)

Lemma lookup_after_insert_witness :
  exists r,
    get_string store_Level (js "Level")
    = (store_Level, {| status := 200; body := RecordBody r |})
    /\ r = analyzeString (js "t0") (js "Level").
Proof.
  destruct (lookup_after_insert (js "t0") [] (js "Level")) as (r & Hget & _ & Hnew).
  exists r. split; [exact Hget |].
  apply Hnew. intros (x & Hx & _). inversion Hx.
Defined.

Lemma insert_then_delete_witness :
  delete_string (post_strings (js "t1") store_Level (JString (js "noon"))).1
                (js "noon")
  = (store_Level, {| status := 204; body := EmptyBody |}).
Proof.
  apply (insert_then_delete (js "t1") store_Level (js "noon")).
  intros (x & Hx & Hv).
  assert (He : store_Level = [analyzeString (js "t0") (js "Level")])
    by reflexivity.
  rewrite He in Hx. apply list_elem_of_singleton in Hx as ->.
  discriminate Hv.
Defined.

Lemma lookup_after_delete_witness :
  get_string (delete_string store_abc (js "b")).1 (js "b")
  = ((delete_string store_abc (js "b")).1, not_found_response)
  /\ (get_string (delete_string store_abc (js "b")).1 (js "c")).2
     = (get_string store_abc (js "c")).2.
Proof.
  assert (Hnd : NoDup (value <$> store_abc)).
  { repeat constructor; rewrite ?elem_of_cons, ?elem_of_nil;
      intros Hin; repeat destruct Hin as [Hin | Hin]; discriminate || done. }
  assert (Hs : stored (js "b") store_abc).
  { exists (analyzeString [] (js "b")). split; [right; left | reflexivity]. }
  destruct (lookup_after_delete store_abc (js "b") (js "c") Hnd Hs) as [Hgone Hother].
  split; [exact Hgone | apply Hother; discriminate].
Defined.

Lemma insert_outcomes_witness :
  (post_strings (js "t1") store_Level JUndefined).1 = store_Level.
Proof.
  apply (insert_outcomes (js "t1") store_Level JUndefined). discriminate.
Defined.

Lemma listing_conflict_witness :
  exists f,
    get_strings store_Level query_conflict
    = (store_Level, {| status := 200; body := CollectionBody [] 0 f |})
    /\ Filters.min_length f = Some 11 /\ Filters.max_length f = Some 4.
Proof.
  assert (Hvalid : valid_query query_conflict).
  { split; [by left |].
    split; [| split; [| split]]; intros v Hv; simpl in Hv; try done;
      inversion Hv; subst v; eexists; apply parseInt10_spec; reflexivity. }
  apply (proj2 (listing_ignores_conflicts store_Level query_conflict
                  (js "11") (js "4") 11 4) Hvalid);
    try reflexivity; apply parseInt10_spec; reflexivity.
Defined.

Lemma contains_character_witness :
  get_strings store_Level (with_contains_character Query.empty [76%N])
  = get_strings store_Level (with_contains_character Query.empty [lower_unit 76%N]).
Proof.
  apply (contains_character_ignores_case store_Level Query.empty 76%N).
  reflexivity.
Defined.

Lemma translation_bounds_witness :
  exists x, js "z" = [x] /\ isLowerLetter x = true.
Proof.
  pose proof (translation_bounds (js "Strings CONTAINING the letter Z")) as Hb.
  assert (Hp : parseNaturalLanguageQuery (js "Strings CONTAINING the letter Z")
               = Some (Filters.set_contains_character (js "z") Filters.empty))
    by (vm_compute; reflexivity).
  rewrite Hp in Hb. destruct Hb as (_ & _ & _ & _ & Hc).
  apply Hc. reflexivity.
Defined.

Lemma route_shadowed_witness :
  application store_Level natural_request
  = (store_Level, Answered not_found_response).
Proof.
  pose proof (natural_language_route_shadowed store_Level natural_request)
    as (_ & _ & Hroute & _).
  rewrite Hroute; reflexivity.
Defined.

Lemma variant_natural_language_witness :
  store_Level <> []
  /\ store_Level = List.filter (satisfies Filters.empty) store_Level.
Proof.
  pose proof (variant_natural_language store_Level 101%N (js "verything"))
    as (_ & Hbody & _).
  assert (Hrun : Variant1.get_filter_by_natural_language store_Level
                   (Some (101%N :: js "verything"))
                 = (store_Level,
                    {| status := 200;
                       body := InterpretedBody store_Level 1
                                 (js "everything") Filters.empty |}))
    by reflexivity.
  cbv zeta in Hbody. rewrite Hrun in Hbody. cbn [snd body status] in Hbody.
  destruct Hbody as (_ & _ & Hne & Hdata & _). by split.
Defined.

Lemma analysis_bounds_witness :
  1 <= 2 <= Properties.length (properties (analyzeString [] (js "level"))).
Proof.
  pose proof (analysis_bounds [] (js "level")) as (_ & _ & _ & Hcount & _).
  apply (Hcount (js "l") 2). vm_compute. reflexivity.
Defined.

Lemma word_count_additive_witness :
  word_count (properties (analyzeString [] (js "hello" ++ 32%N :: js "big world")))
  = word_count (properties (analyzeString [] (js "hello")))
    + word_count (properties (analyzeString [] (js "big world"))).
Proof.
  apply (word_count_additive [] (js "hello") (js "big world") 32%N). reflexivity.
Defined.

Lemma palindrome_ignores_case_witness :
  is_palindrome (properties (analyzeString [] (js "Level")))
  = is_palindrome (properties (analyzeString [] (js "LEVEL"))).
Proof.
  pose proof (palindrome_ignores_ascii_case [] (js "Level") (js "LEVEL")
                eq_refl eq_refl) as (_ & Hsame & _).
  apply Hsame. reflexivity.
Defined.

Lemma variant_listing_agrees_witness :
  store_Level <> [] /\ plain_query query_mixed
  /\ status (get_strings store_Level query_mixed).2 = 200
  /\ Variant1.listing_status
       (Variant1.get_strings store_Level query_mixed).2 = 200.
Proof.
  set (query := query_mixed).
  assert (Hne : store_Level <> []) by done.
  assert (Hplain : plain_query query).
  { split; [| split; [| split]]; intros v Hv; simpl in Hv; try done;
      inversion Hv; subst v; done. }
  pose proof (variant_listing_agrees store_Level query Hne Hplain)
    as (_ & Hstatus & _).
  assert (Hcurrent : status (get_strings store_Level query).2 = 200)
    by (vm_compute; reflexivity).
  cbv zeta in Hstatus. rewrite Hcurrent in Hstatus.
  split; [exact Hne |]. split; [exact Hplain |].
  split; [exact Hcurrent | exact Hstatus].
Defined.

Lemma variant_listing_lenient_witness :
  Variant1.listing_status
    (Variant1.get_strings store_Level query_empty_min).2 = 200
  /\ status (get_strings store_Level query_empty_min).2 = 400
  /\ Variant1.parseInt (js "0x1A") = Some 26.
Proof.
  set (query := query_empty_min).
  pose proof (variant_listing_lenient store_Level query (js "1A") [])
    as (_ & Hempty & Hhex).
  assert (Hne : store_Level <> []) by done.
  destruct (Hempty Hne (or_introl eq_refl)) as (_ & Hcurrent).
  split; [by vm_compute |]. split; [exact Hcurrent |].
  apply Hhex; [done | | done | reflexivity].
  repeat constructor.
Defined.

Lemma translation_ignores_case_witness :
  parseNaturalLanguageQuery (js "PALINDROMES Longer Than 3")
  = parseNaturalLanguageQuery (js "Palindromes longer than 3").
Proof.
  apply (proj1 (translation_ignores_case
                  (js "PALINDROMES Longer Than 3")
                  (js "Palindromes longer than 3") eq_refl eq_refl eq_refl)).
Defined.

Lemma first_variant_listing_witness :
  ascii_store store_Level /\ decimal_query (as_current_query query_mixed0)
  /\ Variant0.listing_status
       (Variant0.get_strings store_Level query_mixed0).2 = 200.
Proof.
  assert (Hne : store_Level <> []) by done.
  assert (Hascii : ascii_store store_Level) by (repeat constructor).
  assert (Hquery : decimal_query (as_current_query query_mixed0)).
  { split; [| split; [| split]]; intros v Hv; simpl in Hv; try done;
      inversion Hv; subst v; done. }
  pose proof (first_variant_listing store_Level query_mixed0 Hne Hascii Hquery)
    as (_ & Hstatus & _).
  assert (Hcurrent : status (get_strings store_Level
                               (as_current_query query_mixed0)).2 = 200)
    by (vm_compute; reflexivity).
  cbv zeta in Hstatus. rewrite Hcurrent in Hstatus.
  split; [exact Hascii |]. split; [exact Hquery | exact Hstatus].
Defined.
